(** * Fantacalcio ledger: a shallow embedding of [main.py]

    The development follows the layout of the script: text helpers
    ([normalize_name], [parse_italian_number]), the snapshot reducer
    ([collect_current_scores]), the reconciler ([update_storico]) and the
    two views ([build_punteggi_giornata], [build_ultima_classifica]).

    Conventions.
    - A Python [str] is a [string] whose characters are code points below
      256 (Latin-1), so that the no-break space of the source is the
      single character 160.
    - A pandas [DataFrame] is the list of its rows, in index order.
    - A Python [dict] is an association list in insertion order with
      pairwise distinct keys ([dict_wf]).
    - A score is a Python [float]; the operations the script and
      pandas apply to scores are gathered in the class [Score], the
      order laws that hold for floats other than NaN in [ScoreOrder],
      and those that hold for all floats, NaN included, in
      [FloatOrder].  The views are modelled on ledgers that may hold
      NaN totals (an empty cell of the workbook).
    - A sort of a frame on several columns is pandas' stable sort; the
      sort on one column goes to [numpy.argsort] of the default kind,
      which is a parameter [argsort] bound by numpy's promise
      ([argsort_ok]).
    - A timestamp is an integer; [None] in a [data_download] cell is
      pandas' [NaT].
    - Code that can raise (a missing dict key, [int] of an empty maximum)
      returns [option], [None] being the raised exception. *)

From Stdlib Require Import ZArith QArith List String Ascii Bool Arith Lia.
From Stdlib Require Import Permutation Sorted.
Import ListNotations.
Local Open Scope string_scope.
Local Open Scope list_scope.
Local Open Scope Z_scope.

Set Implicit Arguments.

(** ** Strings *)

Definition chr (n : nat) : ascii := ascii_of_nat n.

Definition code (c : ascii) : nat := nat_of_ascii c.

(** [str.isspace] on one code point below 256. *)
Definition is_space (c : ascii) : bool :=
  let n := code c in
  ((9 <=? n) && (n <=? 13) || (28 <=? n) && (n <=? 32)
   || (n =? 133) || (n =? 160))%nat.

(** [str.lower] on one code point below 256: A-Z, and the Latin-1
    capitals 192-222 but for the multiplication sign 215. *)
Definition lower_char (c : ascii) : ascii :=
  let n := code c in
  if ((65 <=? n) && (n <=? 90)
      || (192 <=? n) && (n <=? 222) && negb (n =? 215))%nat
  then chr (n + 32) else c.

Fixpoint lower (s : string) : string :=
  match s with
  | EmptyString => EmptyString
  | String c s' => String (lower_char c) (lower s')
  end.

(** [name.split()]: the maximal runs of characters that are not spaces.
    [cur] is the word being read, reversed. *)
Fixpoint split_ws (cur : list ascii) (s : string) : list string :=
  let flush := match cur with
               | [] => []
               | _ => [string_of_list_ascii (rev cur)]
               end in
  match s with
  | EmptyString => flush
  | String c s' =>
      if is_space c then flush ++ split_ws [] s' else split_ws (c :: cur) s'
  end.

Definition split (s : string) : list string := split_ws [] s.

(** [sep.join(words)]. *)
Fixpoint join (sep : string) (words : list string) : string :=
  match words with
  | [] => EmptyString
  | [w] => w
  | w :: ws => (w ++ sep ++ join sep ws)%string
  end.

Fixpoint lstrip (s : string) : string :=
  match s with
  | String c s' => if is_space c then lstrip s' else s
  | EmptyString => EmptyString
  end.

Definition rev_string (s : string) : string :=
  string_of_list_ascii (rev (list_ascii_of_string s)).

Definition strip (s : string) : string :=
  rev_string (lstrip (rev_string (lstrip s))).

(** [" ".join(name.split()).strip().lower()] *)
Definition normalize_name (name : string) : string :=
  lower (strip (join " " (split name))).

(** [s.replace(old, new)] for a one-character [old]. *)
Fixpoint replace (old : ascii) (new : string) (s : string) : string :=
  match s with
  | EmptyString => EmptyString
  | String c s' =>
      if Ascii.eqb c old then (new ++ replace old new s')%string
      else String c (replace old new s')
  end.

Definition nbsp : ascii := chr 160.

(** The two [replace] lines of [parse_italian_number]: the text handed to
    [float]. *)
Definition italian_clean (s : string) : string :=
  let s := replace " " EmptyString (replace nbsp " " s) in
  replace "," "." (replace "." EmptyString s).

(** *** The decimal read by [float]

    [float(s)] returns the binary64 number nearest to the decimal that [s]
    denotes.  [py_float] computes that decimal exactly, as a fraction with
    a power of ten below, for the plain numerals: an optional sign,
    digits, and optionally a point and more digits, with at least one
    digit in all.  It answers
    [None] on every other text: there Python either raises [ValueError]
    or reads a form left out here (exponent, underscore, inf, nan,
    surrounding blanks). *)

Definition digit_of (c : ascii) : option Z :=
  let n := code c in
  if ((48 <=? n) && (n <=? 57))%nat then Some (Z.of_nat (n - 48)) else None.

(** Reads digits into [acc]; answers the value, the number of digits
    read and the rest of the text. *)
Fixpoint read_digits (acc : Z) (cnt : nat) (s : string) : Z * nat * string :=
  match s with
  | String c s' =>
      match digit_of c with
      | Some d => read_digits (10 * acc + d) (S cnt) s'
      | None => (acc, cnt, s)
      end
  | EmptyString => (acc, cnt, s)
  end.

Definition read_unsigned (s : string) : option Q :=
  let '(ip, ni, rest) := read_digits 0 0%nat s in
  match rest with
  | EmptyString => if (0 <? ni)%nat then Some (ip # 1) else None
  | String c rest' =>
      if Ascii.eqb c "." then
        let '(m, nf, rest'') := read_digits ip 0%nat rest' in
        match rest'' with
        | EmptyString =>
            if (0 <? ni + nf)%nat
            then Some (m # Z.to_pos (10 ^ Z.of_nat nf))
            else None
        | _ => None
        end
      else None
  end.

Definition py_float (s : string) : option Q :=
  match s with
  | String c s' =>
      if Ascii.eqb c "-" then option_map Qopp (read_unsigned s')
      else if Ascii.eqb c "+" then read_unsigned s'
      else read_unsigned s
  | EmptyString => None
  end.

Definition parse_italian_number (s : string) : option Q :=
  py_float (italian_clean s).

(** *** The Italian format, after the words of the specification

    A numeral is in the format when its integer part is written in
    groups of three digits parted by [.] (the first group of one to
    three digits) and its decimals, if any, follow a [,]. *)

Fixpoint count_char (c : ascii) (s : string) : nat :=
  match s with
  | EmptyString => 0%nat
  | String a s' => ((if Ascii.eqb a c then 1 else 0) + count_char c s')%nat
  end.

Fixpoint all_digits (s : string) : bool :=
  match s with
  | EmptyString => true
  | String a s' =>
      match digit_of a with
      | Some _ => all_digits s'
      | None => false
      end
  end.

(** The pieces of [s] between the occurrences of [c]; [cur] is the piece
    being read, reversed. *)
Fixpoint split_on (c : ascii) (cur : list ascii) (s : string) : list string :=
  match s with
  | EmptyString => [string_of_list_ascii (rev cur)]
  | String a s' =>
      if Ascii.eqb a c
      then string_of_list_ascii (rev cur) :: split_on c [] s'
      else split_on c (a :: cur) s'
  end.

Definition group_of_three (g : string) : bool :=
  all_digits g && (String.length g =? 3)%nat.

Definition grouped_integer (s : string) : bool :=
  match split_on "." [] s with
  | [] => false
  | g :: gs =>
      all_digits g && (1 <=? String.length g)%nat
      && (String.length g <=? 3)%nat && forallb group_of_three gs
  end.

Definition italian_format (s : string) : bool :=
  match split_on "," [] s with
  | [i] => grouped_integer i
  | [i; d] =>
      grouped_integer i && all_digits d && (1 <=? String.length d)%nat
  | _ => false
  end.

(** The points of [s] are still in the text handed to [float]. *)
Definition dots_kept (s : string) : Prop :=
  (count_char "." s <= count_char "." (italian_clean s))%nat.

(** ** Scores *)

(** What the script and pandas do with a score: [a > b], [a - b],
    [abs a], the constant [float_eps] (1e-6) of [update_storico], and
    the test [isna] that the views apply to a column of scores. *)
Class Score : Type := {
  score : Type;
  score_gtb : score -> score -> bool;
  score_sub : score -> score -> score;
  score_abs : score -> score;
  float_eps : score;
  score_isnan : score -> bool
}.

(** [>] on floats that are not NaN is a strict total order (the two
    zeros, which Python finds equal, taken as one). *)
Class ScoreOrder (S : Score) : Prop := {
  gtb_irrefl : forall a : score, score_gtb a a = false;
  gtb_trans : forall a b c : score,
    score_gtb a b = true -> score_gtb b c = true -> score_gtb a c = true;
  gtb_total : forall a b : score,
    score_gtb a b = false -> score_gtb b a = false -> a = b
}.

(** [>] on all floats: a comparison with NaN is false, and [>] is a
    strict weak order (two floats neither of which is above the other
    are equal numbers, or one of them is NaN). *)
Class FloatOrder (S : Score) : Prop := {
  nan_gtb_l : forall a b : score, score_isnan a = true -> score_gtb a b = false;
  nan_gtb_r : forall a b : score, score_isnan b = true -> score_gtb a b = false;
  fgtb_irrefl : forall a : score, score_gtb a a = false;
  fgtb_trans : forall a b c : score,
    score_gtb a b = true -> score_gtb b c = true -> score_gtb a c = true;
  fgtb_negtrans : forall a b c : score,
    score_isnan b = false ->
    score_gtb a b = false -> score_gtb b c = false -> score_gtb a c = false
}.

(** Whole-number scores: integers are floats, and two distinct integers
    differ by more than 1e-6, so that [0] stands for [float_eps]. *)
#[export] Instance ZScore : Score := {|
  score := Z;
  score_gtb := Z.gtb;
  score_sub := Z.sub;
  score_abs := Z.abs;
  float_eps := 0;
  score_isnan := fun _ => false
|}.

(** Whole-number scores and NaN, which is [None]: the arithmetic on NaN
    gives NaN and a comparison with NaN is false. *)
Definition nscore_gtb (a b : option Z) : bool :=
  match a, b with
  | Some x, Some y => x >? y
  | _, _ => false
  end.

Definition nscore_sub (a b : option Z) : option Z :=
  match a, b with
  | Some x, Some y => Some (x - y)
  | _, _ => None
  end.

Definition nscore_abs (a : option Z) : option Z :=
  match a with
  | Some x => Some (Z.abs x)
  | None => None
  end.

Definition nscore_isnan (a : option Z) : bool :=
  match a with
  | Some _ => false
  | None => true
  end.

Definition NScore : Score := {|
  score := option Z;
  score_gtb := nscore_gtb;
  score_sub := nscore_sub;
  score_abs := nscore_abs;
  float_eps := Some 0;
  score_isnan := nscore_isnan
|}.

(** ** Dictionaries *)

Definition dict (V : Type) : Type := list (string * V).

Fixpoint dict_get {V : Type} (d : dict V) (k : string) : option V :=
  match d with
  | [] => None
  | (k', v) :: d' => if String.eqb k' k then Some v else dict_get d' k
  end.

(** [d[k] = v]: an existing key keeps its place. *)
Fixpoint dict_set {V : Type} (d : dict V) (k : string) (v : V) : dict V :=
  match d with
  | [] => [(k, v)]
  | (k', v') :: d' =>
      if String.eqb k' k then (k', v) :: d' else (k', v') :: dict_set d' k v
  end.

Definition dict_wf {V : Type} (d : dict V) : Prop := NoDup (map fst d).

Definition bind {A B : Type} (x : option A) (f : A -> option B) : option B :=
  match x with
  | Some a => f a
  | None => None
  end.

Notation "x <- c ;; k" := (bind c (fun x => k))
  (at level 61, c at next level, right associativity).
Notation "' p <- c ;; k" := (bind c (fun p => k))
  (at level 61, p pattern, c at next level, right associativity).

Section Model.

Context {Sc : Score}.

(** ** Data *)

(** A dict of [parse_rankings]. *)
Record raw_row : Type := mkRaw {
  raw_Squadra : string;
  raw_Punti : score;
  raw_posizione : option Z;
  raw_url : string
}.

(** A value of the snapshot: [{"Squadra": ..., "Punti": ...}]. *)
Record team_obj : Type := mkObj {
  obj_Squadra : string;
  obj_Punti : score
}.

Definition snapshot : Type := dict team_obj.

(** A row of the sheet "Storico". *)
Record row : Type := mkRow {
  giornata : Z;
  data_download : option Z;
  Squadra : string;
  squadra_norm : string;
  punteggio_totale : score
}.

Definition ledger : Type := list row.

Record stats : Type := mkStats {
  added_changed : nat;
  added_new_prev : nat;
  skipped_unchanged : nat;
  no_change : nat
}.

(** A row of the sheet "Punteggi giornata". *)
Record delta_row : Type := mkDelta {
  d_giornata : Z;
  d_data_download : option Z;
  d_Squadra : string;
  punteggio_giornata : score
}.

(** A row of the sheet "Ultima classifica". *)
Record standing_row : Type := mkStanding {
  posizione : nat;
  s_Squadra : string;
  s_punteggio_totale : score;
  s_giornata : Z;
  s_data_download : option Z
}.

(** ** collect_current_scores *)

Definition collect_step (scores : snapshot) (r : raw_row) : snapshot :=
  let norm := normalize_name (raw_Squadra r) in
  let fresh := mkObj (raw_Squadra r) (raw_Punti r) in
  match dict_get scores norm with
  | None => dict_set scores norm fresh
  | Some old =>
      if score_gtb (raw_Punti r) (obj_Punti old)
      then dict_set scores norm fresh
      else scores
  end.

Definition collect_current_scores (all_rows : list raw_row) : snapshot :=
  fold_left collect_step all_rows [].

(** ** Sorting *)

(** A stable sort by insertion: [x], which stood before the rows of [l],
    goes before the first row it is not above. *)
Fixpoint insert {A : Type} (le : A -> A -> bool) (x : A) (l : list A) : list A :=
  match l with
  | [] => [x]
  | y :: l' => if le x y then x :: l else y :: insert le x l'
  end.

Fixpoint stable_sort {A : Type} (le : A -> A -> bool) (l : list A) : list A :=
  match l with
  | [] => []
  | x :: l' => insert le x (stable_sort le l')
  end.

(** Order of [sort_values(["squadra_norm", "giornata"])]. *)
Definition le_norm_giornata (a b : row) : bool :=
  match String.compare (squadra_norm a) (squadra_norm b) with
  | Lt => true
  | Eq => giornata a <=? giornata b
  | Gt => false
  end.

(** A sort on several columns is stable in pandas. *)
Definition sort_norm_giornata (df : ledger) : ledger :=
  stable_sort le_norm_giornata df.

Definition same_norm (k : string) (r : row) : bool :=
  String.eqb (squadra_norm r) k.

(** [groupby("squadra_norm").tail(1)]: the rows that no later row of
    their group follows, in the order of the frame. *)
Fixpoint groupby_tail1 (df : ledger) : ledger :=
  match df with
  | [] => []
  | r :: df' =>
      if existsb (same_norm (squadra_norm r)) df' then groupby_tail1 df'
      else r :: groupby_tail1 df'
  end.

(** ** update_storico *)

Definition is_empty {A : Type} (l : list A) : bool :=
  match l with
  | [] => true
  | _ => false
  end.

Definition df_last (df_storico : ledger) : ledger :=
  groupby_tail1 (sort_norm_giornata df_storico).

(** [norm in df_last.index] *)
Definition in_index (df : ledger) (norm : string) : bool :=
  existsb (same_norm norm) df.

(** [df_last.loc[norm, "punteggio_totale"]] *)
Definition loc_punteggio (df : ledger) (norm : string) : option score :=
  option_map punteggio_totale (find (same_norm norm) df).

(** [int(df_storico["giornata"].max())]: no value on an empty column. *)
Definition giornata_max (df : ledger) : option Z :=
  match df with
  | [] => None
  | r :: df' => Some (fold_left Z.max (map giornata df') (giornata r))
  end.

(** The maximum of a datetime column, NaT cells skipped; [None] is NaT. *)
Definition max_date (cells : list (option Z)) : option Z :=
  fold_left (fun acc c =>
               match acc, c with
               | Some a, Some t => Some (Z.max a t)
               | None, _ => c
               | _, None => acc
               end) cells None.

Definition compute_prev_giornata_date
    (df_storico : ledger) (g : Z) (fallback_dt : Z) : Z :=
  let col := map data_download
                 (filter (fun r => giornata r =? g) df_storico) in
  match max_date col with
  | None => fallback_dt
  | Some prev_dt => prev_dt
  end.

(** The three lists of the classification loop, each in the order of
    [current_scores.items()]. *)
Fixpoint classify (dl : ledger) (items : snapshot)
  : option (list string * list string * list string) :=
  match items with
  | [] => Some ([], [], [])
  | (norm, obj) :: items' =>
      if negb (in_index dl norm) then
        '(changed, unchanged, new_teams) <- classify dl items' ;;
        Some (changed, unchanged, norm :: new_teams)
      else
        prev <- loc_punteggio dl norm ;;
        '(changed, unchanged, new_teams) <- classify dl items' ;;
        if score_gtb (score_abs (score_sub (obj_Punti obj) prev)) float_eps
        then Some (norm :: changed, unchanged, new_teams)
        else Some (changed, norm :: unchanged, new_teams)
  end.

(** One appended row per name of [norms], read from [current_scores]. *)
Fixpoint rows_for (current_scores : snapshot) (g : Z) (dt : Z)
    (norms : list string) : option ledger :=
  match norms with
  | [] => Some []
  | norm :: norms' =>
      obj <- dict_get current_scores norm ;;
      rest <- rows_for current_scores g dt norms' ;;
      Some (mkRow g (Some dt) (obj_Squadra obj) norm (obj_Punti obj) :: rest)
  end.

Definition key_eqb (a b : Z * string) : bool :=
  (fst a =? fst b) && String.eqb (snd a) (snd b).

Definition row_key (r : row) : Z * string := (giornata r, squadra_norm r).

(** The guard against (giornata, squadra_norm) pairs already stored. *)
Definition drop_existing (df_storico df_new : ledger) : ledger :=
  if is_empty df_new then df_new
  else
    let existing_keys := map row_key df_storico in
    filter (fun r => negb (existsb (key_eqb (row_key r)) existing_keys)) df_new.

(** [pd.concat([df_storico, df_new]) if not df_new.empty else df_storico.copy()] *)
Definition concat_or_copy (df_storico df_new : ledger) : ledger :=
  if is_empty df_new then df_storico else df_storico ++ df_new.

Definition first_rows (current_scores : snapshot) (run_dt : Z) : ledger :=
  map (fun it => mkRow 1 (Some run_dt) (obj_Squadra (snd it)) (fst it)
                       (obj_Punti (snd it)))
      current_scores.

(** The reconciler, with the guard [guard] applied to the rows to add. *)
Definition update_with (guard : ledger -> ledger -> ledger)
    (df_storico : ledger) (current_scores : snapshot) (run_dt : Z)
  : option (ledger * option Z * stats) :=
  if is_empty df_storico then
    let rows := first_rows current_scores run_dt in
    Some (rows, Some 1, mkStats (List.length rows) 0 0 0)
  else
    let dl := df_last df_storico in
    last_giornata <- giornata_max df_storico ;;
    '(changed, unchanged, new_teams) <- classify dl current_scores ;;
    if negb (is_empty changed) then
      let giornata_new := last_giornata + 1 in
      rows_changed <- rows_for current_scores giornata_new run_dt changed ;;
      let prev_dt :=
        compute_prev_giornata_date df_storico last_giornata run_dt in
      rows_new <- rows_for current_scores last_giornata prev_dt new_teams ;;
      let df_new := guard df_storico (rows_changed ++ rows_new) in
      Some (concat_or_copy df_storico df_new, Some giornata_new,
            mkStats (List.length changed) (List.length new_teams) (List.length unchanged) 0)
    else if negb (is_empty new_teams) then
      let prev_dt :=
        compute_prev_giornata_date df_storico last_giornata run_dt in
      rows_new <- rows_for current_scores last_giornata prev_dt new_teams ;;
      let df_new := guard df_storico rows_new in
      Some (concat_or_copy df_storico df_new, None,
            mkStats 0 (List.length new_teams) (List.length unchanged) 0)
    else
      Some (df_storico, None, mkStats 0 0 (List.length unchanged) 1).

Definition update_storico := update_with drop_existing.

(** The reconciler of the refinement claim: the same code with the two
    guards against existing pairs taken out. *)
Definition update_storico_unguarded := update_with (fun _ df_new => df_new).

(** ** build_punteggi_giornata *)

(** [groupby("squadra_norm")["punteggio_totale"].shift(1)]: for each row
    the total of the row before it in its group, [None] (the fill value,
    NaN) for the first row of a group.  [seen] maps a group to its
    latest total. *)
Fixpoint groupby_shift1 (seen : dict score) (df : ledger) : list (option score) :=
  match df with
  | [] => []
  | r :: df' =>
      dict_get seen (squadra_norm r)
      :: groupby_shift1 (dict_set seen (squadra_norm r) (punteggio_totale r)) df'
  end.

(** [df[df["prev_tot"].notna()]]: the rows whose [prev_tot] is not NaN,
    with the four columns kept.  [prev_tot] is NaN on the first row of a
    group, and on a row that follows a row whose total is NaN. *)
Definition delta_of (rp : row * option score) : list delta_row :=
  match snd rp with
  | Some prev_tot =>
      if score_isnan prev_tot then []
      else
        [mkDelta (giornata (fst rp)) (data_download (fst rp))
                 (Squadra (fst rp))
                 (score_sub (punteggio_totale (fst rp)) prev_tot)]
  | None => []
  end.

(** A column sorted downwards by pandas' [lexsort_indexer]: NaN comes
    last (na_position "last"), the numbers before it from the greatest
    to the least. *)
Definition le_desc_nan_last (a b : score) : bool :=
  score_isnan b || (negb (score_isnan a) && negb (score_gtb b a)).

(** Order of [sort_values(["giornata", "punteggio_giornata"],
    ascending=[True, False])]. *)
Definition le_giornata_delta (a b : delta_row) : bool :=
  (d_giornata a <? d_giornata b)
  || ((d_giornata a =? d_giornata b)
      && le_desc_nan_last (punteggio_giornata a) (punteggio_giornata b)).

(** The rows kept for the entries [es] of one group, [prev] being the
    value that [shift(1)] gives at the first of them. *)
Fixpoint deltas_from (prev : option score) (es : ledger) : list delta_row :=
  match es with
  | [] => []
  | e :: es' =>
      delta_of (e, prev) ++ deltas_from (Some (punteggio_totale e)) es'
  end.

Definition build_punteggi_giornata (df_storico : ledger) : list delta_row :=
  if is_empty df_storico then []
  else
    let df := sort_norm_giornata df_storico in
    let prev_tot := groupby_shift1 [] df in
    let out := flat_map delta_of (combine df prev_tot) in
    stable_sort le_giornata_delta out.

(** ** build_ultima_classifica *)

(** [rows.iloc[indexer]]; an index past the end, which numpy refuses, is
    skipped. *)
Definition take {A : Type} (rows : list A) (indexer : list nat) : list A :=
  flat_map (fun i => match nth_error rows i with
                     | Some r => [r]
                     | None => []
                     end) indexer.

(** [idx[mask]]: the positions at which the mask holds, counted from
    [start]. *)
Fixpoint positions (mask : list bool) (start : nat) : list nat :=
  match mask with
  | [] => []
  | b :: mask' =>
      if b then start :: positions mask' (S start)
      else positions mask' (S start)
  end.

(** pandas' [nargsort(items, kind, ascending=False,
    na_position="last")]: the numbers of the column and their positions
    are reversed, sorted upwards by [argsort], and the answer is
    reversed again; the positions of the NaN come after it. *)
Definition nargsort_desc (argsort : list score -> list nat)
    (items : list score) : list nat :=
  let mask := map score_isnan items in
  let non_nans := rev (filter (fun x => negb (score_isnan x)) items) in
  let non_nan_idx := rev (positions (map negb mask) 0) in
  let nan_idx := positions mask 0 in
  let indexer := take non_nan_idx (argsort non_nans) in
  let indexer := rev indexer in
  indexer ++ nan_idx.

Definition number_rows (rows : ledger) : list standing_row :=
  map (fun pr => mkStanding (fst pr) (Squadra (snd pr))
                            (punteggio_totale (snd pr)) (giornata (snd pr))
                            (data_download (snd pr)))
      (combine (seq 1 (List.length rows)) rows).

(** [argsort] is numpy's [argsort] of the default kind, to which a sort on
    one column goes. *)
Definition build_ultima_classifica (argsort : list score -> list nat)
    (df_storico : ledger) : list standing_row :=
  if is_empty df_storico then []
  else
    let last_per_team := groupby_tail1 (sort_norm_giornata df_storico) in
    let indexer :=
      nargsort_desc argsort (map punteggio_totale last_per_team) in
    number_rows (take last_per_team indexer).

(** What numpy promises of [argsort] whatever the kind, on a column
    without NaN: the answer lists each position once, and reads the
    column in ascending order. *)
Definition argsort_ok (argsort : list score -> list nat) : Prop :=
  forall v : list score,
    Forall (fun x => score_isnan x = false) v ->
    Permutation (argsort v) (seq 0 (List.length v))
    /\ StronglySorted (fun a b => score_gtb a b = false) (take v (argsort v)).

(** An [argsort] of kind "stable". *)
Definition argsort_stable (v : list score) : list nat :=
  map fst (stable_sort (fun a b => negb (score_gtb (snd a) (snd b)))
                       (combine (seq 0 (List.length v)) v)).

(** An [argsort] that lists equal scores from the last position to the
    first: another sort that meets what numpy promises. *)
Definition argsort_ties_reversed (v : list score) : list nat :=
  map fst (stable_sort (fun a b => negb (score_gtb (snd a) (snd b)))
                       (rev (combine (seq 0 (List.length v)) v))).

(** ** Notions used to state the properties of the reconciler *)

(** The names that the loop files as new. *)
Definition new_of (dl : ledger) (items : snapshot) : list string :=
  map fst (filter (fun it => negb (in_index dl (fst it))) items).

(** The rows built for a list of keys of the snapshot. *)
Definition row_for (current_scores : snapshot) (g dt : Z) (norm : string)
  : list row :=
  match dict_get current_scores norm with
  | Some obj => [mkRow g (Some dt) (obj_Squadra obj) norm (obj_Punti obj)]
  | None => []
  end.

Definition is_max_round (df : ledger) (m : Z) : Prop :=
  Forall (fun r => giornata r <= m) df /\ Exists (fun r => giornata r = m) df.

(** Times at which the rows of round [g] were recorded. *)
Definition latest_recorded (df : ledger) (g : Z) (t : Z) : Prop :=
  (exists r, In r df /\ giornata r = g /\ data_download r = Some t)
  /\ forall r t', In r df -> giornata r = g -> data_download r = Some t' ->
                  t' <= t.

Definition none_recorded (df : ledger) (g : Z) : Prop :=
  forall r, In r df -> giornata r = g -> data_download r = None.

(** What the reducer holds for a key: nothing if no row has the key,
    else the name and score of a row with the key that no row with the
    key is above. *)
Definition best_for (l : list raw_row) (k : string) (o : option team_obj) : Prop :=
  match o with
  | None => forall r, In r l -> normalize_name (raw_Squadra r) <> k
  | Some o =>
      (exists r, In r l /\ normalize_name (raw_Squadra r) = k
                 /\ raw_Squadra r = obj_Squadra o
                 /\ raw_Punti r = obj_Punti o)
      /\ forall r, In r l -> normalize_name (raw_Squadra r) = k ->
                   score_gtb (raw_Punti r) (obj_Punti o) = false
  end.

(** *** The deltas, after the words of the specification *)

Definition le_giornata (a b : row) : bool := giornata a <=? giornata b.

(** The entries of a team, by round. *)
Definition team_entries (df : ledger) (k : string) : ledger :=
  stable_sort le_giornata (filter (same_norm k) df).

(** [es] is the history of team [k] in [df]: its rounds ascend, and in
    each round it holds the entries that the ledger has for the team in
    that round, in the order of the ledger. *)
Definition is_history (df : ledger) (k : string) (es : ledger) : Prop :=
  StronglySorted (fun a b => giornata a <= giornata b) es
  /\ forall g : Z,
       filter (fun r => giornata r =? g) es
       = filter (fun r => (giornata r =? g) && String.eqb (squadra_norm r) k)
                df.

(** Each entry of a history after the first, with the entry before it. *)
Fixpoint consecutive (es : ledger) : list (row * row) :=
  match es with
  | [] => []
  | e1 :: es' =>
      match es' with
      | [] => []
      | e2 :: _ => (e1, e2) :: consecutive es'
      end
  end.

(** The row of an entry: its round, date and name, and its total minus
    the total of the entry before it. *)
Definition delta_between (pe : row * row) : delta_row :=
  mkDelta (giornata (snd pe)) (data_download (snd pe)) (Squadra (snd pe))
          (score_sub (punteggio_totale (snd pe)) (punteggio_totale (fst pe))).

(** One row for every entry but the first. *)
Definition claimed_deltas (es : ledger) : list delta_row :=
  map delta_between (consecutive es).

(** One row for every entry but the first, unless the total of the
    entry before it is NaN. *)
Definition known_deltas (es : ledger) : list delta_row :=
  map delta_between
      (filter (fun pe => negb (score_isnan (punteggio_totale (fst pe))))
              (consecutive es)).

Definition team_deltas (df : ledger) (k : string) : list delta_row :=
  known_deltas (team_entries df k).

Definition distinct_norms (df : ledger) : list string :=
  nodup string_dec (map squadra_norm df).

(** [a] may come before [b] in a column sorted downwards: [b] is NaN,
    or both are numbers and [b] is not above [a]. *)
Definition desc_nan_last (a b : score) : Prop :=
  score_isnan b = true
  \/ (score_isnan a = false /\ score_gtb b a = false).

(** Round ascending, then delta descending, NaN last. *)
Definition delta_order (a b : delta_row) : Prop :=
  d_giornata a < d_giornata b
  \/ (d_giornata a = d_giornata b
      /\ desc_nan_last (punteggio_giornata a) (punteggio_giornata b)).

(** *** The standings, after the words of the specification *)

(** [r] is an entry of its team with the largest round of the team. *)
Definition is_latest_entry (df : ledger) (r : row) : Prop :=
  In r df
  /\ forall r', In r' df -> squadra_norm r' = squadra_norm r ->
                giornata r' <= giornata r.

(** The four columns that a row of the standings takes from an entry. *)
Definition shows (s : standing_row) (r : row) : Prop :=
  s_Squadra s = Squadra r
  /\ s_punteggio_totale s = punteggio_totale r
  /\ s_giornata s = giornata r
  /\ s_data_download s = data_download r.

(** Total descending, NaN last. *)
Definition standing_order (a b : standing_row) : Prop :=
  desc_nan_last (s_punteggio_totale a) (s_punteggio_totale b).

(** The standings with the equal totals left in the order they had: the
    latest rows of the teams, sorted by a stable sort. *)
Definition standings_stable (df_storico : ledger) : list standing_row :=
  let last_per_team := groupby_tail1 (sort_norm_giornata df_storico) in
  number_rows
    (stable_sort (fun a b => le_desc_nan_last (punteggio_totale a)
                                              (punteggio_totale b))
                 last_per_team).

(** The four entries of the stats are zero. *)
Definition all_zero (st : stats) : Prop :=
  added_changed st = 0%nat /\ added_new_prev st = 0%nat
  /\ skipped_unchanged st = 0%nat /\ no_change st = 0%nat.

End Model.

(** ** fetch_html

    The session is the sequence of what [session.get] does, call after
    call: it answers a response, or raises.  A run is told by what comes
    out of it, the number of calls to [get] and the number of sleeps. *)

Inductive get_outcome : Type :=
| Response (status_code : Z) (text : string)
| GetRaises (exc : string).

(** What [last_exc] holds: the [RuntimeError] made from a status code,
    or the exception caught. *)
Inductive fetch_exc : Type :=
| HttpError (status_code : Z)
| Caught (exc : string).

(** [RaisedNone] is [raise None], which Python turns into a
    [TypeError]. *)
Inductive fetch_outcome : Type :=
| Returned (text : string)
| RaisedLast (last_exc : fetch_exc)
| RaisedNone.

Record fetch_run : Type := mkRun {
  outcome : fetch_outcome;
  gets : nat;
  sleeps : nat
}.

(** [resp.status_code == 200 and resp.text] *)
Definition response_ok (status_code : Z) (text : string) : bool :=
  (status_code =? 200) && negb (String.eqb text EmptyString).

(** The [for] loop with [attempts] turns left, after [calls] calls. *)
Fixpoint fetch_loop (session : nat -> get_outcome) (attempts : nat)
    (calls : nat) (last_exc : option fetch_exc) : fetch_run :=
  match attempts with
  | O =>
      match last_exc with
      | Some e => mkRun (RaisedLast e) calls calls
      | None => mkRun RaisedNone calls calls
      end
  | S attempts' =>
      match session calls with
      | Response status_code text =>
          if response_ok status_code text
          then mkRun (Returned text) (S calls) calls
          else fetch_loop session attempts' (S calls)
                          (Some (HttpError status_code))
      | GetRaises exc =>
          fetch_loop session attempts' (S calls) (Some (Caught exc))
      end
  end.

(** [range(1, retries + 1)] has [retries] turns, none if [retries] is
    not positive.  Each turn that does not return ends in a sleep, so
    that the sleeps are as many as the calls that failed. *)
Definition fetch_html (session : nat -> get_outcome) (retries : Z) : fetch_run :=
  fetch_loop session (Z.to_nat retries) 0 None.

(** The call [i] of the session does not make [fetch_html] return. *)
Definition attempt_fails (session : nat -> get_outcome) (i : nat) : Prop :=
  match session i with
  | Response status_code text => response_ok status_code text = false
  | GetRaises _ => True
  end.

(** What a failed call leaves in [last_exc]. *)
Definition exc_of (o : get_outcome) : fetch_exc :=
  match o with
  | Response status_code _ => HttpError status_code
  | GetRaises exc => Caught exc
  end.

Section Surroundings.

Context {Sc : Score}.

(** ** apply_target_filter

    The set [target_norms] is the list of its members; the
    comprehensions keep the order of [scores] and of [targets]. *)
Definition apply_target_filter (scores : snapshot) (targets : list string)
  : snapshot * list string :=
  if is_empty targets then (scores, [])
  else
    let target_norms := map normalize_name targets in
    let filtered :=
      filter (fun it => existsb (String.eqb (fst it)) target_norms) scores in
    let not_found :=
      filter (fun t => negb (existsb (String.eqb (normalize_name t))
                                     (map fst filtered)))
             targets in
    (filtered, not_found).

(** [norm in target_norms] *)
Definition is_target (targets : list string) (k : string) : bool :=
  existsb (String.eqb k) (map normalize_name targets).

(** ** save_excel

    The three frames written to the sheets "Storico", "Punteggi
    giornata" and "Ultima classifica". *)

(** Order of [sort_values(["giornata", "punteggio_totale"],
    ascending=[True, False])]. *)
Definition le_giornata_punteggio (a b : row) : bool :=
  (giornata a <? giornata b)
  || ((giornata a =? giornata b)
      && le_desc_nan_last (punteggio_totale a) (punteggio_totale b)).

Definition save_excel (argsort : list score -> list nat) (df_storico : ledger)
  : ledger * list delta_row * list standing_row :=
  let df_storico_sorted := stable_sort le_giornata_punteggio df_storico in
  let df_punti_giornata := build_punteggi_giornata df_storico_sorted in
  let df_ultima := build_ultima_classifica argsort df_storico_sorted in
  (df_storico_sorted, df_punti_giornata, df_ultima).

(** ** main

    The test by which [main] leaves without writing the file:
    [giornata_created is None and stats.get("added_new_prev", 0) == 0
     and stats.get("no_change", 0) == 1]. *)
Definition main_skips (giornata_created : option Z) (st : stats) : bool :=
  match giornata_created with
  | None => (added_new_prev st =? 0)%nat && (no_change st =? 1)%nat
  | Some _ => false
  end.

(** ** Notions used to state further properties *)

Definition last_opt {A : Type} (l : list A) : option A :=
  match rev l with
  | [] => None
  | x :: _ => Some x
  end.

(** The total of the latest entry of a team. *)
Definition latest_score (df : ledger) (k : string) : option score :=
  option_map punteggio_totale (last_opt (team_entries df k)).

(** [abs(cur - prev) > float_eps] *)
Definition score_changed (cur prev : score) : bool :=
  score_gtb (score_abs (score_sub cur prev)) float_eps.

(** The total that the ledger returned holds last for a team of the
    snapshot. *)
Definition tracked (df : ledger) (k : string) (obj : team_obj) : score :=
  match latest_score df k with
  | Some p => if score_changed (obj_Punti obj) p then obj_Punti obj else p
  | None => obj_Punti obj
  end.

(** The test of the loop on a team that the index has. *)
Definition changed_item (dl : ledger) (it : string * team_obj) : bool :=
  in_index dl (fst it)
  && match loc_punteggio dl (fst it) with
     | Some prev => score_changed (obj_Punti (snd it)) prev
     | None => false
     end.

Definition unchanged_item (dl : ledger) (it : string * team_obj) : bool :=
  in_index dl (fst it)
  && match loc_punteggio dl (fst it) with
     | Some prev => negb (score_changed (obj_Punti (snd it)) prev)
     | None => false
     end.

(** The names that the loop files as changed, and as unchanged. *)
Definition changed_of (dl : ledger) (items : snapshot) : list string :=
  map fst (filter (changed_item dl) items).

Definition unchanged_of (dl : ledger) (items : snapshot) : list string :=
  map fst (filter (unchanged_item dl) items).

(** What [split_ws] gives for the word in progress at the end of the
    text or at a blank. *)
Definition flush (cur : list ascii) : list string :=
  match cur with
  | [] => []
  | _ => [string_of_list_ascii (rev cur)]
  end.

(** A word of [split]: not empty, and without blanks. *)
Definition is_word (w : string) : Prop :=
  w <> EmptyString
  /\ Forall (fun c => is_space c = false) (list_ascii_of_string w).

End Surroundings.

(** A score does not differ from itself: [abs(a - a) > float_eps] is
    false for every float, NaN and the infinities included. *)
Class ScoreEps (S : Score) : Prop := {
  unchanged_refl : forall a : score,
    score_gtb (score_abs (score_sub a a)) float_eps = false
}.

(** ** Sample data *)

Module Samples.

(** Round 1 with A at 10 and B at 20, recorded at time 100. *)
Definition round1 : @ledger ZScore :=
  [mkRow 1 (Some 100) "A" "a" (10 : @score ZScore);
   mkRow 1 (Some 100) "B" "b" (20 : @score ZScore)].

(** A at 10, B at 25 and a team C never seen, at 5. *)
Definition snap_abc : @snapshot ZScore :=
  [("a", mkObj "A" (10 : @score ZScore));
   ("b", mkObj "B" (25 : @score ZScore));
   ("c", mkObj "C" (5 : @score ZScore))].

(** The ledger after [snap_abc] is applied to [round1] at time 200: B
    opens round 2, C is put back into round 1. *)
Definition round1_after : @ledger ZScore :=
  round1 ++ [mkRow 2 (Some 200) "B" "b" (25 : @score ZScore);
             mkRow 1 (Some 100) "C" "c" (5 : @score ZScore)].

(** One team seen on two pages under two spellings, with one score. *)
Definition seen_upper : @raw_row ZScore :=
  mkRaw "Real Forward" (70 : @score ZScore) (Some 1) "page1".

Definition seen_lower : @raw_row ZScore :=
  mkRaw "real forward" (70 : @score ZScore) (Some 3) "page2".

Definition seen_other : @raw_row ZScore :=
  mkRaw "Pisa pi curt" (64 : @score ZScore) (Some 2) "page1".

(** A over rounds 1 to 3 and B over rounds 1 and 3, stored out of
    order. *)
Definition three_rounds : @ledger ZScore :=
  [mkRow 3 (Some 300) "B" "b" (31 : @score ZScore);
   mkRow 1 (Some 100) "A" "a" (10 : @score ZScore);
   mkRow 2 (Some 200) "A" "a" (15 : @score ZScore);
   mkRow 1 (Some 100) "B" "b" (20 : @score ZScore);
   mkRow 3 (Some 300) "A" "a" (18 : @score ZScore)].

(** Four teams after one round: A and B at 10, C and D at 20. *)
Definition two_ties : @ledger ZScore :=
  [mkRow 1 (Some 100) "A" "a" (10 : @score ZScore);
   mkRow 1 (Some 100) "B" "b" (10 : @score ZScore);
   mkRow 1 (Some 100) "C" "c" (20 : @score ZScore);
   mkRow 1 (Some 100) "D" "d" (20 : @score ZScore)].

(** A team whose score of round 1 is missing (NaN) and whose score of
    round 2 is 5. *)
Definition nan_then_five : @ledger NScore :=
  [mkRow 1 (Some 100) "A" "a" (None : @score NScore);
   mkRow 2 (Some 200) "A" "a" (Some 5 : @score NScore)].

(** A at NaN, 5 and 9 over rounds 1 to 3, B at 20 and NaN over rounds 1
    and 2, C at 7 and 8 over rounds 1 and 2, stored out of order. *)
Definition with_nan : @ledger NScore :=
  [mkRow 2 (Some 200) "B" "b" (None : @score NScore);
   mkRow 3 (Some 300) "A" "a" (Some 9 : @score NScore);
   mkRow 1 (Some 100) "A" "a" (None : @score NScore);
   mkRow 2 (Some 200) "C" "c" (Some 8 : @score NScore);
   mkRow 1 (Some 100) "B" "b" (Some 20 : @score NScore);
   mkRow 2 (Some 200) "A" "a" (Some 5 : @score NScore);
   mkRow 1 (Some 100) "C" "c" (Some 7 : @score NScore)].

(** A site that times out, then is busy, then answers an empty page,
    and answers well from the fourth call on. *)
Definition flaky (call : nat) : get_outcome :=
  match call with
  | 0%nat => GetRaises "ReadTimeout"
  | 1%nat => Response 503 "busy"
  | 2%nat => Response 200 EmptyString
  | _ => Response 200 "<html>"
  end.

(** The two teams of [TARGET_TEAMS], and a third one. *)
Definition snap_targets : @snapshot ZScore :=
  [("pisa pi curt", mkObj "Pisa pi curt" (64 : @score ZScore));
   ("altra squadra", mkObj "Altra Squadra" (80 : @score ZScore));
   ("real forward", mkObj "Real Forward" (70 : @score ZScore))].

End Samples.

(** * Properties *)

Example parse_doc : parse_italian_number "1.234,56" = Some (123456 # 100).
Proof. reflexivity. Qed.
Example parse_plain : parse_italian_number "87,5" = Some (875 # 10).
Proof. reflexivity. Qed.
Example parse_dot : parse_italian_number "1.5" = Some (15 # 1).
Proof. reflexivity. Qed.
Example norm_ex : normalize_name "  Pisa   pi Curt " = "pisa pi curt".
Proof. reflexivity. Qed.

(** ** Sorting and grouping *)

Section Sorting.

Variable A : Type.
Variable le : A -> A -> bool.

Lemma insert_perm (x : A) (l : list A) : Permutation (insert le x l) (x :: l).
Proof.
  induction l as [|y l IH]; simpl; [reflexivity|].
  destruct (le x y); [reflexivity|].
  rewrite IH. apply perm_swap.
Qed.

Lemma stable_sort_perm (l : list A) : Permutation (stable_sort le l) l.
Proof.
  induction l as [|x l IH]; simpl; [reflexivity|].
  rewrite insert_perm. now constructor.
Qed.

Lemma stable_sort_in (l : list A) (x : A) : In x (stable_sort le l) <-> In x l.
Proof.
  split; apply Permutation_in; [|symmetry]; apply stable_sort_perm.
Qed.

Lemma stable_sort_length (l : list A) :
  List.length (stable_sort le l) = List.length l.
Proof. apply Permutation_length, stable_sort_perm. Qed.

Hypothesis le_total : forall a b, le a b = false -> le b a = true.
Hypothesis le_trans : forall a b c, le a b = true -> le b c = true -> le a c = true.

Lemma insert_sorted (x : A) (l : list A) :
  StronglySorted (fun a b => le a b = true) l -> StronglySorted (fun a b => le a b = true) (insert le x l).
Proof.
  induction 1 as [|y l Hs IH Hy]; simpl.
  - repeat constructor.
  - destruct (le x y) eqn:E.
    + constructor; [now constructor|].
      constructor; [exact E|].
      eapply Forall_impl; [|exact Hy]. intros z Hz. now apply le_trans with y.
    + constructor; [exact IH|].
      eapply Permutation_Forall; [symmetry; apply insert_perm|].
      constructor; [now apply le_total | exact Hy].
Qed.

Lemma stable_sort_sorted (l : list A) : StronglySorted (fun a b => le a b = true) (stable_sort le l).
Proof.
  induction l as [|x l IH]; simpl; [constructor | now apply insert_sorted].
Qed.

(** Filtering commutes with the stable sort. *)
Lemma filter_insert (p : A -> bool) (x : A) (l : list A) :
  StronglySorted (fun a b => le a b = true) l ->
  filter p (insert le x l)
  = if p x then insert le x (filter p l) else filter p l.
Proof.
  induction 1 as [|y l Hs IH Hy]; simpl.
  - now destruct (p x).
  - destruct (le x y) eqn:E; simpl.
    + destruct (p x) eqn:Px; [|reflexivity].
      destruct (p y) eqn:Py; simpl; [now rewrite E|].
      f_equal.
      assert (Hall : Forall (fun z => le x z = true) (filter p l)).
      { rewrite Forall_forall in *. intros z Hz.
        apply filter_In in Hz. apply le_trans with y; [exact E|].
        now apply Hy. }
      destruct (filter p l) as [|z fl]; [reflexivity|].
      simpl. inversion Hall as [|? ? Hz _]; subst. now rewrite Hz.
    + rewrite IH. destruct (p y) eqn:Py; simpl.
      * destruct (p x); [now rewrite E | reflexivity].
      * reflexivity.
Qed.

Lemma filter_stable_sort (p : A -> bool) (l : list A) :
  filter p (stable_sort le l) = stable_sort le (filter p l).
Proof.
  induction l as [|x l IH]; simpl; [reflexivity|].
  rewrite filter_insert by apply stable_sort_sorted.
  rewrite IH. now destruct (p x).
Qed.

End Sorting.

Lemma strongly_sorted_impl (A : Type) (R R' : A -> A -> Prop) (l : list A) :
  (forall a b, R a b -> R' a b) -> StronglySorted R l -> StronglySorted R' l.
Proof.
  intros H. induction 1 as [|a l _ IH Ha]; constructor; auto.
  eapply Forall_impl; [|exact Ha]. apply H.
Qed.

(** Two orders that agree on the rows of a list sort it alike. *)
Lemma insert_ext (A : Type) (le1 le2 : A -> A -> bool) (x : A) (l : list A) :
  (forall y, In y l -> le1 x y = le2 x y) ->
  insert le1 x l = insert le2 x l.
Proof.
  induction l as [|y l IH]; intros H; simpl; [reflexivity|].
  rewrite (H y) by now left.
  destruct (le2 x y); [reflexivity|].
  f_equal. apply IH. intros z Hz. apply H. now right.
Qed.

Lemma stable_sort_ext (A : Type) (le1 le2 : A -> A -> bool) (l : list A) :
  (forall x y, In x l -> In y l -> le1 x y = le2 x y) ->
  stable_sort le1 l = stable_sort le2 l.
Proof.
  induction l as [|x l IH]; intros H; simpl; [reflexivity|].
  rewrite IH by (intros; apply H; now right).
  apply insert_ext. intros y Hy. apply H; [now left|].
  right. now apply (stable_sort_in le2).
Qed.

(** ** The reconciler *)

Section Reconciler.

Context {Sc : Score}.

Lemma in_index_iff (df : ledger) (k : string) :
  in_index df k = true <-> exists r, In r df /\ squadra_norm r = k.
Proof.
  unfold in_index, same_norm. rewrite existsb_exists.
  split; intros [r [Hr Hk]]; exists r; split; auto.
  - now apply String.eqb_eq.
  - now apply String.eqb_eq.
Qed.

Lemma in_index_perm (df df' : ledger) (k : string) :
  Permutation df df' -> in_index df k = in_index df' k.
Proof.
  intros HP. apply eq_true_iff_eq. rewrite !in_index_iff.
  split; intros [r [Hr Hk]]; exists r; split; auto.
  - now apply (Permutation_in _ HP).
  - now apply (Permutation_in _ (Permutation_sym HP)).
Qed.

Lemma groupby_tail1_incl (df : ledger) (r : row) :
  In r (groupby_tail1 df) -> In r df.
Proof.
  induction df as [|x df IH]; simpl; [tauto|].
  destruct (existsb _ df); simpl; intuition.
Qed.

Lemma groupby_tail1_index (df : ledger) (k : string) :
  in_index (groupby_tail1 df) k = in_index df k.
Proof.
  induction df as [|x df IH]; [reflexivity|].
  change (in_index (x :: df) k) with (same_norm k x || in_index df k).
  change (groupby_tail1 (x :: df))
    with (if in_index df (squadra_norm x) then groupby_tail1 df
          else x :: groupby_tail1 df).
  destruct (in_index df (squadra_norm x)) eqn:E.
  - rewrite IH. destruct (same_norm k x) eqn:Ek; [|reflexivity].
    apply String.eqb_eq in Ek. subst k. now rewrite E.
  - change (in_index (x :: groupby_tail1 df) k)
      with (same_norm k x || in_index (groupby_tail1 df) k).
    now rewrite IH.
Qed.

Lemma in_index_df_last (df : ledger) (k : string) :
  in_index (df_last df) k = in_index df k.
Proof.
  unfold df_last, sort_norm_giornata. rewrite groupby_tail1_index.
  apply in_index_perm, stable_sort_perm.
Qed.

Lemma loc_punteggio_some (df : ledger) (k : string) :
  in_index df k = true -> exists p, loc_punteggio df k = Some p.
Proof.
  unfold in_index, loc_punteggio. intros H.
  destruct (find (same_norm k) df) as [r|] eqn:F.
  - now exists (punteggio_totale r).
  - apply existsb_exists in H. destruct H as [r [Hr Hk]].
    now rewrite (find_none _ _ F r Hr) in Hk.
Qed.

(** The classification never raises; the new teams are the keys of the
    snapshot missing from the index, the changed ones are keys found in
    it. *)
Lemma classify_total (dl : ledger) (items : snapshot) :
  exists changed unchanged,
    classify dl items = Some (changed, unchanged, new_of dl items)
    /\ incl changed (map fst items)
    /\ incl unchanged (map fst items)
    /\ (forall k, In k changed -> in_index dl k = true)
    /\ (NoDup (map fst items) -> NoDup changed).
Proof.
  unfold new_of.
  induction items as [|[norm obj] items IH]; simpl.
  - exists [], []. repeat split; auto using incl_nil_l, NoDup_nil.
  - destruct IH as (c & u & Hc & Hic & Hiu & Hin & Hnd). rewrite Hc.
    destruct (in_index dl norm) eqn:E; simpl.
    + destruct (loc_punteggio_some _ _ E) as [p ->]. simpl.
      destruct (score_gtb _ _).
      * exists (norm :: c), u. repeat split.
        -- apply incl_cons; [now left | now apply incl_tl].
        -- now apply incl_tl.
        -- intros k [<-|Hk]; auto.
        -- intros HN. inversion HN; subst. constructor; auto.
      * exists c, (norm :: u). repeat split.
        -- now apply incl_tl.
        -- apply incl_cons; [now left | now apply incl_tl].
        -- exact Hin.
        -- intros HN. inversion HN; subst. auto.
    + exists c, u. repeat split.
      * now apply incl_tl.
      * now apply incl_tl.
      * exact Hin.
      * intros HN. inversion HN; subst. auto.
Qed.

Lemma new_of_in (dl : ledger) (items : snapshot) (k : string) :
  In k (new_of dl items) <-> In k (map fst items) /\ in_index dl k = false.
Proof.
  unfold new_of. rewrite !in_map_iff. split.
  - intros [it [<- Hit]]. apply filter_In in Hit. destruct Hit as [Hit Hb].
    split; [now exists it | now apply negb_true_iff].
  - intros [[it [<- Hit]] Hb]. exists it. split; [reflexivity|].
    apply filter_In. split; [exact Hit | now apply negb_true_iff].
Qed.

Lemma new_of_nodup (dl : ledger) (items : snapshot) :
  NoDup (map fst items) -> NoDup (new_of dl items).
Proof.
  unfold new_of. induction items as [|it items IH]; simpl; intros HN.
  - constructor.
  - inversion HN as [|? ? Hnot HN']; subst.
    destruct (negb _); simpl; auto.
    constructor; auto. intros Hin. apply Hnot.
    apply in_map_iff in Hin. destruct Hin as [it' [<- Hit']].
    apply filter_In in Hit'. apply in_map. tauto.
Qed.

Lemma dict_get_some (V : Type) (d : dict V) (k : string) :
  In k (map fst d) -> exists v, dict_get d k = Some v.
Proof.
  induction d as [|[k' v'] d IH]; simpl; [tauto|].
  intros [->|H].
  - rewrite String.eqb_refl. now exists v'.
  - destruct (String.eqb k' k); [now exists v' | auto].
Qed.

Lemma rows_for_total (cs : snapshot) (g dt : Z) (norms : list string) :
  incl norms (map fst cs) ->
  exists rows,
    rows_for cs g dt norms = Some rows
    /\ rows = flat_map (row_for cs g dt) norms
    /\ map squadra_norm rows = norms
    /\ Forall (fun r => giornata r = g) rows.
Proof.
  induction norms as [|k norms IH]; simpl; intros Hincl.
  - exists []. repeat split; constructor.
  - destruct IH as (rows & -> & Hflat & Hmap & Hall).
    { intros x Hx. apply Hincl. now right. }
    destruct (dict_get_some cs k) as [obj Hobj].
    { apply Hincl. now left. }
    unfold row_for. rewrite Hobj. simpl.
    eexists. split; [reflexivity|]. simpl. repeat split.
    + f_equal. exact Hflat.
    + now rewrite Hmap.
    + constructor; auto.
Qed.

Lemma fold_max_spec (l : list Z) (a : Z) :
  let m := fold_left Z.max l a in
  a <= m /\ Forall (fun x => x <= m) l /\ (m = a \/ In m l).
Proof.
  revert a. induction l as [|x l IH]; intros a; simpl.
  - repeat split; auto; lia.
  - specialize (IH (Z.max a x)). simpl in IH.
    destruct IH as (H1 & H2 & H3). repeat split.
    + lia.
    + constructor; [lia | exact H2].
    + destruct H3 as [H3|H3]; [|auto].
      rewrite H3. destruct (Z.max_spec a x) as [[_ ->]|[_ ->]]; auto.
Qed.

Lemma giornata_max_spec (df : ledger) :
  df <> [] -> exists m, giornata_max df = Some m /\ is_max_round df m.
Proof.
  destruct df as [|r df]; [congruence|]. intros _. simpl.
  eexists. split; [reflexivity|].
  destruct (fold_max_spec (map giornata df) (giornata r)) as (H1 & H2 & H3).
  split.
  - constructor; [exact H1|].
    rewrite Forall_map in H2. exact H2.
  - destruct H3 as [H3|H3].
    + left. now rewrite H3.
    + right. apply in_map_iff in H3. destruct H3 as [x [Hx Hin]].
      apply Exists_exists. exists x. split; auto.
Qed.

Lemma is_max_round_unique (df : ledger) (m m' : Z) :
  is_max_round df m -> is_max_round df m' -> m = m'.
Proof.
  intros [H1 H2] [H1' H2']. rewrite Forall_forall in H1, H1'.
  apply Exists_exists in H2, H2'.
  destruct H2 as [r [Hr Hm]], H2' as [r' [Hr' Hm']].
  specialize (H1 r' Hr'). specialize (H1' r Hr). lia.
Qed.

(** The shape of every run on a ledger that is not empty: nothing
    raises, and the answer is one of the three returns. *)
Lemma update_with_nonempty (df : ledger) (cs : snapshot) (run_dt : Z) :
  df <> [] ->
  exists m changed unchanged,
    is_max_round df m
    /\ classify (df_last df) cs
       = Some (changed, unchanged, new_of (df_last df) cs)
    /\ incl changed (map fst cs)
    /\ (forall k, In k changed -> in_index df k = true)
    /\ (NoDup (map fst cs) -> NoDup changed)
    /\ let new_teams := new_of (df_last df) cs in
       let prev_dt := compute_prev_giornata_date df m run_dt in
       let rows_changed := flat_map (row_for cs (m + 1) run_dt) changed in
       let rows_new := flat_map (row_for cs m prev_dt) new_teams in
       map squadra_norm rows_changed = changed
       /\ map squadra_norm rows_new = new_teams
       /\ Forall (fun r => giornata r = m + 1) rows_changed
       /\ Forall (fun r => giornata r = m) rows_new
       /\ forall guard : ledger -> ledger -> ledger,
          update_with guard df cs run_dt
          = if negb (is_empty changed) then
              Some (concat_or_copy df (guard df (rows_changed ++ rows_new)),
                    Some (m + 1),
                    mkStats (List.length changed) (List.length new_teams)
                            (List.length unchanged) 0)
            else if negb (is_empty new_teams) then
              Some (concat_or_copy df (guard df rows_new), None,
                    mkStats 0 (List.length new_teams)
                            (List.length unchanged) 0)
            else Some (df, None, mkStats 0 0 (List.length unchanged) 1).
Proof.
  intros Hne.
  destruct (giornata_max_spec Hne) as (m & Hm & Hmax).
  destruct (classify_total (df_last df) cs)
    as (c & u & Hc & Hic & _ & Hin & Hnd).
  exists m, c, u. split; [exact Hmax|]. split; [exact Hc|].
  split; [exact Hic|]. split.
  { intros k Hk. rewrite <- in_index_df_last. auto. }
  split; [exact Hnd|]. cbv zeta.
  destruct (rows_for_total cs (m + 1) run_dt Hic) as (rc & Hrc & Erc & Mrc & Frc).
  destruct (rows_for_total cs m (compute_prev_giornata_date df m run_dt)
              (norms := new_of (df_last df) cs))
    as (rn & Hrn & Ern & Mrn & Frn).
  { intros k Hk. now apply new_of_in in Hk. }
  subst rc rn. repeat split; auto.
  intros guard. unfold update_with.
  destruct df as [|r0 df0]; [congruence|].
  cbn [is_empty]. cbv zeta. rewrite Hm. cbn [bind]. rewrite Hc. cbn [bind].
  rewrite Hrc, Hrn. cbn [bind].
  destruct (negb (is_empty c)); [reflexivity|].
  destruct (negb (is_empty _)); reflexivity.
Qed.

Lemma max_date_acc (cells : list (option Z)) (acc : option Z) :
  let step := fun (acc c : option Z) =>
                match acc, c with
                | Some a, Some t => Some (Z.max a t)
                | None, _ => c
                | _, None => acc
                end in
  match fold_left step cells acc with
  | None => acc = None /\ Forall (fun c => c = None) cells
  | Some m =>
      (acc = Some m \/ In (Some m) cells)
      /\ (forall a, acc = Some a -> a <= m)
      /\ (forall t, In (Some t) cells -> t <= m)
  end.
Proof.
  revert acc. induction cells as [|c cells IH]; intros acc; simpl.
  - destruct acc as [a|]; [|auto].
    repeat split; auto.
    + intros a' [= ->]. lia.
    + intros t [].
  - specialize (IH (match acc, c with
                    | Some a, Some t => Some (Z.max a t)
                    | None, _ => c
                    | _, None => acc
                    end)).
    simpl in IH.
    destruct (fold_left _ cells _) as [m|].
    + destruct IH as (H1 & H2 & H3). repeat split.
      * destruct H1 as [H1|H1]; [|auto].
        destruct acc as [a|], c as [t|]; try discriminate; auto.
        injection H1 as <-.
        destruct (Z.max_spec a t) as [[_ ->]|[_ ->]]; auto.
      * intros a ->. destruct c as [t|].
        -- specialize (H2 _ eq_refl). lia.
        -- now apply H2.
      * intros t [->|Ht]; [|auto].
        destruct acc as [a|].
        -- specialize (H2 _ eq_refl). lia.
        -- now apply H2.
    + destruct IH as (H1 & H2).
      destruct acc as [a|], c as [t|]; try discriminate; auto.
  Qed.

Lemma compute_prev_giornata_date_spec (df : ledger) (g fallback_dt : Z) :
  let dt := compute_prev_giornata_date df g fallback_dt in
  latest_recorded df g dt \/ (none_recorded df g /\ dt = fallback_dt).
Proof.
  unfold compute_prev_giornata_date, max_date. cbv zeta.
  pose proof (max_date_acc
                (map data_download (filter (fun r => giornata r =? g) df))
                None) as H.
  cbv zeta in H.
  destruct (fold_left _ _ None) as [m|].
  - left. destruct H as (H1 & _ & H3).
    destruct H1 as [H1|H1]; [discriminate|]. split.
    + apply in_map_iff in H1. destruct H1 as [r [Hr Hin]].
      apply filter_In in Hin. destruct Hin as [Hin Hg].
      exists r. repeat split; auto. now apply Z.eqb_eq.
    + intros r t' Hin Hg Ht. apply H3. rewrite <- Ht.
      apply in_map, filter_In. split; auto. now apply Z.eqb_eq.
  - right. destruct H as [_ H]. split; [|reflexivity].
    intros r Hin Hg. rewrite Forall_forall in H. apply H.
    apply in_map, filter_In. split; auto. now apply Z.eqb_eq.
Qed.

(** No row of the ledger carries a pair of the rows to add. *)
Lemma drop_existing_id (df df_new : ledger) :
  (forall r r', In r df_new -> In r' df -> row_key r <> row_key r') ->
  drop_existing df df_new = df_new.
Proof.
  intros H. unfold drop_existing.
  destruct (is_empty df_new); [reflexivity|].
  apply forallb_filter_id, forallb_forall. intros r Hr.
  apply negb_true_iff. destruct (existsb _ _) eqn:E; [|reflexivity].
  apply existsb_exists in E. destruct E as [k [Hk Hkey]].
  apply in_map_iff in Hk. destruct Hk as [r' [<- Hr']].
  exfalso. apply (H r r' Hr Hr').
  unfold key_eqb in Hkey. apply andb_true_iff in Hkey.
  destruct Hkey as [H1 H2]. apply Z.eqb_eq in H1. apply String.eqb_eq in H2.
  destruct (row_key r), (row_key r'). simpl in *. congruence.
Qed.

Lemma candidates_fresh (df : ledger) (m : Z) (rows_changed rows_new : ledger) :
  is_max_round df m ->
  Forall (fun r => giornata r = m + 1) rows_changed ->
  (forall r, In r rows_new -> in_index df (squadra_norm r) = false) ->
  forall r r', In r (rows_changed ++ rows_new) -> In r' df ->
               row_key r <> row_key r'.
Proof.
  intros [Hmax _] Hc Hn r r' Hr Hr' Hkey.
  unfold row_key in Hkey. injection Hkey as Hg Hk.
  apply in_app_or in Hr. destruct Hr as [Hr|Hr].
  - rewrite Forall_forall in Hc, Hmax.
    specialize (Hc r Hr). specialize (Hmax r' Hr'). simpl in *. lia.
  - specialize (Hn r Hr).
    assert (in_index df (squadra_norm r) = true); [|congruence].
    apply in_index_iff. now exists r'.
Qed.

Lemma concat_or_copy_app (df df_new : ledger) :
  concat_or_copy df df_new = df ++ df_new.
Proof.
  unfold concat_or_copy. destruct df_new; simpl; [now rewrite app_nil_r | reflexivity].
Qed.

Lemma new_rows_absent (df dl : ledger) (cs : snapshot) (g dt : Z) :
  (forall k, in_index dl k = in_index df k) ->
  map squadra_norm (flat_map (row_for cs g dt) (new_of dl cs)) = new_of dl cs ->
  forall r, In r (flat_map (row_for cs g dt) (new_of dl cs)) ->
            in_index df (squadra_norm r) = false.
Proof.
  intros Hidx Hmap r Hr.
  assert (Hk : In (squadra_norm r) (new_of dl cs)).
  { rewrite <- Hmap. now apply in_map. }
  apply new_of_in in Hk. rewrite <- Hidx. tauto.
Qed.

End Reconciler.

(** ** Claims on the reconciler *)

Section ReconcilerClaims.

Context {Sc : Score}.

Ltac run_nonempty df cs run_dt Hne :=
  let m := fresh "m" in
  let c := fresh "changed" in
  let u := fresh "unchanged" in
  destruct (update_with_nonempty cs run_dt Hne)
    as (m & c & u & Hmax & Hcl & Hincl & Hpresent & Hnodup
        & Mc & Mn & Fc & Fn & Hrun);
  cbv zeta in Mc, Mn, Fc, Fn, Hrun.

(** C1. The round returned, when there is one, is the largest round of
    the ledger plus 1, and it is 1 on an empty ledger; the call never
    raises. *)
Theorem new_round_is_next (df : ledger) (cs : snapshot) (run_dt : Z) :
  exists df' new_round st,
    update_storico df cs run_dt = Some (df', new_round, st)
    /\ (df = [] -> new_round = Some 1)
    /\ (forall n m, new_round = Some n -> is_max_round df m -> n = m + 1).
Proof.
  destruct df as [|r0 df0] eqn:Edf.
  - eexists _, _, _. split; [reflexivity|]. split; [reflexivity|].
    intros n m _ [_ H]. inversion H.
  - assert (Hne : df <> []) by (subst; discriminate). rewrite <- Edf.
    run_nonempty df cs run_dt Hne. unfold update_storico. rewrite Hrun.
    destruct (negb (is_empty changed)); [|destruct (negb (is_empty _))];
      eexists _, _, _; (split; [reflexivity|]);
      (split; [intros ->; discriminate|]); intros n m' Hn Hm'; try discriminate.
    injection Hn as <-. f_equal. eapply is_max_round_unique; eauto.
Qed.

(** C4. Every row of the ledger given is in the ledger returned, in its
    place and as it was: the ledger returned is the one given followed
    by the rows added. *)
Theorem ledger_append_only (df : ledger) (cs : snapshot) (run_dt : Z) :
  exists added new_round st,
    update_storico df cs run_dt = Some (df ++ added, new_round, st).
Proof.
  destruct df as [|r0 df0] eqn:Edf.
  - eexists _, _, _. reflexivity.
  - assert (Hne : df <> []) by (subst; discriminate). rewrite <- Edf.
    run_nonempty df cs run_dt Hne. unfold update_storico. rewrite Hrun.
    destruct (negb (is_empty changed)); [|destruct (negb (is_empty _))].
    + rewrite concat_or_copy_app. eexists _, _, _. reflexivity.
    + rewrite concat_or_copy_app. eexists _, _, _. reflexivity.
    + exists [], None. rewrite app_nil_r. eexists. reflexivity.
Qed.

(** The guard keeps every row it is given, and the two reconcilers
    agree. *)
Lemma guard_is_identity (df : ledger) (cs : snapshot) (run_dt : Z) :
  df <> [] ->
  update_storico df cs run_dt = update_storico_unguarded df cs run_dt
  /\ exists candidates new_round st,
       update_storico_unguarded df cs run_dt
       = Some (df ++ candidates, new_round, st)
       /\ drop_existing df candidates = candidates
       /\ forall r r', In r candidates -> In r' df -> row_key r <> row_key r'.
Proof.
  intros Hne. run_nonempty df cs run_dt Hne.
  unfold update_storico, update_storico_unguarded. rewrite !Hrun.
  set (rc := flat_map (row_for cs (m + 1) run_dt) changed) in *.
  set (rn := flat_map _ (new_of (df_last df) cs)) in *.
  assert (Hn : forall r, In r rn -> in_index df (squadra_norm r) = false).
  { apply new_rows_absent with (dl := df_last df);
      [apply in_index_df_last | exact Mn]. }
  assert (Hfresh : forall r r', In r (rc ++ rn) -> In r' df ->
                                row_key r <> row_key r').
  { now apply candidates_fresh with m. }
  assert (Hfresh' : forall r r', In r rn -> In r' df -> row_key r <> row_key r').
  { intros r r' Hr. apply Hfresh, in_or_app. now right. }
  rewrite (drop_existing_id _ _ Hfresh), (drop_existing_id _ _ Hfresh').
  split; [reflexivity|].
  destruct (negb (is_empty changed));
    [|destruct (negb (is_empty (new_of _ _)))].
  - exists (rc ++ rn). eexists _, _. rewrite concat_or_copy_app.
    split; [reflexivity|]. split; [now apply drop_existing_id | exact Hfresh].
  - exists rn. eexists _, _. rewrite concat_or_copy_app.
    split; [reflexivity|]. split; [now apply drop_existing_id | exact Hfresh'].
  - exists []. eexists _, _. rewrite app_nil_r.
    split; [reflexivity|]. split; [reflexivity|]. intros r r' [].
Qed.

(** C10. On a ledger that is not empty the guard against pairs already
    stored drops none of the rows to add: the rows of changed teams are
    in a round above every round of the ledger, those of new teams
    carry a name the ledger does not have.  The reconciler is thus equal
    to the one without the guard. *)
Theorem guard_removes_nothing (df : ledger) (cs : snapshot) (run_dt : Z) :
  df <> [] ->
  update_storico df cs run_dt = update_storico_unguarded df cs run_dt
  /\ exists candidates new_round st,
       update_storico_unguarded df cs run_dt
       = Some (df ++ candidates, new_round, st)
       /\ drop_existing df candidates = candidates
       /\ forall r r', In r candidates -> In r' df -> row_key r <> row_key r'.
Proof. exact (@guard_is_identity df cs run_dt). Qed.

Lemma nodup_pair (g : Z) (l : list string) :
  NoDup l -> NoDup (map (pair g) l).
Proof.
  induction 1 as [|x l Hx _ IH]; simpl; constructor; auto.
  intros H. apply in_map_iff in H. destruct H as [y [[= ->] Hy]]. auto.
Qed.

Lemma row_key_map (g : Z) (rows : ledger) :
  Forall (fun r => giornata r = g) rows ->
  map row_key rows = map (pair g) (map squadra_norm rows).
Proof.
  induction 1 as [|r rows Hr _ IH]; simpl; [reflexivity|].
  unfold row_key at 1. now rewrite Hr, IH.
Qed.

Lemma nodup_append (A : Type) (l1 l2 : list A) :
  NoDup l1 -> NoDup l2 -> (forall x, In x l1 -> In x l2 -> False) ->
  NoDup (l1 ++ l2).
Proof.
  induction 1 as [|x l1 Hx _ IH]; simpl; intros H2 Hd; [exact H2|].
  constructor.
  - intros H. apply in_app_or in H. destruct H as [H|H]; [auto|].
    apply (Hd x); auto.
  - apply IH; auto. intros y Hy. apply Hd. now right.
Qed.

(** C2. A ledger without two rows of one (giornata, squadra_norm) pair
    is turned into a ledger without two such rows. *)
Theorem no_duplicate_keys_preserved (df : ledger) (cs : snapshot) (run_dt : Z) :
  NoDup (map row_key df) ->
  dict_wf cs ->
  exists df' new_round st,
    update_storico df cs run_dt = Some (df', new_round, st)
    /\ NoDup (map row_key df').
Proof.
  intros Hdf Hcs. unfold dict_wf in Hcs.
  destruct df as [|r0 df0] eqn:Edf.
  - eexists _, _, _. split; [reflexivity|].
    unfold first_rows. rewrite map_map. unfold row_key. simpl.
    rewrite <- (map_map fst (pair 1)). now apply nodup_pair.
  - assert (Hne : df <> []) by (subst; discriminate). rewrite <- Edf in *.
    destruct (guard_is_identity cs run_dt Hne)
      as (-> & _).
    run_nonempty df cs run_dt Hne.
    unfold update_storico_unguarded. rewrite Hrun.
    set (rc := flat_map (row_for cs (m + 1) run_dt) changed) in *.
    set (rn := flat_map _ (new_of (df_last df) cs)) in *.
    assert (Hn : forall r, In r rn -> in_index df (squadra_norm r) = false).
    { apply new_rows_absent with (dl := df_last df);
        [apply in_index_df_last | exact Mn]. }
    assert (Hfresh : forall r r', In r (rc ++ rn) -> In r' df ->
                                  row_key r <> row_key r').
    { now apply candidates_fresh with m. }
    assert (Kc : NoDup (map row_key rc)).
    { rewrite (row_key_map Fc), Mc. auto using nodup_pair. }
    assert (Kn : NoDup (map row_key rn)).
    { rewrite (row_key_map Fn), Mn. auto using nodup_pair, new_of_nodup. }
    assert (Kcn : NoDup (map row_key (rc ++ rn))).
    { rewrite map_app. apply nodup_append; auto.
      rewrite (row_key_map Fc), (row_key_map Fn). intros [g k] H1 H2.
      apply in_map_iff in H1, H2.
      destruct H1 as [? [[= <- _] _]], H2 as [? [[= E _] _]]. lia. }
    assert (Hadd : forall cand,
               NoDup (map row_key cand) ->
               (forall r r', In r cand -> In r' df -> row_key r <> row_key r') ->
               NoDup (map row_key (concat_or_copy df cand))).
    { intros cand Hc Hf. rewrite concat_or_copy_app, map_app.
      apply nodup_append; auto. intros key H1 H2.
      apply in_map_iff in H1, H2.
      destruct H1 as [r' [E1 H1]], H2 as [r [E2 H2]].
      apply (Hf r r' H2 H1). congruence. }
    destruct (negb (is_empty changed));
      [|destruct (negb (is_empty (new_of _ _)))];
      eexists _, _, _; (split; [reflexivity|]); auto.
    apply Hadd; auto. intros r r' Hr. apply Hfresh, in_or_app. now right.
Qed.

Lemma dict_get_in (V : Type) (d : dict V) (k : string) (v : V) :
  dict_get d k = Some v -> In k (map fst d).
Proof.
  induction d as [|[k' v'] d IH]; simpl; [discriminate|].
  destruct (String.eqb_spec k' k); auto.
Qed.

(** C3. When a run on a ledger that is not empty opens a round, every
    team of the snapshot whose name the ledger does not have is added
    in the round that was the largest, with its present score, and with
    the latest time recorded in that round, or the time of the run if
    that round has no time recorded. *)
Theorem backfill_previous_round (df df' : ledger) (cs : snapshot)
    (run_dt n : Z) (st : stats) :
  df <> [] ->
  update_storico df cs run_dt = Some (df', Some n, st) ->
  exists m added,
    is_max_round df m /\ n = m + 1 /\ df' = df ++ added
    /\ forall k obj,
         dict_get cs k = Some obj ->
         (forall r, In r df -> squadra_norm r <> k) ->
         exists dt,
           In (mkRow m (Some dt) (obj_Squadra obj) k (obj_Punti obj)) added
           /\ (latest_recorded df m dt
               \/ (none_recorded df m /\ dt = run_dt)).
Proof.
  intros Hne Hret.
  destruct (guard_is_identity cs run_dt Hne) as (Heq & _).
  rewrite Heq in Hret. clear Heq.
  run_nonempty df cs run_dt Hne.
  unfold update_storico_unguarded in Hret. rewrite Hrun in Hret.
  destruct (negb (is_empty changed));
    [|destruct (negb (is_empty (new_of _ _))); discriminate].
  rewrite concat_or_copy_app in Hret. injection Hret as <- <- <-.
  exists m. eexists. split; [exact Hmax|]. split; [reflexivity|].
  split; [reflexivity|]. intros k obj Hget Habs.
  exists (compute_prev_giornata_date df m run_dt). split.
  - apply in_or_app. right. apply in_flat_map. exists k. split.
    + apply new_of_in. split; [eapply dict_get_in; eauto|].
      rewrite in_index_df_last.
      destruct (in_index df k) eqn:E; [|reflexivity].
      apply in_index_iff in E. destruct E as [r [Hr Hk]].
      now destruct (Habs r Hr).
    + unfold row_for. rewrite Hget. now left.
  - apply compute_prev_giornata_date_spec.
Qed.

(** C5, amended. On an empty snapshot the ledger comes back as it was
    and the three counts are zero; the flag [no_change] is 1 when the
    ledger has rows (and round 1 is announced when it has none). *)
Theorem empty_snapshot_unchanged (df : ledger) (run_dt : Z) :
  exists new_round st,
    update_storico df [] run_dt = Some (df, new_round, st)
    /\ added_changed st = 0%nat
    /\ added_new_prev st = 0%nat
    /\ skipped_unchanged st = 0%nat
    /\ no_change st = (if is_empty df then 0%nat else 1%nat)
    /\ new_round = (if is_empty df then Some 1 else None).
Proof.
  destruct df as [|r0 df0].
  - eexists _, _. split; [reflexivity|]. repeat split.
  - unfold update_storico, update_with. cbn [is_empty].
    destruct (giornata_max_spec (df := r0 :: df0)) as (m & -> & _);
      [discriminate|].
    cbn. eexists _, _. split; [reflexivity|]. repeat split.
Qed.

End ReconcilerClaims.

(** ** The reconciler on the sample data *)

Example scenario_round2 :
  update_storico Samples.round1 Samples.snap_abc 200
  = Some (Samples.round1_after, Some 2, mkStats 1 1 1 0).
Proof. reflexivity. Qed.

Ltac nodup_by_cases :=
  repeat (constructor; [simpl; intuition discriminate|]); constructor.

Lemma no_duplicate_keys_witness :
  exists df' new_round st,
    update_storico Samples.round1 Samples.snap_abc 200
    = Some (df', new_round, st)
    /\ NoDup (map row_key df').
Proof.
  apply no_duplicate_keys_preserved.
  - unfold Samples.round1. simpl. nodup_by_cases.
  - unfold dict_wf, Samples.snap_abc. simpl. nodup_by_cases.
Defined.

Lemma backfill_previous_round_witness :
  exists m added,
    is_max_round Samples.round1 m /\ 2 = m + 1
    /\ Samples.round1_after = Samples.round1 ++ added
    /\ forall k obj,
         dict_get Samples.snap_abc k = Some obj ->
         (forall r, In r Samples.round1 -> squadra_norm r <> k) ->
         exists dt,
           In (mkRow m (Some dt) (obj_Squadra obj) k (obj_Punti obj)) added
           /\ (latest_recorded Samples.round1 m dt
               \/ (none_recorded Samples.round1 m /\ dt = 200)).
Proof.
  apply (@backfill_previous_round ZScore Samples.round1 Samples.round1_after
           Samples.snap_abc 200 2 (mkStats 1 1 1 0)).
  - discriminate.
  - reflexivity.
Defined.

Lemma guard_removes_nothing_witness :
  update_storico Samples.round1 Samples.snap_abc 200
  = update_storico_unguarded Samples.round1 Samples.snap_abc 200
  /\ exists candidates new_round st,
       update_storico_unguarded Samples.round1 Samples.snap_abc 200
       = Some (Samples.round1 ++ candidates, new_round, st)
       /\ drop_existing Samples.round1 candidates = candidates
       /\ forall r r', In r candidates -> In r' Samples.round1 ->
                       row_key r <> row_key r'.
Proof.
  apply (@guard_removes_nothing ZScore Samples.round1 Samples.snap_abc 200).
  discriminate.
Defined.

(** C5 as it is stated fails on a ledger with rows: the flag
    [no_change] comes back as 1. *)
Lemma empty_snapshot_not_all_zero :
  ~ exists new_round st,
      update_storico Samples.round1 [] 200
      = Some (Samples.round1, new_round, st)
      /\ all_zero st.
Proof.
  intros (nr & st & Hrun & _ & _ & _ & Hflag).
  vm_compute in Hrun. injection Hrun as _ <-. discriminate.
Qed.

(** ** The snapshot reducer *)

#[export] Instance ZScoreOrder : ScoreOrder ZScore.
Proof.
  split; simpl.
  - intros a. rewrite Z.gtb_ltb. apply Z.ltb_irrefl.
  - intros a b c. rewrite !Z.gtb_ltb, !Z.ltb_lt. lia.
  - intros a b. rewrite !Z.gtb_ltb, !Z.ltb_ge. lia.
Qed.

Section Dict.

Variable V : Type.

Lemma dict_get_set (d : dict V) (k k' : string) (v : V) :
  dict_get (dict_set d k v) k'
  = if String.eqb k k' then Some v else dict_get d k'.
Proof.
  induction d as [|[k0 v0] d IH]; simpl.
  - reflexivity.
  - destruct (String.eqb_spec k0 k) as [->|Hk]; simpl.
    + now destruct (String.eqb k k').
    + rewrite IH. destruct (String.eqb_spec k0 k') as [->|Hk'].
      * destruct (String.eqb_spec k k'); [congruence | reflexivity].
      * reflexivity.
Qed.

End Dict.

Section Reducer.

Context {Sc : Score} {So : ScoreOrder Sc}.

Lemma collect_snoc (l : list raw_row) (r : raw_row) :
  collect_current_scores (l ++ [r])
  = collect_step (collect_current_scores l) r.
Proof. unfold collect_current_scores. now rewrite fold_left_app. Qed.

Lemma collect_best (l : list raw_row) (k : string) :
  best_for l k (dict_get (collect_current_scores l) k).
Proof.
  induction l as [|r l IH] using rev_ind.
  - simpl. intros r [].
  - rewrite collect_snoc. unfold collect_step.
    set (kr := normalize_name (raw_Squadra r)).
    set (fresh := mkObj (raw_Squadra r) (raw_Punti r)).
    assert (Hother : kr <> k ->
                     best_for (l ++ [r]) k
                              (dict_get (collect_current_scores l) k)).
    { intros Hk. destruct (dict_get (collect_current_scores l) k) as [o|];
        simpl in *.
      - destruct IH as [(r' & Hr' & H1) H2]. split.
        + exists r'. split; [apply in_or_app; now left | exact H1].
        + intros x Hx Hxk. apply in_app_or in Hx.
          destruct Hx as [Hx|[<-|[]]]; [auto | now destruct Hk].
      - intros x Hx. apply in_app_or in Hx.
        destruct Hx as [Hx|[<-|[]]]; [auto | exact Hk]. }
    assert (Hfresh : (forall x, In x l -> normalize_name (raw_Squadra x) = kr ->
                                score_gtb (raw_Punti x) (raw_Punti r) = false) ->
                     best_for (l ++ [r]) kr (Some fresh)).
    { intros Hmax. split.
      - exists r. repeat split. apply in_or_app. right. now left.
      - intros x Hx Hxk. apply in_app_or in Hx.
        destruct Hx as [Hx|[<-|[]]]; [now apply Hmax | apply gtb_irrefl]. }
    destruct (String.eqb_spec kr k) as [Ek|Ek].
    + subst k.
      destruct (dict_get (collect_current_scores l) kr) as [old|] eqn:Eold.
      * destruct (score_gtb (raw_Punti r) (obj_Punti old)) eqn:Egt.
        -- rewrite dict_get_set, String.eqb_refl. apply Hfresh.
           intros x Hx Hxk. destruct IH as [_ H2]. specialize (H2 x Hx Hxk).
           destruct (score_gtb (raw_Punti x) (raw_Punti r)) eqn:E;
             [|reflexivity].
           rewrite (gtb_trans _ _ _ E Egt) in H2. discriminate.
        -- rewrite Eold. destruct IH as [(r' & Hr' & H1) H2]. split.
           ++ exists r'. split; [apply in_or_app; now left | exact H1].
           ++ intros x Hx Hxk. apply in_app_or in Hx.
              destruct Hx as [Hx|[<-|[]]]; [auto | exact Egt].
      * rewrite dict_get_set, String.eqb_refl. apply Hfresh.
        intros x Hx Hxk. now destruct (IH x Hx).
    + assert (Hsame : forall d,
                 dict_get (dict_set (V := team_obj) d kr fresh) k = dict_get d k).
      { intros d. rewrite dict_get_set.
        destruct (String.eqb_spec kr k); [contradiction | reflexivity]. }
      destruct (dict_get (collect_current_scores l) kr) as [old|];
        [destruct (score_gtb _ _)|]; rewrite ?Hsame; auto.
Qed.

(** C6, amended. Two orderings of the same rows give mappings with the
    same keys (a key is in neither mapping when no row has it) and, for
    each key, the same score, which no row with the key is above; the
    name kept for a key is that of a row with this key and this score,
    and it is the same in both mappings when the rows that have the key
    and this score agree on the name. *)
Theorem reduction_order_free (l1 l2 : list raw_row) (k : string) :
  Permutation l1 l2 ->
  match dict_get (collect_current_scores l1) k,
        dict_get (collect_current_scores l2) k with
  | Some o1, Some o2 =>
      obj_Punti o1 = obj_Punti o2
      /\ (forall r, In r l1 -> normalize_name (raw_Squadra r) = k ->
                    score_gtb (raw_Punti r) (obj_Punti o1) = false)
      /\ (exists r, In r l1 /\ normalize_name (raw_Squadra r) = k
                    /\ raw_Squadra r = obj_Squadra o1
                    /\ raw_Punti r = obj_Punti o1)
      /\ (exists r, In r l1 /\ normalize_name (raw_Squadra r) = k
                    /\ raw_Squadra r = obj_Squadra o2
                    /\ raw_Punti r = obj_Punti o2)
      /\ ((forall r r', In r l1 -> In r' l1 ->
                        normalize_name (raw_Squadra r) = k ->
                        normalize_name (raw_Squadra r') = k ->
                        raw_Punti r = obj_Punti o1 ->
                        raw_Punti r' = obj_Punti o1 ->
                        raw_Squadra r = raw_Squadra r') ->
          o1 = o2)
  | None, None => forall r, In r l1 -> normalize_name (raw_Squadra r) <> k
  | _, _ => False
  end.
Proof.
  intros HP.
  pose proof (collect_best l1 k) as H1. pose proof (collect_best l2 k) as H2.
  destruct (dict_get (collect_current_scores l1) k) as [o1|],
           (dict_get (collect_current_scores l2) k) as [o2|]; simpl in *.
  - destruct H1 as [(r1 & Hr1 & Hk1 & Hn1 & Hp1) Hm1].
    destruct H2 as [(r2 & Hr2 & Hk2 & Hn2 & Hp2) Hm2].
    assert (Hr2' : In r2 l1) by (eapply Permutation_in; [symmetry|]; eauto).
    assert (Hr1' : In r1 l2) by (eapply Permutation_in; eauto).
    assert (Hp : obj_Punti o1 = obj_Punti o2).
    { apply gtb_total.
      - rewrite <- Hp1. now apply Hm2.
      - rewrite <- Hp2. now apply Hm1. }
    split; [exact Hp|]. split; [exact Hm1|].
    split; [now exists r1|]. split; [now exists r2|].
    intros Hnames. destruct o1 as [n1 p1], o2 as [n2 p2]. simpl in *.
    f_equal; [|exact Hp]. rewrite <- Hn1, <- Hn2.
    apply Hnames; auto. congruence.
  - destruct H1 as [(r1 & Hr1 & Hk1 & _) _].
    apply (H2 r1); [eapply Permutation_in; eauto | exact Hk1].
  - destruct H2 as [(r2 & Hr2 & Hk2 & _) _].
    apply (H1 r2); [eapply Permutation_in; [symmetry|]; eauto | exact Hk2].
  - exact H1.
Qed.

End Reducer.

Lemma reduction_order_free_witness :
  let l1 := [Samples.seen_upper; Samples.seen_other; Samples.seen_lower] in
  let l2 := [Samples.seen_lower; Samples.seen_upper; Samples.seen_other] in
  let k := "real forward" in
  Permutation l1 l2
  /\ match dict_get (collect_current_scores l1) k,
           dict_get (collect_current_scores l2) k with
     | Some o1, Some o2 =>
         obj_Punti o1 = obj_Punti o2
         /\ (forall r, In r l1 -> normalize_name (raw_Squadra r) = k ->
                       score_gtb (raw_Punti r) (obj_Punti o1) = false)
         /\ (exists r, In r l1 /\ normalize_name (raw_Squadra r) = k
                       /\ raw_Squadra r = obj_Squadra o1
                       /\ raw_Punti r = obj_Punti o1)
         /\ (exists r, In r l1 /\ normalize_name (raw_Squadra r) = k
                       /\ raw_Squadra r = obj_Squadra o2
                       /\ raw_Punti r = obj_Punti o2)
         /\ ((forall r r', In r l1 -> In r' l1 ->
                           normalize_name (raw_Squadra r) = k ->
                           normalize_name (raw_Squadra r') = k ->
                           raw_Punti r = obj_Punti o1 ->
                           raw_Punti r' = obj_Punti o1 ->
                           raw_Squadra r = raw_Squadra r') ->
             o1 = o2)
     | None, None => forall r, In r l1 -> normalize_name (raw_Squadra r) <> k
     | _, _ => False
     end.
Proof.
  intros l1 l2 k.
  assert (HP : Permutation l1 l2).
  { apply Permutation_sym.
    apply (Permutation_cons_app [Samples.seen_upper; Samples.seen_other] []).
    apply Permutation_refl. }
  split; [exact HP|].
  exact (@reduction_order_free ZScore ZScoreOrder l1 l2 k HP).
Defined.

(** C6 as it is stated fails: of two rows of one team with one score the
    first is kept, so that the name depends on the order. *)
Lemma reduction_order_matters :
  Permutation [Samples.seen_upper; Samples.seen_lower]
              [Samples.seen_lower; Samples.seen_upper]
  /\ collect_current_scores [Samples.seen_upper; Samples.seen_lower]
     = [("real forward", mkObj "Real Forward" (70 : @score ZScore))]
  /\ collect_current_scores [Samples.seen_lower; Samples.seen_upper]
     = [("real forward", mkObj "real forward" (70 : @score ZScore))]
  /\ dict_get (collect_current_scores [Samples.seen_upper; Samples.seen_lower])
              "real forward"
     <> dict_get (collect_current_scores
                    [Samples.seen_lower; Samples.seen_upper])
                 "real forward".
Proof.
  split; [apply perm_swap|]. split; [reflexivity|]. split; [reflexivity|].
  vm_compute. discriminate.
Qed.

(** ** The score parser *)

Example italian_format_yes : italian_format "1.234,56" = true.
Proof. reflexivity. Qed.

Example italian_format_no : italian_format "1.5" = false.
Proof. reflexivity. Qed.

Lemma count_char_app (c : ascii) (s1 s2 : string) :
  count_char c (s1 ++ s2) = (count_char c s1 + count_char c s2)%nat.
Proof.
  induction s1 as [|a s1 IH]; simpl; [reflexivity|]. rewrite IH. lia.
Qed.

Lemma count_char_replace (c old : ascii) (new s : string) :
  count_char c (replace old new s)
  = ((if Ascii.eqb c old then 0 else count_char c s)
     + count_char old s * count_char c new)%nat.
Proof.
  induction s as [|a s IH]; simpl.
  - now destruct (Ascii.eqb c old).
  - destruct (Ascii.eqb_spec a old) as [->|Ha].
    + rewrite count_char_app, IH.
      destruct (Ascii.eqb_spec c old) as [->|Hc].
      * lia.
      * destruct (Ascii.eqb_spec old c); [congruence | lia].
    + simpl. rewrite IH.
      destruct (Ascii.eqb_spec c old) as [->|Hc].
      * destruct (Ascii.eqb_spec a old); [congruence | lia].
      * lia.
Qed.

Lemma replace_app (old : ascii) (new s1 s2 : string) :
  replace old new (s1 ++ s2)
  = (replace old new s1 ++ replace old new s2)%string.
Proof.
  induction s1 as [|a s1 IH]; simpl; [reflexivity|].
  rewrite IH. destruct (Ascii.eqb a old); simpl; [|reflexivity].
  generalize (replace old new s1) (replace old new s2). intros x y.
  clear. induction new as [|b new IH]; simpl; [reflexivity | now rewrite IH].
Qed.

Lemma italian_clean_app (s1 s2 : string) :
  italian_clean (s1 ++ s2) = (italian_clean s1 ++ italian_clean s2)%string.
Proof. unfold italian_clean. now rewrite !replace_app. Qed.

(** C7, amended. The parser reads "1.234,56" as 1234.56; it takes out
    every point, wherever it stands and whatever the format of the
    text: a point put anywhere in a text does not change what is read,
    and the text handed to [float] has one point for each comma of the
    input and no other. *)
Theorem parse_drops_every_dot :
  parse_italian_number "1.234,56" = Some (123456 # 100)
  /\ (forall s1 s2 : string,
        parse_italian_number (s1 ++ "." ++ s2)
        = parse_italian_number (s1 ++ s2))
  /\ (forall s : string,
        count_char "." (italian_clean s) = count_char "," s).
Proof.
  split; [reflexivity|]. split.
  - intros s1 s2. unfold parse_italian_number.
    now rewrite !italian_clean_app.
  - intros s. unfold italian_clean. rewrite !count_char_replace. simpl. lia.
Qed.

(** C7 as it is stated fails: "1.5" is not in the Italian format, and
    its point is taken out all the same, so that it is read as 15. *)
Lemma parse_dot_outside_format :
  ~ (italian_format "1.5" = false -> dots_kept "1.5").
Proof.
  intros H. specialize (H eq_refl). unfold dots_kept in H.
  vm_compute in H. lia.
Qed.

(** ** The round-delta view *)

Lemma string_compare_refl (s : string) : String.compare s s = Eq.
Proof.
  induction s as [|a s IH]; simpl; [reflexivity|].
  unfold Ascii.compare. now rewrite N.compare_refl.
Qed.

Lemma string_compare_lt_trans (a b c : string) :
  String.compare a b = Lt -> String.compare b c = Lt ->
  String.compare a c = Lt.
Proof.
  revert b c. induction a as [|x a IH]; intros [|y b] [|z c]; simpl;
    try discriminate; auto.
  unfold Ascii.compare.
  destruct (N.compare_spec (N_of_ascii x) (N_of_ascii y)) as [Exy|Lxy|Gxy];
    try discriminate;
    destruct (N.compare_spec (N_of_ascii y) (N_of_ascii z)) as [Eyz|Lyz|Gyz];
    try discriminate; intros H1 H2.
  - rewrite Exy, Eyz, N.compare_refl. eauto.
  - rewrite Exy. now rewrite (proj2 (N.compare_lt_iff _ _) Lyz).
  - rewrite <- Eyz. now rewrite (proj2 (N.compare_lt_iff _ _) Lxy).
  - assert (L : (N_of_ascii x < N_of_ascii z)%N) by lia.
    now rewrite (proj2 (N.compare_lt_iff _ _) L).
Qed.

Section Views.

Context {Sc : Score}.

Lemma le_norm_giornata_total (a b : row) :
  le_norm_giornata a b = false -> le_norm_giornata b a = true.
Proof.
  unfold le_norm_giornata. rewrite (String.compare_antisym (squadra_norm b)).
  destruct (String.compare (squadra_norm a) (squadra_norm b)); simpl;
    try discriminate; auto.
  rewrite Z.leb_gt, Z.leb_le. lia.
Qed.

Lemma le_norm_giornata_trans (a b c : row) :
  le_norm_giornata a b = true -> le_norm_giornata b c = true ->
  le_norm_giornata a c = true.
Proof.
  unfold le_norm_giornata.
  destruct (String.compare (squadra_norm a) (squadra_norm b)) eqn:Eab;
    try discriminate;
    destruct (String.compare (squadra_norm b) (squadra_norm c)) eqn:Ebc;
    try discriminate; intros H1 H2.
  - apply String.compare_eq_iff in Eab, Ebc. rewrite Eab, Ebc.
    rewrite string_compare_refl. rewrite Z.leb_le in *. lia.
  - apply String.compare_eq_iff in Eab. rewrite Eab, Ebc. reflexivity.
  - apply String.compare_eq_iff in Ebc. rewrite <- Ebc, Eab. reflexivity.
  - now rewrite (string_compare_lt_trans _ _ _ Eab Ebc).
Qed.

(** The rows of a team in the frame sorted by team and round are its
    entries by round. *)
Lemma filter_sort_norm_giornata (df : ledger) (k : string) :
  filter (same_norm k) (sort_norm_giornata df) = team_entries df k.
Proof.
  unfold sort_norm_giornata, team_entries.
  rewrite filter_stable_sort
    by (apply le_norm_giornata_total || apply le_norm_giornata_trans).
  apply stable_sort_ext. intros x y Hx Hy.
  apply filter_In in Hx, Hy. destruct Hx as [_ Hx], Hy as [_ Hy].
  unfold same_norm in *. apply String.eqb_eq in Hx, Hy.
  unfold le_norm_giornata, le_giornata.
  now rewrite Hx, Hy, string_compare_refl.
Qed.

Lemma flat_map_ext_in (A B : Type) (f g : A -> list B) (l : list A) :
  (forall a, In a l -> f a = g a) -> flat_map f l = flat_map g l.
Proof.
  induction l as [|a l IH]; intros H; simpl; [reflexivity|].
  rewrite (H a) by now left. f_equal. apply IH. intros b Hb. apply H. now right.
Qed.

(** Taking one list out of a concatenation over distinct keys. *)
Lemma flat_map_single_out (B : Type) (f g : string -> list B)
    (ke : string) (X : list B) (keys : list string) :
  NoDup keys -> In ke keys ->
  f ke = X ++ g ke ->
  (forall k, k <> ke -> f k = g k) ->
  Permutation (flat_map f keys) (X ++ flat_map g keys).
Proof.
  intros Hnd Hin Hke Hother.
  induction Hnd as [|k ks Hk Hnd IH]; simpl; [destruct Hin|].
  destruct (string_dec k ke) as [->|Hne].
  - rewrite Hke, <- app_assoc. do 2 apply Permutation_app_head.
    rewrite (flat_map_ext_in f g); [reflexivity|].
    intros a Ha. apply Hother. intros ->. contradiction.
  - rewrite (Hother k Hne), IH by (destruct Hin; [contradiction | auto]).
    rewrite !app_assoc. apply Permutation_app_tail, Permutation_app_comm.
Qed.

Lemma shift_rows_by_group (df : ledger) (seen : dict score)
    (keys : list string) :
  NoDup keys ->
  (forall r, In r df -> In (squadra_norm r) keys) ->
  Permutation
    (flat_map delta_of (combine df (groupby_shift1 seen df)))
    (flat_map (fun k => deltas_from (dict_get seen k)
                                    (filter (same_norm k) df)) keys).
Proof.
  intros Hnd. revert seen.
  induction df as [|e df IH]; intros seen Hkeys.
  - simpl. clear. induction keys as [|k ks IHk]; simpl; [constructor | exact IHk].
  - cbn [groupby_shift1 combine flat_map].
    rewrite IH by (intros r Hr; apply Hkeys; now right).
    symmetry.
    apply flat_map_single_out with (ke := squadra_norm e); auto.
    + apply Hkeys. now left.
    + cbn [filter]. unfold same_norm at 1. rewrite String.eqb_refl.
      cbn [deltas_from]. rewrite dict_get_set, String.eqb_refl. reflexivity.
    + intros k Hk. cbn [filter]. unfold same_norm at 1.
      destruct (String.eqb_spec (squadra_norm e) k) as [E|_];
        [congruence|].
      rewrite dict_get_set.
      destruct (String.eqb_spec (squadra_norm e) k) as [E|_];
        [congruence | reflexivity].
Qed.

Lemma distinct_norms_spec (df : ledger) :
  NoDup (distinct_norms df)
  /\ forall k, In k (distinct_norms df) <-> exists r, In r df /\ squadra_norm r = k.
Proof.
  unfold distinct_norms. split; [apply NoDup_nodup|].
  intros k. rewrite nodup_In, in_map_iff.
  split; intros [r [H1 H2]]; exists r; auto.
Qed.

(** The rows kept for a run of entries are those of its pairs of
    consecutive entries of which the first has a number for total. *)
Lemma deltas_from_known (p : row) (es : ledger) :
  deltas_from (Some (punteggio_totale p)) es = known_deltas (p :: es).
Proof.
  revert p. induction es as [|e es IH]; intros p; [reflexivity|].
  cbn [deltas_from]. rewrite IH. unfold known_deltas.
  change (consecutive (p :: e :: es)) with ((p, e) :: consecutive (e :: es)).
  cbn [filter fst]. unfold delta_of. cbn [fst snd].
  destruct (score_isnan (punteggio_totale p)); reflexivity.
Qed.

Lemma deltas_from_none (es : ledger) :
  deltas_from None es = known_deltas es.
Proof.
  destruct es as [|e es]; [reflexivity|].
  cbn [deltas_from]. apply deltas_from_known.
Qed.

(** The rows of the view before its last sort. *)
Lemma delta_rows_by_team (df : ledger) :
  Permutation
    (flat_map delta_of
              (combine (sort_norm_giornata df)
                       (groupby_shift1 [] (sort_norm_giornata df))))
    (flat_map (team_deltas df) (distinct_norms df)).
Proof.
  destruct (distinct_norms_spec df) as [Hnd Hin].
  rewrite (@shift_rows_by_group _ [] (distinct_norms df) Hnd).
  - rewrite (flat_map_ext_in _ (team_deltas df)); [reflexivity|].
    intros k _. cbn [dict_get]. unfold team_deltas.
    now rewrite filter_sort_norm_giornata, deltas_from_none.
  - intros r Hr. apply Hin. exists r. split; [|reflexivity].
    now apply (stable_sort_in le_norm_giornata).
Qed.

(** *** The history of a team *)

(** A stable sort leaves a sorted list as it is. *)
Lemma stable_sort_sorted_id (A : Type) (le : A -> A -> bool) (l : list A) :
  StronglySorted (fun a b => le a b = true) l -> stable_sort le l = l.
Proof.
  induction 1 as [|x l Hs IH Hx]; [reflexivity|].
  cbn [stable_sort]. rewrite IH.
  destruct l as [|y l]; [reflexivity|].
  cbn [insert]. inversion Hx as [|? ? Hy _]; subst. now rewrite Hy.
Qed.

Lemma le_giornata_total (a b : row) :
  le_giornata a b = false -> le_giornata b a = true.
Proof. unfold le_giornata. rewrite Z.leb_gt, Z.leb_le. lia. Qed.

Lemma le_giornata_trans (a b c : row) :
  le_giornata a b = true -> le_giornata b c = true -> le_giornata a c = true.
Proof. unfold le_giornata. rewrite !Z.leb_le. lia. Qed.

Lemma strongly_sorted_all (A : Type) (R : A -> A -> Prop) (l : list A) :
  (forall a b, In a l -> In b l -> R a b) -> StronglySorted R l.
Proof.
  induction l as [|x l IH]; intros H; constructor.
  - apply IH. intros a b Ha Hb. apply H; now right.
  - apply Forall_forall. intros b Hb. apply H; [now left | now right].
Qed.

Lemma filter_filter_andb (A : Type) (p q : A -> bool) (l : list A) :
  filter p (filter q l) = filter (fun x => p x && q x) l.
Proof.
  induction l as [|x l IH]; [reflexivity|]. cbn [filter].
  destruct (q x); cbn [filter]; rewrite ?andb_true_r, ?andb_false_r;
    destruct (p x); now rewrite IH.
Qed.

(** The entries of a team by round are its history. *)
Lemma team_entries_history (df : ledger) (k : string) :
  is_history df k (team_entries df k).
Proof.
  unfold is_history, team_entries. split.
  - eapply strongly_sorted_impl;
      [|apply stable_sort_sorted;
        [apply le_giornata_total | apply le_giornata_trans]].
    intros a b. unfold le_giornata. apply Z.leb_le.
  - intros g.
    rewrite filter_stable_sort
      by (apply le_giornata_total || apply le_giornata_trans).
    rewrite stable_sort_sorted_id.
    + apply filter_filter_andb.
    + apply strongly_sorted_all. intros a b Ha Hb.
      apply filter_In in Ha, Hb. destruct Ha as [_ Ha], Hb as [_ Hb].
      apply Z.eqb_eq in Ha, Hb. unfold le_giornata. apply Z.leb_le. lia.
Qed.

(** Ascending rounds and the content of each round fix a list of
    entries: a team has one history. *)
Lemma sorted_by_round_unique (l l' : ledger) :
  StronglySorted (fun a b => giornata a <= giornata b) l ->
  StronglySorted (fun a b => giornata a <= giornata b) l' ->
  (forall g, filter (fun r => giornata r =? g) l
             = filter (fun r => giornata r =? g) l') ->
  l = l'.
Proof.
  intros Hl. revert l'.
  induction Hl as [|a l Hs IH Ha]; intros l' Hl' H.
  - destruct l' as [|b l']; [reflexivity|].
    specialize (H (giornata b)). cbn [filter] in H.
    rewrite Z.eqb_refl in H. discriminate.
  - destruct Hl' as [|b l' Hs' Hb].
    { specialize (H (giornata a)). cbn [filter] in H.
      rewrite Z.eqb_refl in H. discriminate. }
    assert (Hab : giornata b <= giornata a).
    { assert (Hin : In a (filter (fun r => giornata r =? giornata a)
                                 (b :: l'))).
      { rewrite <- H. cbn [filter]. rewrite Z.eqb_refl. now left. }
      apply filter_In in Hin. destruct Hin as [[->|Hin] _]; [lia|].
      rewrite Forall_forall in Hb. now apply Hb. }
    assert (Hba : giornata a <= giornata b).
    { assert (Hin : In b (filter (fun r => giornata r =? giornata b)
                                 (a :: l))).
      { rewrite H. cbn [filter]. rewrite Z.eqb_refl. now left. }
      apply filter_In in Hin. destruct Hin as [[->|Hin] _]; [lia|].
      rewrite Forall_forall in Ha. now apply Ha. }
    assert (E : giornata a = giornata b) by lia.
    pose proof (H (giornata a)) as H0. cbn [filter] in H0.
    rewrite Z.eqb_refl, <- E, Z.eqb_refl in H0.
    injection H0 as <- H0. f_equal. apply IH; [exact Hs'|].
    intros g. specialize (H g). cbn [filter] in H.
    destruct (giornata a =? g); [now injection H | exact H].
Qed.

Lemma history_unique (df : ledger) (k : string) (es : ledger) :
  is_history df k es -> es = team_entries df k.
Proof.
  intros [Hs Hf]. destruct (team_entries_history df k) as [Hs' Hf'].
  apply sorted_by_round_unique; auto.
  intros g. now rewrite Hf, Hf'.
Qed.

End Views.

(** ** The order of a column sorted downwards *)

Section NanLast.

Context {Sc : Score} {Fo : FloatOrder Sc}.

Lemma fgtb_asym (a b : score) :
  score_gtb a b = true -> score_gtb b a = false.
Proof.
  intros H. destruct (score_gtb b a) eqn:E; [|reflexivity].
  now rewrite <- (fgtb_irrefl a), (fgtb_trans _ _ _ H E).
Qed.

Lemma le_desc_nan_last_iff (a b : score) :
  le_desc_nan_last a b = true <-> desc_nan_last a b.
Proof.
  unfold le_desc_nan_last, desc_nan_last.
  now rewrite orb_true_iff, andb_true_iff, !negb_true_iff.
Qed.

Lemma le_desc_nan_last_total (a b : score) :
  le_desc_nan_last a b = false -> le_desc_nan_last b a = true.
Proof.
  unfold le_desc_nan_last.
  destruct (score_isnan b) eqn:Eb; [discriminate|].
  destruct (score_isnan a) eqn:Ea; [reflexivity|].
  cbn. rewrite !negb_false_iff, negb_true_iff. apply fgtb_asym.
Qed.

Lemma le_desc_nan_last_trans (a b c : score) :
  le_desc_nan_last a b = true -> le_desc_nan_last b c = true ->
  le_desc_nan_last a c = true.
Proof.
  unfold le_desc_nan_last.
  destruct (score_isnan c) eqn:Ec; [reflexivity|].
  destruct (score_isnan b) eqn:Eb; [discriminate|].
  destruct (score_isnan a) eqn:Ea; [discriminate|].
  cbn. rewrite !negb_true_iff. intros H1 H2.
  now apply fgtb_negtrans with b.
Qed.

Lemma le_giornata_delta_iff (a b : delta_row) :
  le_giornata_delta a b = true <-> delta_order a b.
Proof.
  unfold le_giornata_delta, delta_order.
  now rewrite orb_true_iff, andb_true_iff, le_desc_nan_last_iff,
    Z.ltb_lt, Z.eqb_eq.
Qed.

Lemma le_giornata_delta_total (a b : delta_row) :
  le_giornata_delta a b = false -> le_giornata_delta b a = true.
Proof.
  unfold le_giornata_delta.
  rewrite orb_false_iff, andb_false_iff, Z.ltb_ge.
  intros [H1 H2]. apply orb_true_iff.
  destruct (Z.eq_dec (d_giornata a) (d_giornata b)) as [E|E].
  - right. rewrite E, Z.eqb_refl. cbn [andb].
    destruct H2 as [H2|H2]; [apply Z.eqb_neq in H2; congruence|].
    now apply le_desc_nan_last_total.
  - left. apply Z.ltb_lt. lia.
Qed.

Lemma le_giornata_delta_trans (a b c : delta_row) :
  le_giornata_delta a b = true -> le_giornata_delta b c = true ->
  le_giornata_delta a c = true.
Proof.
  unfold le_giornata_delta.
  rewrite !orb_true_iff, !andb_true_iff, !Z.ltb_lt, !Z.eqb_eq.
  intros [H1|[H1 H1']] [H2|[H2 H2']]; try (left; lia).
  right. split; [lia|].
  now apply le_desc_nan_last_trans with (punteggio_giornata b).
Qed.


End NanLast.

#[export] Instance ZFloatOrder : FloatOrder ZScore.
Proof.
  split; cbn; try discriminate; intros *.
  - rewrite Z.gtb_ltb. apply Z.ltb_irrefl.
  - rewrite !Z.gtb_ltb, !Z.ltb_lt. lia.
  - intros _. rewrite !Z.gtb_ltb, !Z.ltb_ge. lia.
Qed.

#[export] Instance NFloatOrder : FloatOrder NScore.
Proof.
  split; cbn.
  - intros [a|] b; [discriminate | reflexivity].
  - intros [a|] [b|]; try discriminate; reflexivity.
  - intros [a|]; [|reflexivity]. cbn. rewrite Z.gtb_ltb. apply Z.ltb_irrefl.
  - intros [a|] [b|] [c|]; cbn; try discriminate.
    rewrite !Z.gtb_ltb, !Z.ltb_lt. lia.
  - intros [a|] [b|] [c|]; cbn; try discriminate; try reflexivity.
    intros _. rewrite !Z.gtb_ltb, !Z.ltb_ge. lia.
Qed.


Example round_deltas_run :
  build_punteggi_giornata Samples.three_rounds
  = [mkDelta 2 (Some 200) "A" (5 : @score ZScore);
     mkDelta 3 (Some 300) "B" (11 : @score ZScore);
     mkDelta 3 (Some 300) "A" (3 : @score ZScore)].
Proof. reflexivity. Qed.

(** On [with_nan], A has no row for round 2 (its total of round 1 is
    NaN), and the row of B in round 2, whose delta is NaN, comes after
    that of C. *)
Example round_deltas_nan_run :
  build_punteggi_giornata Samples.with_nan
  = [mkDelta 2 (Some 200) "C" (Some 1 : @score NScore);
     mkDelta 2 (Some 200) "B" (None : @score NScore);
     mkDelta 3 (Some 300) "A" (Some 4 : @score NScore)].
Proof. reflexivity. Qed.


(** ** The standings view *)

Section Take.

Variables A B : Type.

Lemma take_app (l : list A) (p q : list nat) :
  take l (p ++ q) = take l p ++ take l q.
Proof. apply flat_map_app. Qed.

Lemma take_rev (l : list A) (p : list nat) :
  take l (rev p) = rev (take l p).
Proof.
  induction p as [|i p IH]; [reflexivity|].
  simpl rev. rewrite take_app, IH. unfold take at 2 3. simpl.
  rewrite rev_app_distr, app_nil_r. f_equal.
  now destruct (nth_error l i).
Qed.

Lemma take_seq_from (l1 l2 : list A) :
  take (l1 ++ l2) (seq (List.length l1) (List.length l2)) = l2.
Proof.
  revert l1. induction l2 as [|a l2 IH]; intros l1; [reflexivity|].
  simpl. rewrite nth_error_app2, Nat.sub_diag by lia. simpl. f_equal.
  specialize (IH (l1 ++ [a])).
  rewrite <- app_assoc, length_app, Nat.add_1_r in IH. exact IH.
Qed.

Lemma take_seq (l : list A) : take l (seq 0 (List.length l)) = l.
Proof. exact (take_seq_from [] l). Qed.

Lemma take_perm (l : list A) (p : list nat) :
  Permutation p (seq 0 (List.length l)) -> Permutation (take l p) l.
Proof.
  intros HP. rewrite <- (take_seq l) at 2.
  unfold take. now apply Permutation_flat_map.
Qed.

Lemma take_map (f : A -> B) (l : list A) (p : list nat) :
  take (map f l) p = map f (take l p).
Proof.
  induction p as [|i p IH]; [reflexivity|].
  simpl. rewrite map_app, <- IH. f_equal.
  rewrite nth_error_map. now destruct (nth_error l i).
Qed.

(** Reading [l] at the positions where a mask holds is filtering it. *)
Lemma take_positions_from (f : A -> bool) (pre l : list A) :
  take (pre ++ l) (positions (map f l) (List.length pre)) = filter f l.
Proof.
  revert pre. induction l as [|x l IH]; intros pre; [reflexivity|].
  specialize (IH (pre ++ [x])).
  rewrite <- app_assoc, length_app, Nat.add_1_r in IH.
  cbn [map positions filter]. destruct (f x); [|exact IH].
  change (take (pre ++ x :: l)
               (List.length pre :: positions (map f l) (S (List.length pre))))
    with (match nth_error (pre ++ x :: l) (List.length pre) with
          | Some r => [r]
          | None => []
          end
          ++ take (pre ++ x :: l)
                  (positions (map f l) (S (List.length pre)))).
  rewrite nth_error_app2, Nat.sub_diag by lia. cbn [nth_error app].
  f_equal. exact IH.
Qed.

Lemma take_positions (f : A -> bool) (l : list A) :
  take l (positions (map f l) 0) = filter f l.
Proof. exact (take_positions_from f [] l). Qed.

Lemma positions_length (f : A -> bool) (l : list A) (s : nat) :
  List.length (positions (map f l) s) = List.length (filter f l).
Proof.
  revert s. induction l as [|x l IH]; intros s; [reflexivity|].
  cbn [map positions filter]. destruct (f x); cbn [List.length];
    now rewrite IH.
Qed.

Lemma positions_bound (mask : list bool) (s i : nat) :
  In i (positions mask s) -> (s <= i < s + List.length mask)%nat.
Proof.
  revert s. induction mask as [|b mask IH]; intros s; [intros []|].
  cbn [positions List.length]. destruct b.
  - intros [<-|H]; [lia|]. apply IH in H. lia.
  - intros H. apply IH in H. lia.
Qed.

(** The positions where a mask holds and those where it does not are
    all the positions. *)
Lemma positions_perm (f : A -> bool) (l : list A) (s : nat) :
  Permutation (positions (map (fun x => negb (f x)) l) s
               ++ positions (map f l) s)
              (seq s (List.length l)).
Proof.
  revert s. induction l as [|x l IH]; intros s; [constructor|].
  cbn [map positions List.length seq]. destruct (f x); cbn [negb].
  - rewrite <- Permutation_middle. now apply perm_skip.
  - cbn [app]. now apply perm_skip.
Qed.

Lemma filter_split_perm (f : A -> bool) (l : list A) :
  Permutation (filter (fun x => negb (f x)) l ++ filter f l) l.
Proof.
  induction l as [|x l IH]; [constructor|].
  cbn [filter]. destruct (f x); cbn [negb].
  - rewrite <- Permutation_middle. now apply perm_skip.
  - cbn [app]. now apply perm_skip.
Qed.

Lemma nth_error_take (l : list A) (pos : list nat) (j : nat) :
  (forall i, In i pos -> (i < List.length l)%nat) ->
  nth_error (take l pos) j
  = match nth_error pos j with
    | Some i => nth_error l i
    | None => None
    end.
Proof.
  revert j. induction pos as [|i pos IH]; intros j H.
  - now destruct j.
  - change (take l (i :: pos))
      with (match nth_error l i with Some r => [r] | None => [] end
            ++ take l pos).
    destruct (nth_error l i) as [r|] eqn:E.
    + destruct j as [|j]; [cbn [app nth_error]; now rewrite E|].
      cbn [app nth_error]. apply IH. intros i' Hi'. apply H. now right.
    + apply nth_error_None in E.
      specialize (H i (or_introl eq_refl)). lia.
Qed.

(** Reading through positions that are themselves read through [q]. *)
Lemma take_take (l : list A) (pos q : list nat) :
  (forall i, In i pos -> (i < List.length l)%nat) ->
  take l (take pos q) = take (take l pos) q.
Proof.
  intros H. induction q as [|j q IH]; [reflexivity|].
  change (take pos (j :: q))
    with (match nth_error pos j with Some i => [i] | None => [] end
          ++ take pos q).
  change (take (take l pos) (j :: q))
    with (match nth_error (take l pos) j with Some r => [r] | None => [] end
          ++ take (take l pos) q).
  rewrite take_app, IH, nth_error_take by exact H. f_equal.
  destruct (nth_error pos j) as [i|]; [|reflexivity].
  unfold take. cbn [flat_map]. now rewrite app_nil_r.
Qed.

Lemma strongly_sorted_impl_in (R R' : A -> A -> Prop) (l : list A) :
  (forall a b, In a l -> In b l -> R a b -> R' a b) ->
  StronglySorted R l -> StronglySorted R' l.
Proof.
  intros H Hs. induction Hs as [|a l Hs IH Ha]; constructor.
  - apply IH. intros x y Hx Hy. apply H; now right.
  - rewrite Forall_forall in *. intros b Hb.
    apply H; [now left | now right | now apply Ha].
Qed.

Lemma strongly_sorted_app (R : A -> A -> Prop) (l1 l2 : list A) :
  StronglySorted R l1 -> StronglySorted R l2 ->
  (forall x y, In x l1 -> In y l2 -> R x y) ->
  StronglySorted R (l1 ++ l2).
Proof.
  induction 1 as [|a l1 Hs IH Ha]; intros H2 Hc; simpl; [exact H2|].
  constructor.
  - apply IH; auto. intros x y Hx. apply Hc. now right.
  - apply Forall_app. split; [exact Ha|].
    apply Forall_forall. intros y Hy. apply Hc; [now left | exact Hy].
Qed.

Lemma strongly_sorted_rev (R : A -> A -> Prop) (l : list A) :
  StronglySorted R l -> StronglySorted (fun a b => R b a) (rev l).
Proof.
  induction 1 as [|a l Hs IH Ha]; simpl; [constructor|].
  apply strongly_sorted_app; [exact IH | repeat constructor|].
  intros x y Hx [<-|[]]. rewrite Forall_forall in Ha.
  apply Ha. now apply in_rev.
Qed.

Lemma strongly_sorted_map (R : B -> B -> Prop) (f : A -> B) (l : list A) :
  StronglySorted R (map f l) ->
  StronglySorted (fun a b => R (f a) (f b)) l.
Proof.
  induction l as [|a l IH]; simpl; intros H; [constructor|].
  inversion H as [|? ? Hs Ha]; subst. constructor; [auto|].
  now rewrite Forall_map in Ha.
Qed.

Lemma strongly_sorted_map_intro (R : B -> B -> Prop) (f : A -> B) (l : list A) :
  StronglySorted (fun a b => R (f a) (f b)) l ->
  StronglySorted R (map f l).
Proof.
  induction 1 as [|a l _ IH Ha]; simpl; constructor; auto.
  now rewrite Forall_map.
Qed.

Lemma strongly_sorted_before (R : A -> A -> Prop) (l1 l2 : list A) (x y : A) :
  StronglySorted R (l1 ++ x :: l2) -> In y l1 -> R y x.
Proof.
  induction l1 as [|a l1 IH]; simpl; intros H Hy; [destruct Hy|].
  inversion H as [|? ? Hs Ha]; subst. destruct Hy as [<-|Hy]; [|auto].
  rewrite Forall_forall in Ha. apply Ha, in_or_app. right. now left.
Qed.

Lemma map_fst_combine (a : list A) (b : list B) :
  List.length a = List.length b -> map fst (combine a b) = a.
Proof.
  revert b. induction a as [|x a IH]; intros [|y b]; simpl; try discriminate;
    [reflexivity|].
  intros [= H]. now rewrite IH.
Qed.

Lemma map_snd_combine (a : list A) (b : list B) :
  List.length a = List.length b -> map snd (combine a b) = b.
Proof.
  revert b. induction a as [|x a IH]; intros [|y b]; simpl; try discriminate;
    [reflexivity|].
  intros [= H]. now rewrite IH.
Qed.

End Take.

Section Standings.

Context {Sc : Score}.

Lemma groupby_tail1_split (df : ledger) (r : row) :
  In r (groupby_tail1 df) ->
  exists df1 df2,
    df = df1 ++ r :: df2 /\ in_index df2 (squadra_norm r) = false.
Proof.
  induction df as [|x df IH]; [intros []|].
  change (groupby_tail1 (x :: df))
    with (if in_index df (squadra_norm x) then groupby_tail1 df
          else x :: groupby_tail1 df).
  destruct (in_index df (squadra_norm x)) eqn:E.
  - intros H. destruct (IH H) as (df1 & df2 & -> & H2).
    now exists (x :: df1), df2.
  - intros [<-|H].
    + now exists [], df.
    + destruct (IH H) as (df1 & df2 & -> & H2). now exists (x :: df1), df2.
Qed.

Lemma groupby_tail1_nodup (df : ledger) :
  NoDup (map squadra_norm (groupby_tail1 df)).
Proof.
  induction df as [|x df IH]; [constructor|].
  change (groupby_tail1 (x :: df))
    with (if in_index df (squadra_norm x) then groupby_tail1 df
          else x :: groupby_tail1 df).
  destruct (in_index df (squadra_norm x)) eqn:E; [exact IH|].
  simpl. constructor; [|exact IH].
  intros H. apply in_map_iff in H. destruct H as [r [Hk Hr]].
  assert (in_index (groupby_tail1 df) (squadra_norm x) = true).
  { apply in_index_iff. now exists r. }
  rewrite groupby_tail1_index in *. congruence.
Qed.

(** The frame [last_per_team] has one row for each team of the ledger,
    an entry of the team with its largest round. *)
Lemma last_per_team_spec (df : ledger) :
  let last_per_team := groupby_tail1 (sort_norm_giornata df) in
  Permutation (map squadra_norm last_per_team) (distinct_norms df)
  /\ Forall (is_latest_entry df) last_per_team.
Proof.
  cbv zeta. split.
  - apply NoDup_Permutation.
    + apply groupby_tail1_nodup.
    + apply distinct_norms_spec.
    + intros k. rewrite (proj2 (distinct_norms_spec df)).
      rewrite <- in_index_iff, <- in_index_df_last, in_index_iff.
      unfold df_last. rewrite in_map_iff.
      split; intros [r [H1 H2]]; exists r; auto.
  - apply Forall_forall. intros r Hr.
    destruct (groupby_tail1_split _ _ Hr) as (df1 & df2 & Hsplit & Hlast).
    assert (Hs : StronglySorted (fun a b => le_norm_giornata a b = true)
                                (sort_norm_giornata df)).
    { apply stable_sort_sorted;
        [apply le_norm_giornata_total | apply le_norm_giornata_trans]. }
    assert (Hin : forall x, In x (sort_norm_giornata df) <-> In x df).
    { intros x. apply stable_sort_in. }
    split.
    + apply Hin. rewrite Hsplit. apply in_or_app. right. now left.
    + intros r' Hr' Hk. apply Hin in Hr'. rewrite Hsplit in Hr', Hs.
      apply in_app_or in Hr'. destruct Hr' as [Hr'|[<-|Hr']].
      * pose proof (@strongly_sorted_before _ _ _ _ _ _ Hs Hr') as Hle.
        cbv beta in Hle.
        unfold le_norm_giornata in Hle.
        rewrite Hk, string_compare_refl in Hle. now apply Z.leb_le.
      * lia.
      * assert (in_index df2 (squadra_norm r) = true); [|congruence].
        apply in_index_iff. now exists r'.
Qed.

Lemma number_rows_posizione (rows : ledger) :
  map posizione (number_rows rows) = seq 1 (List.length rows).
Proof.
  unfold number_rows. rewrite map_map. simpl.
  rewrite <- (map_map fst (fun i => i)), map_id.
  apply map_fst_combine. now rewrite length_seq.
Qed.

Lemma number_rows_totals (rows : ledger) :
  map s_punteggio_totale (number_rows rows) = map punteggio_totale rows.
Proof.
  unfold number_rows. rewrite map_map. simpl.
  rewrite <- (map_map snd punteggio_totale). f_equal.
  apply map_snd_combine. now rewrite length_seq.
Qed.

Lemma number_rows_length (rows : ledger) :
  List.length (number_rows rows) = List.length rows.
Proof.
  unfold number_rows. rewrite length_map, length_combine, length_seq. lia.
Qed.

Section WithArgsort.

Variable argsort : list score -> list nat.
Hypothesis argsort_spec : argsort_ok argsort.

Lemma non_nans_forall (items : list score) :
  Forall (fun x => score_isnan x = false)
         (rev (filter (fun x => negb (score_isnan x)) items)).
Proof.
  apply Forall_forall. intros x Hx. apply in_rev, filter_In in Hx.
  now apply negb_true_iff.
Qed.

Lemma non_nan_idx_bound (items : list score) (i : nat) :
  In i (rev (positions (map negb (map score_isnan items)) 0)) ->
  (i < List.length items)%nat.
Proof.
  intros H. apply in_rev, positions_bound in H.
  rewrite !length_map in H. lia.
Qed.

Lemma nargsort_desc_perm (items : list score) :
  Permutation (nargsort_desc argsort items) (seq 0 (List.length items)).
Proof.
  unfold nargsort_desc. cbv zeta.
  rewrite <- Permutation_rev, map_map.
  rewrite take_perm.
  - rewrite <- Permutation_rev. apply positions_perm.
  - destruct (argsort_spec (non_nans_forall items)) as [HP _].
    rewrite !length_rev in *. now rewrite positions_length.
Qed.

(** The column read through the indexer: its numbers, in the ascending
    reading of [argsort] reversed, and then its NaN. *)
Lemma nargsort_desc_reading (items : list score) :
  let non_nans := rev (filter (fun x => negb (score_isnan x)) items) in
  take items (nargsort_desc argsort items)
  = rev (take non_nans (argsort non_nans)) ++ filter score_isnan items.
Proof.
  cbv zeta. unfold nargsort_desc. cbv zeta.
  rewrite take_app, take_positions, take_rev. f_equal. f_equal.
  rewrite take_take by apply non_nan_idx_bound.
  now rewrite take_rev, map_map, take_positions.
Qed.

Lemma nargsort_desc_sorted (items : list score) :
  StronglySorted desc_nan_last (take items (nargsort_desc argsort items)).
Proof.
  rewrite nargsort_desc_reading.
  set (non_nans := rev (filter (fun x => negb (score_isnan x)) items)).
  destruct (argsort_spec (non_nans_forall items)) as [HP Hs].
  fold non_nans in HP, Hs.
  apply strongly_sorted_app.
  - apply strongly_sorted_rev in Hs.
    eapply strongly_sorted_impl_in; [|exact Hs].
    intros a b Ha _ Hab. right. split; [|exact Hab].
    apply in_rev in Ha.
    apply (Permutation_in _ (take_perm non_nans HP)) in Ha.
    pose proof (non_nans_forall items) as Hn. rewrite Forall_forall in Hn.
    now apply Hn.
  - apply strongly_sorted_all. intros a b _ Hb. left.
    now apply filter_In in Hb.
  - intros a b _ Hb. left. now apply filter_In in Hb.
Qed.

Lemma number_rows_shows_from (rows : ledger) (start : nat) :
  Forall2 shows
          (map (fun pr => mkStanding (fst pr) (Squadra (snd pr))
                                     (punteggio_totale (snd pr))
                                     (giornata (snd pr))
                                     (data_download (snd pr)))
               (combine (seq start (List.length rows)) rows))
          rows.
Proof.
  revert start. induction rows as [|r rows IH]; intros start; [constructor|].
  cbn [List.length seq combine map]. constructor; [|apply IH].
  unfold shows. cbn. auto.
Qed.

(** A row of the view has the name, total, round and date of the entry
    it is made from. *)
Lemma number_rows_shows (rows : ledger) :
  Forall2 shows (number_rows rows) rows.
Proof. apply number_rows_shows_from. Qed.

(** C8, amended. The view has one row for each team of the ledger,
    showing the name, total, round and date of an entry of the team with
    its largest round; the rows are in descending totals, those without
    a total (NaN) last (in which order rows of equal totals come is left
    to the sort of the library), and are numbered from 1 in that order;
    the view of an empty ledger is empty. *)
Theorem standings_sorted_one_per_team (df : ledger) :
  let out := build_ultima_classifica argsort df in
  (exists rows,
      Forall2 shows out rows
      /\ Permutation (map squadra_norm rows) (distinct_norms df)
      /\ Forall (is_latest_entry df) rows)
  /\ StronglySorted standing_order out
  /\ map posizione out = seq 1 (List.length out)
  /\ build_ultima_classifica argsort [] = [].
Proof.
  cbv zeta. destruct df as [|r0 df0] eqn:Edf.
  { repeat split; try constructor. exists []. repeat split; constructor. }
  rewrite <- Edf.
  assert (Hout : build_ultima_classifica argsort df
                 = number_rows
                     (take (groupby_tail1 (sort_norm_giornata df))
                           (nargsort_desc argsort
                              (map punteggio_totale
                                 (groupby_tail1 (sort_norm_giornata df)))))).
  { rewrite Edf. reflexivity. }
  rewrite Hout. clear Edf Hout.
  set (L := groupby_tail1 (sort_norm_giornata df)) in *.
  set (ix := nargsort_desc argsort (map punteggio_totale L)) in *.
  assert (HP : Permutation (take L ix) L).
  { apply take_perm. unfold ix.
    rewrite <- (length_map punteggio_totale L). apply nargsort_desc_perm. }
  destruct (last_per_team_spec df) as [Hkeys Hlatest]. fold L in Hkeys, Hlatest.
  split; [|split; [|split]].
  - exists (take L ix). split; [apply number_rows_shows|]. split.
    + now rewrite HP.
    + eapply Permutation_Forall; [symmetry; exact HP | exact Hlatest].
  - apply strongly_sorted_map with (f := s_punteggio_totale)
        (R := desc_nan_last).
    rewrite number_rows_totals, <- take_map. apply nargsort_desc_sorted.
  - now rewrite number_rows_posizione, number_rows_length.
  - reflexivity.
Qed.

End WithArgsort.

Context {Fo : FloatOrder Sc}.

(** The positions of a column without NaN, paired with its values and
    sorted by a stable sort from any order, keep the promise of
    [argsort]. *)
Lemma sort_pairs_ok (v : list score) (pairs : list (nat * score)) :
  Forall (fun x => score_isnan x = false) v ->
  Permutation pairs (combine (seq 0 (List.length v)) v) ->
  let ix :=
    map fst (stable_sort (fun a b => negb (score_gtb (snd a) (snd b)))
                         pairs) in
  Permutation ix (seq 0 (List.length v))
  /\ StronglySorted (fun a b => score_gtb a b = false) (take v ix).
Proof.
  intros Hv Hpairs. cbv zeta.
  set (le' := fun a b : nat * score => negb (score_gtb (snd a) (snd b))).
  set (le2 := fun a b : nat * score =>
                score_isnan (snd b)
                || (negb (score_isnan (snd a))
                    && negb (score_gtb (snd a) (snd b)))).
  assert (Hlen : List.length (seq 0 (List.length v)) = List.length v)
    by apply length_seq.
  assert (Hnum : forall p, In p pairs -> score_isnan (snd p) = false).
  { intros [i x] Hp. apply (Permutation_in _ Hpairs), in_combine_r in Hp.
    rewrite Forall_forall in Hv. now apply Hv. }
  assert (Hnth : forall p, In p pairs -> nth_error v (fst p) = Some (snd p)).
  { intros p Hp. apply (Permutation_in _ Hpairs) in Hp. clear -Hp.
    assert (G : forall (l pre : list score) (q : nat * score),
               In q (combine (seq (List.length pre) (List.length l)) l) ->
               nth_error (pre ++ l) (fst q) = Some (snd q)).
    { induction l as [|x l IH]; intros pre q; simpl; [tauto|].
      intros [<-|H].
      - simpl. now rewrite nth_error_app2, Nat.sub_diag by lia.
      - specialize (IH (pre ++ [x]) q).
        rewrite <- app_assoc, length_app, Nat.add_1_r in IH. now apply IH. }
    exact (G v [] p Hp). }
  split.
  - rewrite (Permutation_map fst (stable_sort_perm le' pairs)).
    rewrite (Permutation_map fst Hpairs). now rewrite map_fst_combine.
  - assert (Hread : forall ps,
               (forall p, In p ps -> nth_error v (fst p) = Some (snd p)) ->
               take v (map fst ps) = map snd ps).
    { induction ps as [|p ps IH]; intros H; [reflexivity|].
      simpl. rewrite (H p) by now left. simpl. f_equal.
      apply IH. intros q Hq. apply H. now right. }
    rewrite Hread.
    + apply strongly_sorted_map_intro.
      rewrite (@stable_sort_ext _ le' le2).
      * eapply strongly_sorted_impl_in;
          [|apply (@stable_sort_sorted _ le2)].
        -- intros a b _ Hb. apply (proj1 (stable_sort_in le2 _ _)) in Hb.
           unfold le2. rewrite (Hnum b Hb). cbn [orb].
           rewrite andb_true_iff, !negb_true_iff. tauto.
        -- intros a b. unfold le2.
           destruct (score_isnan (snd b)) eqn:Eb; [discriminate|].
           destruct (score_isnan (snd a)) eqn:Ea; [reflexivity|].
           cbn. rewrite !negb_false_iff, negb_true_iff. apply fgtb_asym.
        -- intros a b c. unfold le2.
           destruct (score_isnan (snd c)) eqn:Ec; [reflexivity|].
           destruct (score_isnan (snd b)) eqn:Eb; [discriminate|].
           destruct (score_isnan (snd a)) eqn:Ea; [discriminate|].
           cbn. rewrite !negb_true_iff. intros H1 H2.
           now apply fgtb_negtrans with (snd b).
      * intros x y Hx Hy. unfold le', le2.
        now rewrite (Hnum x Hx), (Hnum y Hy).
    + intros p Hp. apply (proj1 (stable_sort_in le' _ _)) in Hp. auto.
Qed.

(** The stable sort keeps the promise of [argsort]. *)
Lemma argsort_stable_ok : argsort_ok argsort_stable.
Proof.
  intros v Hv. unfold argsort_stable. now apply sort_pairs_ok.
Qed.

(** So does the sort that lists equal scores from the last to the
    first. *)
Lemma argsort_ties_reversed_ok : argsort_ok argsort_ties_reversed.
Proof.
  intros v Hv. unfold argsort_ties_reversed. apply sort_pairs_ok; [exact Hv|].
  symmetry. apply Permutation_rev.
Qed.

End Standings.

(** ** The standings on the sample data *)

Example standings_three_rounds :
  build_ultima_classifica argsort_stable Samples.three_rounds
  = [mkStanding 1 "B" (31 : @score ZScore) 3 (Some 300);
     mkStanding 2 "A" (18 : @score ZScore) 3 (Some 300)].
Proof. reflexivity. Qed.

(** A team whose latest total is NaN comes last. *)
Example standings_with_nan :
  build_ultima_classifica argsort_stable Samples.with_nan
  = [mkStanding 1 "A" (Some 9 : @score NScore) 3 (Some 300);
     mkStanding 2 "C" (Some 8 : @score NScore) 2 (Some 200);
     mkStanding 3 "B" (None : @score NScore) 2 (Some 200)].
Proof. reflexivity. Qed.

(** With a stable [argsort] the view is [standings_stable]. *)
Example standings_stable_kind :
  build_ultima_classifica argsort_stable Samples.two_ties
  = standings_stable Samples.two_ties.
Proof. reflexivity. Qed.

Lemma standings_sorted_one_per_team_witness :
  let out := build_ultima_classifica argsort_stable Samples.with_nan in
  (exists rows,
      Forall2 shows out rows
      /\ Permutation (map squadra_norm rows)
                     (distinct_norms Samples.with_nan)
      /\ Forall (is_latest_entry Samples.with_nan) rows)
  /\ StronglySorted standing_order out
  /\ map posizione out = seq 1 (List.length out)
  /\ build_ultima_classifica (@argsort_stable NScore) [] = [].
Proof.
  apply (@standings_sorted_one_per_team NScore argsort_stable).
  apply argsort_stable_ok.
Defined.

(** C8 as it is stated fails: [sort_values] is called on one column
    without [kind], so that the order of rows of equal totals is the one
    that the sort of the library gives, which its promise leaves open.
    On four teams of which A and B share a total and C and D a greater
    one, a sort that keeps the promise and lists equal scores from the
    last to the first gives D, C, B, A, where keeping the order that the
    equal rows had gives C, D, A, B. *)
Lemma standings_ties_not_kept :
  argsort_ok (@argsort_ties_reversed ZScore)
  /\ map s_Squadra
         (build_ultima_classifica argsort_ties_reversed Samples.two_ties)
     = ["D"; "C"; "B"; "A"]
  /\ map s_Squadra (standings_stable Samples.two_ties)
     = ["C"; "D"; "A"; "B"]
  /\ ~ (forall argsort : list (@score ZScore) -> list nat,
          argsort_ok argsort ->
          build_ultima_classifica argsort Samples.two_ties
          = standings_stable Samples.two_ties).
Proof.
  split; [apply argsort_ties_reversed_ok|].
  split; [reflexivity|]. split; [reflexivity|].
  intros H. specialize (H _ (@argsort_ties_reversed_ok ZScore _)).
  apply (f_equal (map s_Squadra)) in H. discriminate.
Qed.

(** ** The key normalizer *)

Lemma is_space_lower_char (c : ascii) : is_space (lower_char c) = is_space c.
Proof.
  destruct c as [b0 b1 b2 b3 b4 b5 b6 b7];
    destruct b0, b1, b2, b3, b4, b5, b6, b7; reflexivity.
Qed.

Lemma lower_char_idem (c : ascii) : lower_char (lower_char c) = lower_char c.
Proof.
  destruct c as [b0 b1 b2 b3 b4 b5 b6 b7];
    destruct b0, b1, b2, b3, b4, b5, b6, b7; reflexivity.
Qed.

Lemma lower_idem (s : string) : lower (lower s) = lower s.
Proof.
  induction s as [|c s IH]; simpl; [reflexivity|].
  now rewrite lower_char_idem, IH.
Qed.

Lemma lower_app (a b : string) : lower (a ++ b) = (lower a ++ lower b)%string.
Proof. induction a as [|c a IH]; simpl; [reflexivity | now rewrite IH]. Qed.

Lemma string_app_assoc (a b c : string) :
  ((a ++ b) ++ c = a ++ (b ++ c))%string.
Proof. induction a as [|x a IH]; simpl; [reflexivity | now rewrite IH]. Qed.

Lemma string_app_nil_r (a : string) : (a ++ EmptyString)%string = a.
Proof. induction a as [|x a IH]; simpl; [reflexivity | now rewrite IH]. Qed.

Lemma list_ascii_app (a b : string) :
  list_ascii_of_string (a ++ b)
  = list_ascii_of_string a ++ list_ascii_of_string b.
Proof. induction a as [|c a IH]; simpl; [reflexivity | now rewrite IH]. Qed.

Lemma list_ascii_lower (s : string) :
  list_ascii_of_string (lower s) = map lower_char (list_ascii_of_string s).
Proof. induction s as [|c s IH]; simpl; [reflexivity | now rewrite IH]. Qed.

Lemma lower_of_list (l : list ascii) :
  lower (string_of_list_ascii l) = string_of_list_ascii (map lower_char l).
Proof. induction l as [|c l IH]; simpl; [reflexivity | now rewrite IH]. Qed.

Lemma rev_string_involutive (s : string) : rev_string (rev_string s) = s.
Proof.
  unfold rev_string.
  now rewrite list_ascii_of_string_of_list_ascii, rev_involutive,
    string_of_list_ascii_of_string.
Qed.

Lemma split_ws_cons (cur : list ascii) (c : ascii) (s : string) :
  split_ws cur (String c s)
  = if is_space c then flush cur ++ split_ws [] s else split_ws (c :: cur) s.
Proof. reflexivity. Qed.

Lemma split_ws_nil (cur : list ascii) : split_ws cur EmptyString = flush cur.
Proof. reflexivity. Qed.

(** Reading a run of characters that are not blanks. *)
Lemma split_ws_word (w s : string) (cur : list ascii) :
  Forall (fun c => is_space c = false) (list_ascii_of_string w) ->
  split_ws cur (w ++ s) = split_ws (rev (list_ascii_of_string w) ++ cur) s.
Proof.
  revert cur. induction w as [|c w IH]; intros cur Hw; [reflexivity|].
  simpl in Hw. inversion Hw as [|? ? Hc Hw']; subst.
  change ((String c w ++ s)%string) with (String c (w ++ s)).
  rewrite split_ws_cons, Hc, IH by exact Hw'.
  simpl. now rewrite <- app_assoc.
Qed.

Lemma flush_word (w : string) :
  w <> EmptyString -> flush (rev (list_ascii_of_string w) ++ []) = [w].
Proof.
  intros Hw. rewrite app_nil_r. unfold flush.
  destruct (rev (list_ascii_of_string w)) as [|c l] eqn:E.
  - apply (f_equal (@rev ascii)) in E. rewrite rev_involutive in E.
    destruct w; [congruence | discriminate].
  - now rewrite <- E, rev_involutive, string_of_list_ascii_of_string.
Qed.

(** Splitting what was joined gives the words back. *)
Lemma split_join (ws : list string) :
  Forall is_word ws -> split (join " " ws) = ws.
Proof.
  unfold split. induction 1 as [|w ws [Hne Hw] Hws IH]; [reflexivity|].
  destruct ws as [|w' ws'].
  - simpl join. rewrite <- (string_app_nil_r w) at 1.
    rewrite split_ws_word, split_ws_nil by exact Hw. now apply flush_word.
  - change (join " " (w :: w' :: ws'))
      with ((w ++ String " " (join " " (w' :: ws')))%string).
    rewrite split_ws_word, split_ws_cons by exact Hw.
    change (is_space " ") with true. cbv iota.
    rewrite flush_word, IH by exact Hne. reflexivity.
Qed.

Lemma flush_words (cur : list ascii) :
  Forall (fun c => is_space c = false) cur -> Forall is_word (flush cur).
Proof.
  intros H. destruct cur as [|c cur]; [constructor|].
  unfold flush. constructor; [|constructor]. split.
  - intros E. apply (f_equal list_ascii_of_string) in E.
    rewrite list_ascii_of_string_of_list_ascii in E. simpl in E.
    now destruct (rev cur).
  - rewrite list_ascii_of_string_of_list_ascii. now apply Forall_rev.
Qed.

Lemma split_ws_words (s : string) (cur : list ascii) :
  Forall (fun c => is_space c = false) cur -> Forall is_word (split_ws cur s).
Proof.
  revert cur. induction s as [|c s IH]; intros cur H.
  - now apply flush_words.
  - rewrite split_ws_cons. destruct (is_space c) eqn:E.
    + apply Forall_app. split; [now apply flush_words | apply IH; constructor].
    + apply IH. now constructor.
Qed.

Lemma is_word_lower (w : string) : is_word w -> is_word (lower w).
Proof.
  intros [Hne Hw]. split.
  - destruct w; [congruence | discriminate].
  - rewrite list_ascii_lower, Forall_map.
    eapply Forall_impl; [|exact Hw]. intros c. now rewrite is_space_lower_char.
Qed.

Lemma lower_join (ws : list string) :
  lower (join " " ws) = join " " (map lower ws).
Proof.
  induction ws as [|w ws IH]; [reflexivity|].
  destruct ws as [|w' ws']; [reflexivity|].
  change (join " " (w :: w' :: ws'))
    with ((w ++ String " " (join " " (w' :: ws')))%string).
  rewrite lower_app.
  change (lower (String " " (join " " (w' :: ws'))))
    with (String " " (lower (join " " (w' :: ws')))).
  rewrite IH. reflexivity.
Qed.

(** The text joined ends with a character that is not a blank. *)
Lemma join_last (w : string) (ws : list string) :
  Forall is_word (w :: ws) ->
  exists p c, list_ascii_of_string (join " " (w :: ws)) = p ++ [c]
              /\ is_space c = false.
Proof.
  revert w. induction ws as [|w' ws IH]; intros w H.
  - inversion H as [|? ? [Hne Hw] _]; subst. simpl.
    destruct (exists_last (l := list_ascii_of_string w)) as (p & c & E).
    { destruct w; [congruence | discriminate]. }
    exists p, c. split; [exact E|].
    rewrite E in Hw. apply Forall_app in Hw. destruct Hw as [_ Hc].
    now inversion Hc.
  - inversion H as [|? ? _ H']; subst.
    destruct (IH w' H') as (p & c & E & Hc).
    change (join " " (w :: w' :: ws))
      with ((w ++ String " " (join " " (w' :: ws)))%string).
    rewrite list_ascii_app.
    change (list_ascii_of_string (String " " (join " " (w' :: ws))))
      with (" "%char :: list_ascii_of_string (join " " (w' :: ws))).
    rewrite E.
    exists (list_ascii_of_string w ++ " "%char :: p), c.
    split; [|exact Hc]. now rewrite <- app_assoc.
Qed.

(** [strip] finds nothing to take off what was joined. *)
Lemma strip_join (ws : list string) :
  Forall is_word ws -> strip (join " " ws) = join " " ws.
Proof.
  intros H. destruct ws as [|w ws]; [reflexivity|].
  assert (Hl : lstrip (join " " (w :: ws)) = join " " (w :: ws)).
  { inversion H as [|? ? [Hne Hw] _]; subst.
    destruct w as [|c w]; [congruence|].
    simpl in Hw. inversion Hw as [|? ? Hc _]; subst.
    destruct ws; simpl; now rewrite Hc. }
  unfold strip. rewrite Hl.
  destruct (join_last H) as (p & c & E & Hc).
  assert (Hr : lstrip (rev_string (join " " (w :: ws)))
               = rev_string (join " " (w :: ws))).
  { unfold rev_string. rewrite E, rev_app_distr. simpl. now rewrite Hc. }
  rewrite Hr. apply rev_string_involutive.
Qed.

(** The normalized name is made of the words of the name, in small
    letters, with one space between two words. *)
Lemma normalize_name_words (name : string) :
  normalize_name name = join " " (map lower (split name)).
Proof.
  unfold normalize_name.
  rewrite strip_join by (apply split_ws_words; constructor).
  apply lower_join.
Qed.

Lemma normalize_name_twice (name : string) :
  normalize_name (normalize_name name) = normalize_name name.
Proof.
  rewrite (normalize_name_words (normalize_name name)).
  rewrite (normalize_name_words name), split_join.
  - rewrite map_map. f_equal. apply map_ext. intros w. apply lower_idem.
  - apply Forall_forall. intros w Hw. apply in_map_iff in Hw.
    destruct Hw as [w0 [<- Hw0]]. apply is_word_lower.
    assert (Hall : Forall is_word (split name))
      by (apply split_ws_words; constructor).
    rewrite Forall_forall in Hall. now apply Hall.
Qed.

(** X1. Normalizing a normalized name changes nothing. *)
Theorem normalize_name_idempotent (name : string) :
  normalize_name (normalize_name name) = normalize_name name.
Proof. exact (normalize_name_twice name). Qed.

Lemma split_ws_after (x y a : string) :
  (forall cur, split_ws cur x = split_ws cur y) ->
  forall cur, split_ws cur (a ++ x) = split_ws cur (a ++ y).
Proof.
  intros H. induction a as [|c a IH]; intros cur; [apply H|].
  change (split_ws cur (String c (a ++ x)) = split_ws cur (String c (a ++ y))).
  rewrite !split_ws_cons, !IH. reflexivity.
Qed.

Lemma flush_lower (cur : list ascii) :
  flush (map lower_char cur) = map lower (flush cur).
Proof.
  destruct cur as [|c cur]; [reflexivity|].
  change (flush (map lower_char (c :: cur)))
    with [string_of_list_ascii (rev (map lower_char (c :: cur)))].
  change (map lower (flush (c :: cur)))
    with [lower (string_of_list_ascii (rev (c :: cur)))].
  now rewrite lower_of_list, map_rev.
Qed.

Lemma split_ws_lower (s : string) (cur : list ascii) :
  split_ws (map lower_char cur) (lower s) = map lower (split_ws cur s).
Proof.
  revert cur. induction s as [|c s IH]; intros cur.
  - apply flush_lower.
  - change (lower (String c s)) with (String (lower_char c) (lower s)).
    rewrite !split_ws_cons, is_space_lower_char.
    destruct (is_space c).
    + rewrite map_app, flush_lower. f_equal. apply (IH []).
    + apply (IH (c :: cur)).
Qed.

Lemma split_lower (s : string) : split (lower s) = map lower (split s).
Proof. exact (split_ws_lower s []). Qed.

Lemma normalize_name_same_words (a b : string) :
  split a = split b -> normalize_name a = normalize_name b.
Proof. intros H. now rewrite !normalize_name_words, H. Qed.

(** Blanks read when no word is open leave no trace. *)
Lemma split_ws_blanks (w s : string) :
  Forall (fun c => is_space c = true) (list_ascii_of_string w) ->
  split_ws [] (w ++ s) = split_ws [] s.
Proof.
  induction w as [|c w IH]; intros Hw; [reflexivity|].
  simpl in Hw. inversion Hw as [|? ? Hc Hw']; subst.
  change ((String c w ++ s)%string) with (String c (w ++ s)).
  rewrite split_ws_cons, Hc, IH by exact Hw'. reflexivity.
Qed.

(** X2. The normalized name does not tell small letters from capitals,
    nor a single blank from any other single blank character, from two
    blank characters or from a run of them of any length, and blanks at
    either end are not seen. *)
Theorem normalize_name_blind (s a b w : string) (c c' : ascii) :
  is_space c = true ->
  is_space c' = true ->
  Forall (fun x => is_space x = true) (list_ascii_of_string w) ->
  normalize_name (lower s) = normalize_name s
  /\ normalize_name (a ++ String c (String c' b))
     = normalize_name (a ++ String " " b)
  /\ normalize_name (String c s) = normalize_name s
  /\ normalize_name (s ++ String c EmptyString) = normalize_name s
  /\ normalize_name (a ++ String c b) = normalize_name (a ++ String " " b)
  /\ normalize_name (a ++ String c (w ++ b))
     = normalize_name (a ++ String " " b).
Proof.
  intros Hc Hc' Hw. repeat split.
  6: { apply normalize_name_same_words. unfold split. apply split_ws_after.
       intros cur. rewrite !split_ws_cons, Hc, split_ws_blanks by exact Hw.
       reflexivity. }
  5: { apply normalize_name_same_words. unfold split. apply split_ws_after.
       intros cur. rewrite !split_ws_cons, Hc. reflexivity. }
  - rewrite !normalize_name_words, split_lower, map_map. f_equal.
    apply map_ext. intros w'. apply lower_idem.
  - apply normalize_name_same_words. unfold split. apply split_ws_after.
    intros cur. rewrite !split_ws_cons, Hc, Hc'. reflexivity.
  - apply normalize_name_same_words. unfold split.
    rewrite split_ws_cons, Hc. reflexivity.
  - apply normalize_name_same_words. unfold split.
    rewrite <- (string_app_nil_r s) at 2. apply split_ws_after.
    intros cur. rewrite split_ws_cons, Hc, !split_ws_nil.
    apply app_nil_r.
Qed.

Lemma normalize_name_blind_witness :
  normalize_name (lower "Real  FORWARD") = normalize_name "Real  FORWARD"
  /\ normalize_name ("Real" ++ String (chr 9) (String nbsp "FORWARD"))
     = normalize_name ("Real" ++ String " " "FORWARD")
  /\ normalize_name (String (chr 9) "Real  FORWARD")
     = normalize_name "Real  FORWARD"
  /\ normalize_name ("Real  FORWARD" ++ String (chr 9) EmptyString)
     = normalize_name "Real  FORWARD"
  /\ normalize_name ("Real" ++ String (chr 9) "FORWARD")
     = normalize_name ("Real" ++ String " " "FORWARD")
  /\ normalize_name ("Real" ++ String (chr 9) (String nbsp " " ++ "FORWARD"))
     = normalize_name ("Real" ++ String " " "FORWARD").
Proof.
  apply (@normalize_name_blind "Real  FORWARD" "Real" "FORWARD"
           (String nbsp " ") (chr 9) nbsp);
    [reflexivity | reflexivity | repeat constructor].
Defined.

(** ** The score parser and blanks *)

(** X3. A space or a no-break space, wherever it stands, does not
    change what the parser reads, and the text handed to [float] has
    no space, no no-break space and no comma left. *)
Theorem parse_ignores_blanks (s1 s2 s : string) :
  parse_italian_number (s1 ++ String " " s2) = parse_italian_number (s1 ++ s2)
  /\ parse_italian_number (s1 ++ String nbsp s2)
     = parse_italian_number (s1 ++ s2)
  /\ count_char " " (italian_clean s) = 0%nat
  /\ count_char nbsp (italian_clean s) = 0%nat
  /\ count_char "," (italian_clean s) = 0%nat.
Proof.
  unfold parse_italian_number. repeat split.
  - change (String " " s2) with (String " " EmptyString ++ s2)%string.
    now rewrite !italian_clean_app.
  - change (String nbsp s2) with (String nbsp EmptyString ++ s2)%string.
    now rewrite !italian_clean_app.
  - unfold italian_clean. rewrite !count_char_replace. simpl. lia.
  - unfold italian_clean. rewrite !count_char_replace. simpl. lia.
  - unfold italian_clean. rewrite !count_char_replace. simpl. lia.
Qed.

(** ** fetch_html *)

Lemma fetch_loop_all_fail (session : nat -> get_outcome) (attempts : nat) :
  forall (calls : nat) (last_exc : option fetch_exc),
    (forall j, (calls <= j < calls + attempts)%nat -> attempt_fails session j) ->
    fetch_loop session attempts calls last_exc
    = mkRun (match attempts with
             | O => match last_exc with
                    | Some e => RaisedLast e
                    | None => RaisedNone
                    end
             | S m => RaisedLast (exc_of (session (calls + m)%nat))
             end)
            (calls + attempts) (calls + attempts).
Proof.
  induction attempts as [|n IH]; intros calls last_exc Hfail.
  - simpl. rewrite Nat.add_0_r. now destruct last_exc.
  - assert (H0 : attempt_fails session calls) by (apply Hfail; lia).
    assert (Hrest : forall e,
               fetch_loop session n (S calls) (Some e)
               = mkRun (match n with
                        | O => RaisedLast e
                        | S m => RaisedLast (exc_of (session (S calls + m)%nat))
                        end)
                       (S calls + n) (S calls + n)).
    { intros e. rewrite IH by (intros j Hj; apply Hfail; lia).
      reflexivity. }
    unfold attempt_fails in H0. cbn [fetch_loop].
    assert (Hshape : forall e, exc_of (session calls) = e ->
               mkRun (match n with
                      | O => RaisedLast e
                      | S m => RaisedLast (exc_of (session (S calls + m)%nat))
                      end) (S calls + n) (S calls + n)
               = mkRun (RaisedLast (exc_of (session (calls + n)%nat)))
                       (calls + S n) (calls + S n)).
    { intros e He. replace (calls + S n)%nat with (S calls + n)%nat by lia.
      f_equal. destruct n as [|m].
      - now rewrite Nat.add_0_r, He.
      - f_equal. f_equal. f_equal. lia. }
    destruct (session calls) as [status_code text|exc] eqn:E.
    + rewrite H0, Hrest. now apply Hshape.
    + rewrite Hrest. now apply Hshape.
Qed.

Lemma fetch_loop_first_ok (session : nat -> get_outcome) (text : string)
    (attempts i : nat) :
  forall (calls : nat) (last_exc : option fetch_exc),
    (i < attempts)%nat ->
    session (calls + i)%nat = Response 200 text ->
    text <> EmptyString ->
    (forall j, (calls <= j < calls + i)%nat -> attempt_fails session j) ->
    fetch_loop session attempts calls last_exc
    = mkRun (Returned text) (S (calls + i)) (calls + i).
Proof.
  revert attempts. induction i as [|i IH]; intros attempts calls last_exc Hi Hok Htext Hfail.
  - destruct attempts as [|n]; [lia|]. rewrite Nat.add_0_r in *.
    cbn [fetch_loop]. rewrite Hok. unfold response_ok.
    destruct (String.eqb_spec text EmptyString); [contradiction|].
    reflexivity.
  - destruct attempts as [|n]; [lia|].
    assert (H0 : attempt_fails session calls) by (apply Hfail; lia).
    assert (Hrest : forall e,
               fetch_loop session n (S calls) e
               = mkRun (Returned text) (S (calls + S i)) (calls + S i)).
    { intros e. rewrite (IH n (S calls) e).
      - f_equal; lia.
      - lia.
      - rewrite <- Hok. f_equal. lia.
      - exact Htext.
      - intros j Hj. apply Hfail. lia. }
    unfold attempt_fails in H0. cbn [fetch_loop].
    destruct (session calls) as [status_code text'|exc].
    + rewrite H0. apply Hrest.
    + apply Hrest.
Qed.

(** X4. If, among the first [retries] calls, the call [i] is the first
    to answer status 200 with a body that is not empty, [fetch_html]
    returns that body after [i + 1] calls and [i] sleeps. *)
Theorem fetch_html_first_success (session : nat -> get_outcome)
    (retries : Z) (i : nat) (text : string) :
  (i < Z.to_nat retries)%nat ->
  session i = Response 200 text ->
  text <> EmptyString ->
  (forall j, (j < i)%nat -> attempt_fails session j) ->
  fetch_html session retries = mkRun (Returned text) (S i) i.
Proof.
  intros Hi Hok Htext Hfail. unfold fetch_html.
  apply (@fetch_loop_first_ok session text (Z.to_nat retries) i 0%nat None);
    auto.
  intros j Hj. apply Hfail. lia.
Qed.

(** X5. If none of the first [retries] calls answers status 200 with a
    body that is not empty (a 200 with an empty body counts as a
    failure), [fetch_html] raises what the last of them left, after
    [retries] calls and as many sleeps; with no turn at all
    ([retries <= 0]) it makes no call and raises [None], a
    [TypeError]. *)
Theorem fetch_html_all_fail (session : nat -> get_outcome) (retries : Z) :
  (forall j, (j < Z.to_nat retries)%nat -> attempt_fails session j) ->
  fetch_html session retries
  = mkRun (match Z.to_nat retries with
           | O => RaisedNone
           | S m => RaisedLast (exc_of (session m))
           end)
          (Z.to_nat retries) (Z.to_nat retries).
Proof.
  intros Hfail. unfold fetch_html.
  rewrite fetch_loop_all_fail by (intros j Hj; apply Hfail; lia).
  reflexivity.
Qed.

Lemma fetch_html_first_success_witness :
  fetch_html Samples.flaky 4 = mkRun (Returned "<html>") 4 3.
Proof.
  apply (@fetch_html_first_success Samples.flaky 4 3%nat "<html>").
  - simpl. lia.
  - reflexivity.
  - discriminate.
  - intros j Hj. destruct j as [|[|[|j]]]; simpl; try reflexivity; try exact I.
    lia.
Defined.

Lemma fetch_html_all_fail_witness :
  fetch_html Samples.flaky 3 = mkRun (RaisedLast (HttpError 200)) 3 3.
Proof.
  apply (@fetch_html_all_fail Samples.flaky 3).
  intros j Hj. destruct j as [|[|[|j]]]; simpl; try reflexivity; try exact I.
  simpl in Hj. lia.
Defined.

(** ** The reducer and the target filter *)

Section DictMore.

Variable V : Type.

Lemma dict_set_keys (d : dict V) (k : string) (v : V) :
  map fst (dict_set d k v)
  = if existsb (String.eqb k) (map fst d) then map fst d
    else map fst d ++ [k].
Proof.
  induction d as [|[k0 v0] d IH]; simpl; [reflexivity|].
  rewrite (String.eqb_sym k k0).
  destruct (String.eqb_spec k0 k) as [->|Hk]; simpl; [reflexivity|].
  rewrite IH. now destruct (existsb (String.eqb k) (map fst d)).
Qed.

Lemma dict_set_wf (d : dict V) (k : string) (v : V) :
  dict_wf d -> dict_wf (dict_set d k v).
Proof.
  unfold dict_wf. intros H. rewrite dict_set_keys.
  destruct (existsb (String.eqb k) (map fst d)) eqn:E; [exact H|].
  apply nodup_append; [exact H | repeat constructor; intros [] |].
  intros x Hx [Hk|[]]. subst x.
  assert (existsb (String.eqb k) (map fst d) = true); [|congruence].
  apply existsb_exists. exists k. split; [exact Hx | apply String.eqb_refl].
Qed.

(** Looking a key up after a filter on the keys. *)
Lemma dict_get_filter (p : string -> bool) (d : dict V) (k : string) :
  dict_get (filter (fun it => p (fst it)) d) k
  = if p k then dict_get d k else None.
Proof.
  induction d as [|[k0 v0] d IH]; simpl; [now destruct (p k)|].
  destruct (p k0) eqn:E0; simpl.
  - destruct (String.eqb_spec k0 k) as [<-|Hk]; [now rewrite E0 | exact IH].
  - rewrite IH. destruct (String.eqb_spec k0 k) as [<-|Hk]; [|reflexivity].
    now rewrite E0.
Qed.

Lemma filter_wf (p : string * V -> bool) (d : dict V) :
  dict_wf d -> dict_wf (filter p d).
Proof.
  unfold dict_wf. induction d as [|it d IH]; simpl; intros H; [constructor|].
  inversion H as [|? ? Hnot H']; subst.
  destruct (p it); simpl; [|auto].
  constructor; [|auto]. intros Hin. apply Hnot.
  apply in_map_iff in Hin. destruct Hin as [it' [<- Hit']].
  apply filter_In in Hit'. apply in_map. tauto.
Qed.

Lemma dict_get_none (d : dict V) (k : string) :
  dict_get d k = None <-> ~ In k (map fst d).
Proof.
  split.
  - intros H Hin. destruct (dict_get_some d k Hin) as [v Hv]. congruence.
  - intros H. destruct (dict_get d k) as [v|] eqn:E; [|reflexivity].
    destruct H. eapply dict_get_in; eauto.
Qed.

End DictMore.

Section ReducerMore.

Context {Sc : Score} {So : ScoreOrder Sc}.

Lemma collect_step_wf (scores : snapshot) (r : raw_row) :
  dict_wf scores -> dict_wf (collect_step scores r).
Proof.
  intros H. unfold collect_step.
  destruct (dict_get scores _) as [old|]; [destruct (score_gtb _ _)|];
    auto using dict_set_wf.
Qed.

Lemma collect_wf (l : list raw_row) : dict_wf (collect_current_scores l).
Proof.
  induction l as [|r l IH] using rev_ind; [constructor|].
  rewrite collect_snoc. now apply collect_step_wf.
Qed.

(** X6. The snapshot has no key twice.  Every row read has its team in
    the snapshot, under its normalized name, with a score that the row
    does not exceed; and every entry of the snapshot carries the name
    and the score of one of the rows of its team. *)
Theorem collect_keeps_best (all_rows : list raw_row) :
  let scores := collect_current_scores all_rows in
  dict_wf scores
  /\ (forall r, In r all_rows ->
        exists o, dict_get scores (normalize_name (raw_Squadra r)) = Some o
                  /\ score_gtb (raw_Punti r) (obj_Punti o) = false)
  /\ (forall k o, dict_get scores k = Some o ->
        exists r, In r all_rows /\ normalize_name (raw_Squadra r) = k
                  /\ raw_Squadra r = obj_Squadra o
                  /\ raw_Punti r = obj_Punti o).
Proof.
  cbv zeta. split; [apply collect_wf|]. split.
  - intros r Hr.
    pose proof (collect_best all_rows (normalize_name (raw_Squadra r))) as H.
    destruct (dict_get _ _) as [o|]; simpl in H.
    + exists o. split; [reflexivity|]. now apply (proj2 H).
    + now destruct (H r Hr).
  - intros k o Hget. pose proof (collect_best all_rows k) as H.
    rewrite Hget in H. exact (proj1 H).
Qed.

End ReducerMore.

Section TargetFilter.

Context {Sc : Score}.

Lemma is_target_of (targets : list string) (t : string) :
  In t targets -> is_target targets (normalize_name t) = true.
Proof.
  intros H. unfold is_target. apply existsb_exists.
  exists (normalize_name t). split; [now apply in_map | apply String.eqb_refl].
Qed.

Lemma in_keys_existsb (V : Type) (d : dict V) (k : string) :
  existsb (String.eqb k) (map fst d) = true <-> In k (map fst d).
Proof.
  rewrite existsb_exists. split.
  - intros [x [Hx Hk]]. apply String.eqb_eq in Hk. now subst.
  - intros H. exists k. split; [exact H | apply String.eqb_refl].
Qed.

Lemma target_filter_nonempty (scores : snapshot) (targets : list string) :
  targets <> [] ->
  apply_target_filter scores targets
  = (filter (fun it => is_target targets (fst it)) scores,
     filter (fun t =>
               negb (existsb (String.eqb (normalize_name t))
                       (map fst (filter (fun it => is_target targets (fst it))
                                        scores))))
            targets).
Proof. destruct targets; [congruence | reflexivity]. Qed.

(** X7. With no target the filter gives the snapshot back; with targets
    it keeps, with their values and in their order, the entries whose
    key is the normalized name of a target, and nothing else.  The
    filtered snapshot has no key twice if the snapshot has none. *)
Theorem target_filter_lookup (scores : snapshot) (targets : list string)
    (k : string) :
  dict_get (fst (apply_target_filter scores targets)) k
  = (if is_empty targets || is_target targets k then dict_get scores k
     else None)
  /\ apply_target_filter scores [] = (scores, [])
  /\ (dict_wf scores -> dict_wf (fst (apply_target_filter scores targets))).
Proof.
  destruct targets as [|t ts] eqn:E.
  - repeat split; auto.
  - rewrite <- E. assert (Hne : targets <> []) by (subst; discriminate).
    rewrite target_filter_nonempty by exact Hne. cbn [fst].
    split; [|split; [reflexivity | apply filter_wf]].
    rewrite (dict_get_filter (is_target targets)).
    subst targets. reflexivity.
Qed.

(** X8. The names reported as not found are the targets whose
    normalized name is not a key of the snapshot; every other target
    has its entry in the filtered snapshot. *)
Theorem target_filter_not_found (scores : snapshot) (targets : list string)
    (t : string) :
  (In t (snd (apply_target_filter scores targets))
   <-> In t targets /\ dict_get scores (normalize_name t) = None)
  /\ (In t targets ->
      In t (snd (apply_target_filter scores targets))
      \/ exists o,
           dict_get scores (normalize_name t) = Some o
           /\ dict_get (fst (apply_target_filter scores targets))
                       (normalize_name t) = Some o).
Proof.
  destruct targets as [|t0 ts] eqn:E.
  - simpl. split; [tauto | intros []].
  - rewrite <- E. assert (Hne : targets <> []) by (subst; discriminate).
    clear E. rewrite target_filter_nonempty by exact Hne. cbn [fst snd].
    set (filtered := filter (fun it => is_target targets (fst it)) scores).
    assert (Hget : In t targets ->
                   dict_get filtered (normalize_name t)
                   = dict_get scores (normalize_name t)).
    { intros Ht. unfold filtered.
      now rewrite (dict_get_filter (is_target targets)), is_target_of. }
    assert (Hiff : In t (filter (fun t1 =>
                       negb (existsb (String.eqb (normalize_name t1))
                                     (map fst filtered))) targets)
                   <-> In t targets
                       /\ dict_get scores (normalize_name t) = None).
    { rewrite filter_In, negb_true_iff. split; intros [Ht H]; split; auto.
      - rewrite <- Hget by exact Ht. apply dict_get_none.
        rewrite <- in_keys_existsb. congruence.
      - rewrite <- Hget in H by exact Ht. apply dict_get_none in H.
        rewrite <- in_keys_existsb in H.
        now destruct (existsb _ _). }
    split; [exact Hiff|]. intros Ht.
    destruct (dict_get scores (normalize_name t)) as [o|] eqn:Eo.
    + right. exists o. split; [reflexivity|]. now rewrite Hget.
    + left. apply Hiff. now split.
Qed.

End TargetFilter.

Example target_filter_run :
  apply_target_filter Samples.snap_targets ["Pisa pi curt"; "REAL  forward"; "Juve"]
  = ([("pisa pi curt", mkObj "Pisa pi curt" (64 : @score ZScore));
      ("real forward", mkObj "Real Forward" (70 : @score ZScore))],
     ["Juve"]).
Proof. reflexivity. Qed.

(** ** More on the reconciler *)

Section LastOpt.

Variable A : Type.

Lemma last_opt_cons (x : A) (l : list A) :
  last_opt (x :: l) = match l with
                      | [] => Some x
                      | _ => last_opt l
                      end.
Proof.
  unfold last_opt. simpl.
  destruct l as [|y l]; [reflexivity|].
  destruct (rev (y :: l)) as [|z r] eqn:E; [|reflexivity].
  apply (f_equal (@List.length A)) in E. rewrite length_rev in E. discriminate.
Qed.

Lemma last_opt_none (l : list A) : last_opt l = None -> l = [].
Proof.
  destruct l as [|x l]; [reflexivity|]. unfold last_opt.
  destruct (rev (x :: l)) as [|z r] eqn:E; [|discriminate].
  apply (f_equal (@List.length A)) in E. rewrite length_rev in E. discriminate.
Qed.

Lemma last_opt_in (l : list A) (x : A) : last_opt l = Some x -> In x l.
Proof.
  unfold last_opt. destruct (rev l) as [|z r] eqn:E; [discriminate|].
  intros [= ->]. apply in_rev. rewrite E. now left.
Qed.

Variable le : A -> A -> bool.

Lemma insert_keeps_last (a x : A) (s : list A) :
  last_opt s = Some x -> le a x = true ->
  last_opt (insert le a s) = Some x.
Proof.
  induction s as [|y s IH]; [discriminate|].
  intros Hlast Ha. simpl. destruct (le a y) eqn:E.
  - now rewrite last_opt_cons.
  - rewrite last_opt_cons in Hlast. rewrite last_opt_cons.
    destruct s as [|z s].
    + injection Hlast as ->. congruence.
    + specialize (IH Hlast Ha). simpl in IH |- *.
      destruct (le a z); exact IH.
Qed.

(** A row above all the others, put last, is last after the sort. *)
Lemma stable_sort_snoc_last (l : list A) (x : A) :
  (forall y, In y l -> le y x = true) ->
  last_opt (stable_sort le (l ++ [x])) = Some x.
Proof.
  induction l as [|a l IH]; intros H; [reflexivity|].
  simpl. apply insert_keeps_last.
  - apply IH. intros y Hy. apply H. now right.
  - apply H. now left.
Qed.

End LastOpt.

Section ReconcilerMore.

Context {Sc : Score}.

Lemma filter_same_norm_nil (df : ledger) (k : string) :
  in_index df k = false -> filter (same_norm k) df = [].
Proof.
  intros H. induction df as [|x df IH]; [reflexivity|].
  change (in_index (x :: df) k) with (same_norm k x || in_index df k) in H.
  apply orb_false_iff in H. destruct H as [H1 H2].
  simpl. rewrite H1. auto.
Qed.

Lemma in_index_filter (df : ledger) (k : string) :
  in_index df k = negb (is_empty (filter (same_norm k) df)).
Proof.
  induction df as [|x df IH]; [reflexivity|].
  change (in_index (x :: df) k) with (same_norm k x || in_index df k).
  simpl. destruct (same_norm k x); [reflexivity | exact IH].
Qed.

(** The row that [groupby(...).tail(1)] keeps for a team is the last
    row of the team. *)
Lemma find_groupby_tail1 (df : ledger) (k : string) :
  find (same_norm k) (groupby_tail1 df) = last_opt (filter (same_norm k) df).
Proof.
  induction df as [|x df IH]; [reflexivity|].
  change (groupby_tail1 (x :: df))
    with (if in_index df (squadra_norm x) then groupby_tail1 df
          else x :: groupby_tail1 df).
  cbn [filter]. destruct (same_norm k x) eqn:Ek.
  - assert (Hk : squadra_norm x = k) by now apply String.eqb_eq.
    rewrite Hk, last_opt_cons.
    destruct (in_index df k) eqn:Ei.
    + rewrite IH. rewrite in_index_filter in Ei.
      now destruct (filter (same_norm k) df).
    + cbn [find]. rewrite Ek. now rewrite filter_same_norm_nil.
  - destruct (in_index df (squadra_norm x)); [exact IH|].
    cbn [find]. rewrite Ek. exact IH.
Qed.

(** The total that the loop compares with is the total of the latest
    entry of the team. *)
Lemma loc_df_last (df : ledger) (k : string) :
  loc_punteggio (df_last df) k = latest_score df k.
Proof.
  unfold loc_punteggio, latest_score, df_last.
  now rewrite find_groupby_tail1, filter_sort_norm_giornata.
Qed.

Lemma latest_score_in_index (df : ledger) (k : string) :
  in_index df k = true <-> exists p, latest_score df k = Some p.
Proof.
  rewrite <- in_index_df_last, <- loc_df_last. split.
  - apply loc_punteggio_some.
  - intros [p Hp]. unfold loc_punteggio in Hp.
    destruct (find (same_norm k) (df_last df)) as [r|] eqn:F; [|discriminate].
    apply find_some in F. apply existsb_exists. now exists r.
Qed.

Lemma classify_exact (dl : ledger) (items : snapshot) :
  classify dl items
  = Some (changed_of dl items, unchanged_of dl items, new_of dl items).
Proof.
  unfold changed_of, unchanged_of, new_of.
  induction items as [|[norm obj] items IH]; [reflexivity|].
  cbn [classify filter]. rewrite IH. unfold changed_item, unchanged_item.
  cbn [fst snd bind].
  destruct (in_index dl norm) eqn:E; cbn [negb andb].
  - destruct (loc_punteggio_some _ _ E) as [p ->]. cbn [bind].
    unfold score_changed. destruct (score_gtb _ _); reflexivity.
  - reflexivity.
Qed.

Lemma classify_one_of_three (dl : ledger) (it : string * team_obj) :
  (changed_item dl it = true /\ in_index dl (fst it) = true
   /\ unchanged_item dl it = false)
  \/ (changed_item dl it = false /\ in_index dl (fst it) = false
      /\ unchanged_item dl it = false)
  \/ (changed_item dl it = false /\ in_index dl (fst it) = true
      /\ unchanged_item dl it = true).
Proof.
  unfold changed_item, unchanged_item.
  destruct (in_index dl (fst it)) eqn:E; cbn [andb]; [|tauto].
  destruct (loc_punteggio_some _ _ E) as [p ->].
  destruct (score_changed _ _); cbn [negb]; tauto.
Qed.

Lemma classify_lengths (dl : ledger) (items : snapshot) :
  (List.length (changed_of dl items) + List.length (new_of dl items)
   + List.length (unchanged_of dl items))%nat
  = List.length items.
Proof.
  unfold changed_of, unchanged_of, new_of. rewrite !length_map.
  induction items as [|it items IH]; [reflexivity|].
  cbn [filter].
  destruct (classify_one_of_three dl it)
    as [(-> & -> & ->)|[(-> & -> & ->)|(-> & -> & ->)]];
    simpl; lia.
Qed.

Section Keys.

Variable V : Type.

Lemma nodup_keys_unique (d : dict V) (k : string) (v v' : V) :
  dict_wf d -> In (k, v) d -> In (k, v') d -> v = v'.
Proof.
  unfold dict_wf. induction d as [|[k0 v0] d IH]; simpl; [tauto|].
  intros H. inversion H as [|? ? Hnot H']; subst.
  intros [E1|H1] [E2|H2].
  - congruence.
  - injection E1 as -> ->. destruct Hnot.
    change k with (fst (k, v')). now apply in_map.
  - injection E2 as -> ->. destruct Hnot.
    change k with (fst (k, v)). now apply in_map.
  - now apply IH.
Qed.

Lemma dict_get_of_in (d : dict V) (k : string) (v : V) :
  dict_wf d -> In (k, v) d -> dict_get d k = Some v.
Proof.
  intros Hwf Hin.
  destruct (dict_get_some d k) as [v' Hv'].
  { change k with (fst (k, v)). now apply in_map. }
  rewrite Hv'. f_equal.
  assert (Hin' : In (k, v') d).
  { clear -Hv'. induction d as [|[k0 v0] d IH]; simpl in *; [discriminate|].
    destruct (String.eqb_spec k0 k) as [->|Hk].
    - injection Hv' as ->. now left.
    - right. auto. }
  eapply nodup_keys_unique; eauto.
Qed.

End Keys.

Lemma row_for_some (cs : snapshot) (g dt : Z) (k : string) (obj : team_obj) :
  dict_get cs k = Some obj ->
  row_for cs g dt k = [mkRow g (Some dt) (obj_Squadra obj) k (obj_Punti obj)].
Proof. intros H. unfold row_for. now rewrite H. Qed.

Lemma row_for_norm (cs : snapshot) (g dt : Z) (n : string) (r : row) :
  In r (row_for cs g dt n) -> squadra_norm r = n.
Proof.
  unfold row_for. destruct (dict_get cs n); [|intros []].
  intros [<-|[]]. reflexivity.
Qed.

(** The rows built for a list of distinct names that belong to a team. *)
Lemma filter_rows_for (cs : snapshot) (g dt : Z) (names : list string)
    (k : string) :
  NoDup names ->
  filter (same_norm k) (flat_map (row_for cs g dt) names)
  = if existsb (String.eqb k) names then row_for cs g dt k else [].
Proof.
  induction 1 as [|n names Hn Hnd IH]; [reflexivity|].
  cbn [flat_map existsb]. rewrite filter_app, IH.
  destruct (String.eqb_spec k n) as [<-|Hk]; cbn [orb].
  - assert (E : existsb (String.eqb k) names = false).
    { destruct (existsb _ names) eqn:E; [|reflexivity].
      apply existsb_exists in E. destruct E as [x [Hx Hk]].
      apply String.eqb_eq in Hk. subst. contradiction. }
    rewrite E, app_nil_r. apply forallb_filter_id, forallb_forall.
    intros r Hr. unfold same_norm. rewrite (row_for_norm _ _ _ _ _ Hr).
    apply String.eqb_refl.
  - assert (E : filter (same_norm k) (row_for cs g dt n) = []).
    { unfold row_for. destruct (dict_get cs n); [|reflexivity].
      simpl. unfold same_norm. simpl.
      destruct (String.eqb_spec n k); [congruence | reflexivity]. }
    now rewrite E.
Qed.

Lemma first_rows_flat_map (cs : snapshot) (run_dt : Z) :
  dict_wf cs ->
  first_rows cs run_dt = flat_map (row_for cs 1 run_dt) (map fst cs).
Proof.
  intros Hwf. unfold first_rows.
  assert (H : forall l, incl l cs ->
             map (fun it => mkRow 1 (Some run_dt) (obj_Squadra (snd it))
                                  (fst it) (obj_Punti (snd it))) l
             = flat_map (row_for cs 1 run_dt) (map fst l)).
  { induction l as [|[k obj] l IH]; intros Hincl; [reflexivity|].
    assert (Hget : dict_get cs k = Some obj).
    { apply dict_get_of_in; [exact Hwf | apply Hincl; now left]. }
    simpl. rewrite (row_for_some cs 1 run_dt k Hget).
    simpl. f_equal. apply IH. intros x Hx. apply Hincl. now right. }
  apply H, incl_refl.
Qed.

End ReconcilerMore.

Section ReconcilerExtras.

Context {Sc : Score}.

(** A run on a ledger with rows, told with the three lists of the loop
    and the rows that are added. *)
Lemma run_shape (df : ledger) (cs : snapshot) (run_dt : Z) :
  df <> [] ->
  exists m,
    is_max_round df m
    /\ let dl := df_last df in
       let changed := changed_of dl cs in
       let new_teams := new_of dl cs in
       let unchanged := unchanged_of dl cs in
       let prev_dt := compute_prev_giornata_date df m run_dt in
       let rows_changed := flat_map (row_for cs (m + 1) run_dt) changed in
       let rows_new := flat_map (row_for cs m prev_dt) new_teams in
       map squadra_norm rows_changed = changed
       /\ map squadra_norm rows_new = new_teams
       /\ Forall (fun r => giornata r = m + 1) rows_changed
       /\ Forall (fun r => giornata r = m) rows_new
       /\ update_storico df cs run_dt
          = if negb (is_empty changed) then
              Some (df ++ (rows_changed ++ rows_new), Some (m + 1),
                    mkStats (List.length changed) (List.length new_teams)
                            (List.length unchanged) 0)
            else if negb (is_empty new_teams) then
              Some (df ++ rows_new, None,
                    mkStats 0 (List.length new_teams)
                            (List.length unchanged) 0)
            else Some (df, None, mkStats 0 0 (List.length unchanged) 1).
Proof.
  intros Hne.
  destruct (update_with_nonempty cs run_dt Hne)
    as (m & c & u & Hmax & Hcl & _ & _ & _ & Mc & Mn & Fc & Fn & Hrun).
  cbv zeta in Mc, Mn, Fc, Fn, Hrun.
  rewrite classify_exact in Hcl. injection Hcl as <- <-.
  exists m. split; [exact Hmax|]. cbv zeta.
  repeat (split; [assumption|]).
  destruct (guard_is_identity cs run_dt Hne) as [-> _].
  unfold update_storico_unguarded. rewrite Hrun, !concat_or_copy_app.
  reflexivity.
Qed.

Lemma map_length_eq (A B : Type) (f : A -> B) (l : list A) (l' : list B) :
  map f l = l' -> List.length l = List.length l'.
Proof. intros <-. now rewrite length_map. Qed.

(** X9. The stats account for the run: the rows added are as many as
    [added_changed + added_new_prev], and on a ledger with rows the
    three counts add up to the size of the snapshot (on an empty ledger
    every team of the snapshot is counted in [added_changed]). *)
Theorem stats_account_for_rows (df : ledger) (cs : snapshot) (run_dt : Z) :
  exists added new_round st,
    update_storico df cs run_dt = Some (df ++ added, new_round, st)
    /\ List.length added = (added_changed st + added_new_prev st)%nat
    /\ (added_changed st + added_new_prev st + skipped_unchanged st)%nat
       = List.length cs
    /\ (no_change st = 1%nat <-> df <> [] /\ added = []).
Proof.
  destruct df as [|r0 df0] eqn:Edf.
  - exists (first_rows cs run_dt), (Some 1).
    eexists. split; [reflexivity|]. cbn.
    unfold first_rows. rewrite length_map. repeat split; try lia.
    + intros [H _]. congruence.
  - assert (Hne : df <> []) by (subst; discriminate). rewrite <- Edf in *.
    clear Edf.
    destruct (run_shape cs run_dt Hne) as (m & _ & Mc & Mn & _ & _ & Hrun).
    cbv zeta in Mc, Mn, Hrun.
    pose proof (classify_lengths (df_last df) cs) as Hlen.
    apply map_length_eq in Mc, Mn. rewrite Hrun.
    destruct (changed_of (df_last df) cs) as [|c0 cl] eqn:Ec;
      [destruct (new_of (df_last df) cs) as [|n0 nl] eqn:En|]; cbn [is_empty negb].
    + exists [], None. eexists. rewrite app_nil_r.
      split; [reflexivity|]. cbn in *. repeat split; auto; lia.
    + eexists _, _, _. split; [reflexivity|]. cbn in *.
      repeat split; try lia.
      intros [_ H]. rewrite H in Mn. discriminate.
    + eexists _, _, _. split; [reflexivity|]. cbn in *.
      rewrite length_app. repeat split; try lia.
      intros [_ H]. apply (f_equal (@List.length row)) in H.
      rewrite length_app in H. simpl in H. lia.
Qed.

(** X10. For a snapshot that is not empty, the test by which [main]
    leaves without writing holds exactly when the run gave the ledger
    back as it was. *)
Theorem main_skips_iff_unchanged (df df' : ledger) (cs : snapshot)
    (run_dt : Z) (new_round : option Z) (st : stats) :
  cs <> [] ->
  update_storico df cs run_dt = Some (df', new_round, st) ->
  (main_skips new_round st = true <-> df' = df).
Proof.
  intros Hcs Hrun. destruct df as [|r0 df0] eqn:Edf.
  - cbn in Hrun. injection Hrun as <- <- <-. cbn.
    destruct cs; [congruence|]. split; discriminate.
  - assert (Hne : df <> []) by (subst; discriminate). rewrite <- Edf in *.
    clear Edf.
    destruct (run_shape cs run_dt Hne) as (m & _ & Mc & Mn & _ & _ & Hrun').
    cbv zeta in Mc, Mn, Hrun'. rewrite Hrun' in Hrun. clear Hrun'.
    apply map_length_eq in Mc, Mn.
    remember (flat_map (row_for cs (m + 1) run_dt)
                       (changed_of (df_last df) cs)) as rc eqn:Erc.
    remember (flat_map (row_for cs m (compute_prev_giornata_date df m run_dt))
                       (new_of (df_last df) cs)) as rn eqn:Ern.
    clear Erc Ern.
    assert (Happ : forall added : ledger,
               List.length added <> 0%nat -> df ++ added <> df).
    { intros added Ha H. rewrite <- (app_nil_r df) in H at 2.
      apply app_inv_head in H. subst added. now apply Ha. }
    destruct (changed_of (df_last df) cs) as [|c0 cl];
      [destruct (new_of (df_last df) cs) as [|n0 nl]|];
      cbn [is_empty negb] in Hrun; injection Hrun as <- <- <-;
      cbn [main_skips added_new_prev no_change].
    + split; reflexivity.
    + split; [discriminate|]. intros H. exfalso. revert H. apply Happ.
      rewrite Mn. discriminate.
    + split; [discriminate|]. intros H. exfalso. revert H. apply Happ.
      rewrite length_app, Mc. discriminate.
Qed.

Lemma is_max_round_app (df added : ledger) (m m' : Z) :
  is_max_round df m -> m <= m' ->
  Forall (fun r => giornata r <= m') added ->
  (m = m' \/ Exists (fun r => giornata r = m') added) ->
  is_max_round (df ++ added) m'.
Proof.
  intros [Hall Hex] Hle Hadd Hw. split.
  - apply Forall_app. split; [|exact Hadd].
    eapply Forall_impl; [|exact Hall]. simpl. intros; lia.
  - apply Exists_app. destruct Hw as [<-|Hw]; [now left | now right].
Qed.

(** X11. Rounds do not go down and none is skipped: on a ledger with
    rows whose largest round is [m], the ledger returned has largest
    round [m + 1] if a round is announced, and [m] if none is. *)
Theorem max_round_after_run (df df' : ledger) (cs : snapshot)
    (run_dt m : Z) (new_round : option Z) (st : stats) :
  is_max_round df m ->
  update_storico df cs run_dt = Some (df', new_round, st) ->
  is_max_round df' (match new_round with
                    | Some _ => m + 1
                    | None => m
                    end).
Proof.
  intros Hmax Hrun.
  assert (Hne : df <> []).
  { intros ->. destruct Hmax as [_ H]. inversion H. }
  destruct (run_shape cs run_dt Hne)
    as (m' & Hmax' & Mc & Mn & Fc & Fn & Hrun').
  cbv zeta in Mc, Mn, Fc, Fn, Hrun'.
  rewrite (is_max_round_unique Hmax' Hmax) in *. clear m' Hmax'.
  rewrite Hrun' in Hrun. clear Hrun'. apply map_length_eq in Mc, Mn.
  remember (flat_map (row_for cs (m + 1) run_dt)
                     (changed_of (df_last df) cs)) as rc eqn:Erc.
  remember (flat_map (row_for cs m (compute_prev_giornata_date df m run_dt))
                     (new_of (df_last df) cs)) as rn eqn:Ern.
  clear Erc Ern.
  assert (Fn' : Forall (fun r => giornata r <= m + 1) (rc ++ rn)).
  { apply Forall_app. split.
    - eapply Forall_impl; [|exact Fc]. simpl. intros; lia.
    - eapply Forall_impl; [|exact Fn]. simpl. intros; lia. }
  destruct (changed_of (df_last df) cs) as [|c0 cl];
    [destruct (new_of (df_last df) cs) as [|n0 nl]|];
    cbn [is_empty negb] in Hrun; injection Hrun as <- <- <-.
  - exact Hmax.
  - apply is_max_round_app with m.
    + exact Hmax.
    + lia.
    + eapply Forall_impl; [|exact Fn]. simpl. intros; lia.
    + now left.
  - apply is_max_round_app with m.
    + exact Hmax.
    + lia.
    + exact Fn'.
    + right. apply Exists_app. left.
      destruct rc as [|r rs]; [discriminate|].
      inversion Fc; subst. now left.
Qed.

End ReconcilerExtras.

Section PerTeam.

Context {Sc : Score}.

Lemma keys_of_filter (P : string * team_obj -> bool) (cs : snapshot)
    (k : string) (obj : team_obj) :
  dict_wf cs -> In (k, obj) cs ->
  existsb (String.eqb k) (map fst (filter P cs)) = P (k, obj).
Proof.
  intros Hwf Hin. destruct (P (k, obj)) eqn:E.
  - apply existsb_exists. exists k. split; [|apply String.eqb_refl].
    change k with (fst (k, obj)). apply in_map, filter_In. now split.
  - destruct (existsb _ _) eqn:Ex; [|reflexivity].
    apply existsb_exists in Ex. destruct Ex as [k' [Hk' Heq]].
    apply String.eqb_eq in Heq. subst k'.
    apply in_map_iff in Hk'. destruct Hk' as [[k0 obj'] [Hk0 Hf]].
    simpl in Hk0. subst k0. apply filter_In in Hf. destruct Hf as [Hin' HP].
    rewrite (@nodup_keys_unique _ cs k obj obj' Hwf Hin Hin') in E. congruence.
Qed.

Lemma changed_item_latest (df : ledger) (k : string) (obj : team_obj) :
  changed_item (df_last df) (k, obj)
  = match latest_score df k with
    | Some p => score_changed (obj_Punti obj) p
    | None => false
    end.
Proof.
  unfold changed_item. cbn [fst snd]. rewrite loc_df_last, in_index_df_last.
  destruct (latest_score df k) as [p|] eqn:E.
  - assert (H : in_index df k = true)
      by (apply latest_score_in_index; now exists p).
    now rewrite H.
  - apply andb_false_r.
Qed.

Lemma new_item_latest (df : ledger) (k : string) :
  negb (in_index (df_last df) k)
  = match latest_score df k with
    | Some _ => false
    | None => true
    end.
Proof.
  rewrite in_index_df_last.
  destruct (latest_score df k) as [p|] eqn:E.
  - assert (H : in_index df k = true)
      by (apply latest_score_in_index; now exists p).
    now rewrite H.
  - destruct (in_index df k) eqn:H; [|reflexivity].
    apply latest_score_in_index in H. destruct H as [p Hp]. congruence.
Qed.

(** Every run on a ledger with rows adds the rows of the changed teams
    followed by those of the new teams. *)
Lemma run_added (df : ledger) (cs : snapshot) (run_dt : Z) :
  df <> [] ->
  exists m new_round st,
    is_max_round df m
    /\ update_storico df cs run_dt
       = Some (df ++ (flat_map (row_for cs (m + 1) run_dt)
                               (changed_of (df_last df) cs)
                      ++ flat_map (row_for cs m
                                     (compute_prev_giornata_date df m run_dt))
                                  (new_of (df_last df) cs)),
               new_round, st)
    /\ new_round = if is_empty (changed_of (df_last df) cs) then None
                   else Some (m + 1).
Proof.
  intros Hne.
  destruct (run_shape cs run_dt Hne) as (m & Hmax & _ & _ & _ & _ & Hrun).
  cbv zeta in Hrun. exists m. rewrite Hrun.
  destruct (changed_of (df_last df) cs) as [|c0 cl];
    [destruct (new_of (df_last df) cs) as [|n0 nl]|]; cbn [is_empty negb].
  - exists None. eexists. split; [exact Hmax|]. simpl.
    now rewrite app_nil_r.
  - exists None. eexists. split; [exact Hmax|]. split; reflexivity.
  - eexists _, _. split; [exact Hmax|]. split; reflexivity.
Qed.

(** The rows that a run adds for one team. *)
Lemma added_rows_of_team (df df' : ledger) (cs : snapshot)
    (run_dt m : Z) (new_round : option Z) (st : stats) :
  dict_wf cs ->
  is_max_round df m ->
  update_storico df cs run_dt = Some (df', new_round, st) ->
  exists added,
    df' = df ++ added
    /\ (forall k obj, In (k, obj) cs ->
          filter (same_norm k) added
          = match latest_score df k with
            | None =>
                [mkRow m (Some (compute_prev_giornata_date df m run_dt))
                       (obj_Squadra obj) k (obj_Punti obj)]
            | Some p =>
                if score_changed (obj_Punti obj) p
                then [mkRow (m + 1) (Some run_dt) (obj_Squadra obj) k
                            (obj_Punti obj)]
                else []
            end)
    /\ (forall r, In r added -> In (squadra_norm r) (map fst cs)).
Proof.
  intros Hwf Hmax Hrun.
  assert (Hne : df <> []).
  { intros ->. destruct Hmax as [_ H]. inversion H. }
  destruct (run_added cs run_dt Hne) as (m' & r' & st' & Hmax' & Hrun' & _).
  rewrite (is_max_round_unique Hmax' Hmax) in *. clear m' Hmax'.
  rewrite Hrun' in Hrun. injection Hrun as <- _ _.
  eexists. split; [reflexivity|]. split.
  - intros k obj Hin.
    assert (Hget : dict_get cs k = Some obj) by now apply dict_get_of_in.
    rewrite filter_app, !filter_rows_for
      by (apply filter_wf; exact Hwf).
    unfold changed_of, new_of.
    rewrite (@keys_of_filter (changed_item (df_last df)) cs k obj Hwf Hin).
    rewrite (@keys_of_filter
               (fun it => negb (in_index (df_last df) (fst it)))
               cs k obj Hwf Hin).
    cbn [fst]. rewrite changed_item_latest, new_item_latest.
    rewrite !(fun g dt => @row_for_some _ cs g dt k obj Hget).
    destruct (latest_score df k) as [p|]; [|reflexivity].
    destruct (score_changed _ _); reflexivity.
  - intros r Hr. apply in_app_or in Hr. destruct Hr as [Hr|Hr];
      apply in_flat_map in Hr; destruct Hr as [n [Hn Hr]];
      rewrite (row_for_norm _ _ _ _ _ Hr).
    + unfold changed_of in Hn. apply in_map_iff in Hn.
      destruct Hn as [it [<- Hit]]. apply filter_In in Hit.
      apply in_map. tauto.
    + now apply new_of_in in Hn.
Qed.

(** X12. What a run on a ledger with rows adds for a team of the
    snapshot: one row in the round that was the largest if the ledger
    does not know the team, one row in the next round, dated by the
    run, if its score differs from its latest total by more than
    [float_eps], and no row otherwise.  No row is added for a name
    that is not in the snapshot. *)
Theorem rows_added_per_team (df df' : ledger) (cs : snapshot)
    (run_dt m : Z) (new_round : option Z) (st : stats) :
  dict_wf cs ->
  is_max_round df m ->
  update_storico df cs run_dt = Some (df', new_round, st) ->
  exists added,
    df' = df ++ added
    /\ (forall k obj, In (k, obj) cs ->
          filter (same_norm k) added
          = match latest_score df k with
            | None =>
                [mkRow m (Some (compute_prev_giornata_date df m run_dt))
                       (obj_Squadra obj) k (obj_Punti obj)]
            | Some p =>
                if score_changed (obj_Punti obj) p
                then [mkRow (m + 1) (Some run_dt) (obj_Squadra obj) k
                            (obj_Punti obj)]
                else []
            end)
    /\ (forall r, In r added -> In (squadra_norm r) (map fst cs)).
Proof. exact (@added_rows_of_team df df' cs run_dt m new_round st). Qed.

End PerTeam.

Section AfterRun.

Context {Sc : Score}.

Lemma ledger_append_shape (df : ledger) (cs : snapshot) (run_dt : Z) :
  exists added new_round st,
    update_storico df cs run_dt = Some (df ++ added, new_round, st)
    /\ (df = [] -> added = first_rows cs run_dt).
Proof.
  destruct df as [|r0 df0] eqn:Edf.
  - eexists _, _, _. split; reflexivity.
  - assert (Hne : df <> []) by (subst; discriminate). rewrite <- Edf.
    destruct (run_added cs run_dt Hne) as (m & r' & st' & _ & Hrun & _).
    rewrite Hrun. eexists _, _, _. split; [reflexivity|].
    intros ->. congruence.
Qed.

Lemma team_entries_single (r : row) : stable_sort le_giornata [r] = [r].
Proof. reflexivity. Qed.

Lemma latest_score_none_filter (df : ledger) (k : string) :
  latest_score df k = None -> filter (same_norm k) df = [].
Proof.
  intros H. apply filter_same_norm_nil.
  destruct (in_index df k) eqn:E; [|reflexivity].
  apply latest_score_in_index in E. destruct E as [p Hp]. congruence.
Qed.

Lemma latest_after_run (df df' : ledger) (cs : snapshot) (run_dt : Z)
    (new_round : option Z) (st : stats) (k : string) (obj : team_obj) :
  dict_wf cs ->
  update_storico df cs run_dt = Some (df', new_round, st) ->
  In (k, obj) cs ->
  latest_score df' k = Some (tracked df k obj).
Proof.
  intros Hwf Hrun Hin.
  assert (Hget : dict_get cs k = Some obj) by now apply dict_get_of_in.
  destruct df as [|r0 df0] eqn:Edf.
  - cbn in Hrun. injection Hrun as <- _ _.
    unfold latest_score, team_entries, tracked.
    rewrite (first_rows_flat_map run_dt Hwf), filter_rows_for by exact Hwf.
    assert (E : existsb (String.eqb k) (map fst cs) = true).
    { apply existsb_exists. exists k. split; [|apply String.eqb_refl].
      change k with (fst (k, obj)). now apply in_map. }
    rewrite E, (@row_for_some _ cs 1 run_dt k obj Hget). reflexivity.
  - assert (Hne : df <> []) by (subst; discriminate). rewrite <- Edf in *.
    clear Edf.
    destruct (giornata_max_spec Hne) as (m & _ & Hmax).
    destruct (@added_rows_of_team _ df df' cs run_dt m new_round st
                Hwf Hmax Hrun) as (added & -> & Hteam & _).
    specialize (Hteam k obj Hin).
    unfold tracked. unfold latest_score at 1. unfold team_entries.
    rewrite filter_app, Hteam.
    destruct (latest_score df k) as [p|] eqn:El.
    + destruct (score_changed (obj_Punti obj) p).
      * rewrite stable_sort_snoc_last; [reflexivity|].
        intros y Hy. apply filter_In in Hy. destruct Hy as [Hy _].
        destruct Hmax as [Hall _]. rewrite Forall_forall in Hall.
        specialize (Hall y Hy). unfold le_giornata. simpl.
        apply Z.leb_le. lia.
      * rewrite app_nil_r. exact El.
    + now rewrite (latest_score_none_filter _ _ El).
Qed.

(** X13. After a run the ledger follows the snapshot: the latest total
    of each team of the snapshot is the score of the snapshot, but for
    a team found unchanged, which keeps the total it had.  [cs] has no
    key twice, as a dict. *)
Theorem ledger_follows_snapshot (df df' : ledger) (cs : snapshot)
    (run_dt : Z) (new_round : option Z) (st : stats) (k : string)
    (obj : team_obj) :
  dict_wf cs ->
  update_storico df cs run_dt = Some (df', new_round, st) ->
  In (k, obj) cs ->
  latest_score df' k
  = Some (match latest_score df k with
          | Some p =>
              if score_changed (obj_Punti obj) p then obj_Punti obj else p
          | None => obj_Punti obj
          end).
Proof. exact (@latest_after_run df df' cs run_dt new_round st k obj). Qed.

Lemma filter_none (A : Type) (P : A -> bool) (l : list A) :
  (forall x, In x l -> P x = false) -> filter P l = [].
Proof.
  induction l as [|x l IH]; intros H; [reflexivity|].
  simpl. rewrite (H x) by now left. apply IH. intros y Hy. apply H. now right.
Qed.

(** X14. A run opens a round on a ledger with rows exactly when the
    score of some team of the snapshot differs from the latest total
    of the team in the ledger by more than [float_eps]. *)
Theorem round_opens_iff_changed (df df' : ledger) (cs : snapshot)
    (run_dt : Z) (new_round : option Z) (st : stats) :
  df <> [] ->
  update_storico df cs run_dt = Some (df', new_round, st) ->
  (new_round <> None
   <-> exists k obj p,
         In (k, obj) cs /\ latest_score df k = Some p
         /\ score_changed (obj_Punti obj) p = true).
Proof.
  intros Hne Hrun.
  destruct (run_added cs run_dt Hne) as (m & r' & st' & _ & Hrun' & Hr).
  rewrite Hrun' in Hrun. injection Hrun as _ <- _. subst r'.
  unfold changed_of. split.
  - intros H.
    destruct (filter (changed_item (df_last df)) cs) as [|[k obj] l] eqn:E;
      [now destruct H|].
    assert (Hin : In (k, obj) (filter (changed_item (df_last df)) cs))
      by (rewrite E; now left).
    apply filter_In in Hin. destruct Hin as [Hin Hc].
    rewrite changed_item_latest in Hc.
    destruct (latest_score df k) as [p|] eqn:El; [|discriminate].
    now exists k, obj, p.
  - intros (k & obj & p & Hin & El & Hc).
    assert (Hf : In (k, obj) (filter (changed_item (df_last df)) cs)).
    { apply filter_In. split; [exact Hin|].
      now rewrite changed_item_latest, El. }
    destruct (filter (changed_item (df_last df)) cs); [destruct Hf|].
    discriminate.
Qed.

Lemma ledger_nonempty_after_run (df df' : ledger) (cs : snapshot)
    (run_dt : Z) (new_round : option Z) (st : stats) :
  cs <> [] ->
  update_storico df cs run_dt = Some (df', new_round, st) ->
  df' <> [].
Proof.
  intros Hcs Hrun. destruct (ledger_append_shape df cs run_dt)
    as (added & r' & st' & Hrun' & Hfirst).
  rewrite Hrun' in Hrun. injection Hrun as <- _ _.
  destruct df as [|r0 df0]; [|discriminate].
  rewrite Hfirst by reflexivity. destruct cs; [congruence | discriminate].
Qed.

Context {Se : ScoreEps Sc}.

(** X15. A second run with the same snapshot changes nothing: it gives
    the ledger back, announces no round, and counts every team as
    unchanged. *)
Theorem second_run_changes_nothing (df df' : ledger) (cs : snapshot)
    (run_dt run_dt' : Z) (new_round : option Z) (st : stats) :
  dict_wf cs ->
  cs <> [] ->
  update_storico df cs run_dt = Some (df', new_round, st) ->
  update_storico df' cs run_dt'
  = Some (df', None, mkStats 0 0 (List.length cs) 1).
Proof.
  intros Hwf Hcs Hrun.
  assert (Hne : df' <> []).
  { eapply ledger_nonempty_after_run; eauto. }
  assert (Hsame : forall k obj, In (k, obj) cs ->
             exists p, latest_score df' k = Some p
                       /\ score_changed (obj_Punti obj) p = false).
  { intros k obj Hin. eexists. split; [eapply latest_after_run; eauto|].
    unfold tracked. destruct (latest_score df k) as [p|].
    - destruct (score_changed (obj_Punti obj) p) eqn:E;
        [apply unchanged_refl | exact E].
    - apply unchanged_refl. }
  destruct (run_shape cs run_dt' Hne) as (m & _ & _ & _ & _ & _ & Hrun').
  cbv zeta in Hrun'. rewrite Hrun'.
  pose proof (classify_lengths (df_last df') cs) as Hlen.
  assert (Ec : changed_of (df_last df') cs = []).
  { unfold changed_of. rewrite filter_none; [reflexivity|].
    intros [k obj] Hin. rewrite changed_item_latest.
    destruct (Hsame k obj Hin) as (p & -> & Hp). exact Hp. }
  assert (En : new_of (df_last df') cs = []).
  { unfold new_of. rewrite filter_none; [reflexivity|].
    intros [k obj] Hin. cbn [fst]. rewrite new_item_latest.
    now destruct (Hsame k obj Hin) as (p & -> & Hp). }
  rewrite Ec, En in *. cbn [is_empty negb]. simpl in Hlen.
  now rewrite Hlen.
Qed.

End AfterRun.

(** ** More on the views *)

Section SortedUnique.

Variable A : Type.
Variable le : A -> A -> bool.

Lemma sorted_unique (l1 l2 : list A) :
  StronglySorted (fun a b => le a b = true) l1 ->
  StronglySorted (fun a b => le a b = true) l2 ->
  Permutation l1 l2 ->
  (forall a b, In a l1 -> In b l1 -> le a b = true -> le b a = true -> a = b) ->
  l1 = l2.
Proof.
  intros H1. revert l2.
  induction H1 as [|a t1 Hs1 IH Ha]; intros l2 H2 HP Hanti.
  - symmetry. now apply Permutation_nil.
  - destruct H2 as [|b t2 Hs2 Hb].
    + apply Permutation_sym, Permutation_nil in HP. discriminate.
    + assert (Eab : a = b).
      { assert (Ha2 : In a (b :: t2))
          by (apply (Permutation_in _ HP); now left).
        assert (Hb1 : In b (a :: t1))
          by (apply (Permutation_in _ (Permutation_sym HP)); now left).
        destruct Ha2 as [E|Ha2]; [now symmetry|].
        destruct Hb1 as [E|Hb1]; [exact E|].
        rewrite Forall_forall in Ha, Hb.
        apply Hanti; [now left | now right | now apply Ha | now apply Hb]. }
      subst b. f_equal. apply IH; [exact Hs2 | |].
      * now apply Permutation_cons_inv with a.
      * intros x y Hx Hy. apply Hanti; now right.
Qed.

Hypothesis le_total : forall a b, le a b = false -> le b a = true.
Hypothesis le_trans : forall a b c, le a b = true -> le b c = true -> le a c = true.

(** A sort by an order that ties no two rows of the list does not
    depend on the order in which the rows come. *)
Lemma stable_sort_perm_eq (l l' : list A) :
  Permutation l l' ->
  (forall a b, In a l -> In b l -> le a b = true -> le b a = true -> a = b) ->
  stable_sort le l = stable_sort le l'.
Proof.
  intros HP Hanti. apply sorted_unique.
  - now apply stable_sort_sorted.
  - now apply stable_sort_sorted.
  - now rewrite !stable_sort_perm.
  - intros a b Ha Hb. apply Hanti; now apply (stable_sort_in le l).
Qed.

End SortedUnique.

Lemma filter_split_length (A : Type) (f : A -> bool) (l : list A) :
  (List.length (filter f l) + List.length (filter (fun x => negb (f x)) l))%nat
  = List.length l.
Proof.
  induction l as [|x l IH]; [reflexivity|].
  simpl. destruct (f x); simpl; lia.
Qed.

Lemma nodup_map_inj (A B : Type) (f : A -> B) (l : list A) (a b : A) :
  NoDup (map f l) -> In a l -> In b l -> f a = f b -> a = b.
Proof.
  induction l as [|x l IH]; simpl; [tauto|].
  intros H. inversion H as [|? ? Hnot H']; subst.
  intros [->|Ha] [->|Hb] E; auto.
  - destruct Hnot. rewrite E. now apply in_map.
  - destruct Hnot. rewrite <- E. now apply in_map.
Qed.

Section ViewsMore.

Context {Sc : Score}.

Lemma consecutive_length (es : ledger) :
  List.length (consecutive es) = Nat.pred (List.length es).
Proof.
  induction es as [|e es IH]; [reflexivity|].
  destruct es as [|e' es]; [reflexivity|].
  change (consecutive (e :: e' :: es)) with ((e, e') :: consecutive (e' :: es)).
  cbn [List.length] in *. now rewrite IH.
Qed.

Lemma consecutive_fst_in (es : ledger) (pe : row * row) :
  In pe (consecutive es) -> In (fst pe) es.
Proof.
  induction es as [|e es IH]; [intros []|].
  destruct es as [|e' es]; [intros []|].
  change (consecutive (e :: e' :: es)) with ((e, e') :: consecutive (e' :: es)).
  intros [<-|H]; [now left | right; auto].
Qed.

Lemma filter_all (A : Type) (f : A -> bool) (l : list A) :
  (forall x, In x l -> f x = true) -> filter f l = l.
Proof.
  induction l as [|x l IH]; intros H; [reflexivity|].
  cbn [filter]. rewrite (H x) by now left.
  f_equal. apply IH. intros y Hy. apply H. now right.
Qed.

(** A history gives at most one row less than it has entries, and just
    that when its totals are numbers. *)
Lemma known_deltas_length (es : ledger) :
  (S (List.length (known_deltas es)) <= Nat.max 1 (List.length es))%nat
  /\ (Forall (fun r => score_isnan (punteggio_totale r) = false) es ->
      S (List.length (known_deltas es)) = Nat.max 1 (List.length es)).
Proof.
  unfold known_deltas. rewrite length_map. split.
  - pose proof (filter_length_le
                  (fun pe : row * row =>
                     negb (score_isnan (punteggio_totale (fst pe))))
                  (consecutive es)) as H.
    rewrite consecutive_length in H. lia.
  - intros Hn. rewrite filter_all, consecutive_length; [lia|].
    intros pe Hpe. apply consecutive_fst_in in Hpe.
    rewrite Forall_forall in Hn. now rewrite (Hn _ Hpe).
Qed.

(** When the totals of a history are numbers, its rows are those of
    all its entries but the first. *)
Lemma known_deltas_claimed (es : ledger) :
  Forall (fun r => score_isnan (punteggio_totale r) = false) es ->
  known_deltas es = claimed_deltas es.
Proof.
  intros Hn. unfold known_deltas, claimed_deltas.
  rewrite filter_all; [reflexivity|].
  intros pe Hpe. apply consecutive_fst_in in Hpe.
  rewrite Forall_forall in Hn. now rewrite (Hn _ Hpe).
Qed.

Lemma team_deltas_length (df : ledger) (k : string) :
  in_index df k = true ->
  (S (List.length (team_deltas df k))
   <= List.length (filter (same_norm k) df))%nat
  /\ (Forall (fun r => score_isnan (punteggio_totale r) = false) df ->
      S (List.length (team_deltas df k))
      = List.length (filter (same_norm k) df)).
Proof.
  intros H. unfold team_deltas.
  destruct (known_deltas_length (team_entries df k)) as [Hle Heq].
  unfold team_entries in *. rewrite stable_sort_length in *.
  rewrite in_index_filter in H.
  assert (Hpos : Nat.max 1 (List.length (filter (same_norm k) df))
                 = List.length (filter (same_norm k) df)).
  { destruct (filter (same_norm k) df); [discriminate | simpl; lia]. }
  rewrite Hpos in *. split; [exact Hle|].
  intros Hn. apply Heq. apply Forall_forall. intros r Hr.
  apply (proj1 (stable_sort_in le_giornata _ _)), filter_In in Hr.
  rewrite Forall_forall in Hn. now apply Hn.
Qed.

Lemma filter_other_team (df : ledger) (k k' : string) :
  k' <> k ->
  filter (same_norm k') (filter (fun r => negb (same_norm k r)) df)
  = filter (same_norm k') df.
Proof.
  intros Hk. induction df as [|x df IH]; [reflexivity|].
  simpl. destruct (same_norm k x) eqn:E; simpl.
  - rewrite IH. unfold same_norm in *. apply String.eqb_eq in E.
    destruct (String.eqb_spec (squadra_norm x) k'); [congruence | reflexivity].
  - rewrite IH. reflexivity.
Qed.

Lemma deltas_count (keys : list string) :
  NoDup keys ->
  forall df : ledger,
    (forall r, In r df -> In (squadra_norm r) keys) ->
    (forall k, In k keys -> in_index df k = true) ->
    (List.length (flat_map (team_deltas df) keys) + List.length keys
     <= List.length df)%nat
    /\ (Forall (fun r => score_isnan (punteggio_totale r) = false) df ->
        (List.length (flat_map (team_deltas df) keys) + List.length keys)%nat
        = List.length df).
Proof.
  induction 1 as [|k ks Hk Hnd IH]; intros df Hin Hall.
  - destruct df as [|r df]; [split; reflexivity|]. destruct (Hin r). now left.
  - cbn [flat_map]. rewrite length_app.
    set (rest := filter (fun r => negb (same_norm k r)) df).
    assert (Hrest : flat_map (team_deltas df) ks
                    = flat_map (team_deltas rest) ks).
    { apply flat_map_ext_in. intros k' Hk'. unfold team_deltas, team_entries.
      unfold rest. rewrite filter_other_team; [reflexivity|].
      intros ->. contradiction. }
    rewrite Hrest.
    assert (Hk' : forall k', In k' ks -> k' <> k)
      by (intros k' H' ->; contradiction).
    specialize (IH rest).
    destruct IH as [IHle IHeq].
    { intros r Hr. unfold rest in Hr. apply filter_In in Hr.
      destruct Hr as [Hr Hn]. destruct (Hin r Hr) as [E|E]; [|exact E].
      unfold same_norm in Hn. rewrite <- E, String.eqb_refl in Hn.
      discriminate. }
    { intros k' Hin'. rewrite in_index_filter. unfold rest.
      rewrite filter_other_team by auto.
      rewrite <- in_index_filter. apply Hall. now right. }
    destruct (team_deltas_length df k (Hall k (or_introl eq_refl)))
      as [Ekle Ekeq].
    pose proof (filter_split_length (same_norm k) df) as Es.
    fold rest in Es. split.
    + simpl. lia.
    + intros Hn. specialize (Ekeq Hn).
      assert (Hn' : Forall (fun r => score_isnan (punteggio_totale r) = false)
                           rest).
      { apply Forall_forall. intros r Hr. unfold rest in Hr.
        apply filter_In in Hr. rewrite Forall_forall in Hn.
        now apply Hn. }
      specialize (IHeq Hn'). simpl. lia.
Qed.

(** X16. The view of the deltas has at most one row less per team than
    the ledger has entries, and just that when no total of the ledger
    is NaN: its rows and the teams of the ledger are then together as
    many as the rows of the ledger. *)
Theorem deltas_row_count (df : ledger) :
  (List.length (build_punteggi_giornata df) + List.length (distinct_norms df)
   <= List.length df)%nat
  /\ (Forall (fun r => score_isnan (punteggio_totale r) = false) df ->
      (List.length (build_punteggi_giornata df)
       + List.length (distinct_norms df))%nat
      = List.length df).
Proof.
  destruct df as [|r0 df0] eqn:Edf; [split; reflexivity|].
  rewrite <- Edf. clear Edf.
  assert (E : List.length (build_punteggi_giornata df)
              = List.length (flat_map (team_deltas df) (distinct_norms df))).
  { destruct df as [|r df]; [reflexivity|].
    unfold build_punteggi_giornata. cbn [is_empty]. cbv zeta.
    rewrite stable_sort_length. apply Permutation_length, delta_rows_by_team. }
  rewrite E. destruct (distinct_norms_spec df) as [Hnd Hin].
  apply deltas_count; [exact Hnd | |].
  - intros r Hr. apply Hin. now exists r.
  - intros k Hk. apply in_index_iff, Hin, Hk.
Qed.

Lemma le_norm_giornata_antisym (df : ledger) (a b : row) :
  NoDup (map row_key df) -> In a df -> In b df ->
  le_norm_giornata a b = true -> le_norm_giornata b a = true -> a = b.
Proof.
  intros Hnd Ha Hb Hab Hba. apply (nodup_map_inj row_key df a b Hnd Ha Hb).
  unfold le_norm_giornata in *.
  rewrite (String.compare_antisym (squadra_norm b)) in Hba.
  destruct (String.compare (squadra_norm a) (squadra_norm b)) eqn:E;
    simpl in Hba; try discriminate.
  apply String.compare_eq_iff in E. unfold row_key.
  apply Z.leb_le in Hab, Hba. f_equal; [lia | exact E].
Qed.

(** X17. What [save_excel] writes: the sheet "Storico" has the rows
    of the ledger, whatever the ledger; and, when no two rows of the
    ledger have one (giornata, squadra_norm) pair, the two other sheets
    are the views of the ledger as it was given: sorting the ledger
    first does not change them. *)
Theorem save_excel_views (argsort : list score -> list nat) (df : ledger) :
  Permutation (fst (fst (save_excel argsort df))) df
  /\ (NoDup (map row_key df) ->
      snd (fst (save_excel argsort df)) = build_punteggi_giornata df
      /\ snd (save_excel argsort df) = build_ultima_classifica argsort df).
Proof.
  unfold save_excel. cbv zeta. cbn [fst snd].
  set (sorted := stable_sort le_giornata_punteggio df).
  assert (HP : Permutation df sorted)
    by (symmetry; apply stable_sort_perm).
  split; [now symmetry|]. intros Hnd.
  assert (Hsort : sort_norm_giornata sorted = sort_norm_giornata df).
  { symmetry. apply stable_sort_perm_eq.
    - apply le_norm_giornata_total.
    - apply le_norm_giornata_trans.
    - exact HP.
    - intros a b. now apply le_norm_giornata_antisym. }
  assert (Hempty : is_empty sorted = is_empty df).
  { apply Permutation_length in HP.
    destruct df, sorted; simpl in *; congruence. }
  unfold build_punteggi_giornata, build_ultima_classifica.
  now rewrite Hempty, Hsort.
Qed.

End ViewsMore.

(** ** Further properties *)

Section Further.

Context {Sc : Score}.

(** X18. The date given to the rows put back into a round: the latest
    date recorded in the round, or the fallback when the ledger has no
    row of the round with a date (and so for a round that the ledger
    does not have). *)
Theorem prev_date_or_fallback (df : ledger) (g fallback_dt : Z) :
  let dt := compute_prev_giornata_date df g fallback_dt in
  (latest_recorded df g dt \/ (none_recorded df g /\ dt = fallback_dt))
  /\ ((forall r, In r df -> giornata r <> g) -> dt = fallback_dt).
Proof.
  cbv zeta. split; [apply compute_prev_giornata_date_spec|].
  intros Habs.
  destruct (compute_prev_giornata_date_spec df g fallback_dt) as [H|[_ H]];
    [|exact H].
  destruct H as [(r & Hr & Hg & _) _]. now destruct (Habs r Hr).
Qed.

Lemma collect_keys (l : list raw_row) (k : string) :
  In k (map fst (collect_current_scores l)) ->
  exists r, In r l /\ normalize_name (raw_Squadra r) = k.
Proof.
  induction l as [|r l IH] using rev_ind; [intros []|].
  rewrite collect_snoc. unfold collect_step.
  set (kr := normalize_name (raw_Squadra r)).
  assert (Hold : In k (map fst (collect_current_scores l)) ->
                 exists r0, In r0 (l ++ [r])
                            /\ normalize_name (raw_Squadra r0) = k).
  { intros H. destruct (IH H) as (r0 & Hr0 & Hk).
    exists r0. split; [apply in_or_app; now left | exact Hk]. }
  assert (Hset : forall v,
             In k (map fst (dict_set (collect_current_scores l) kr v)) ->
             exists r0, In r0 (l ++ [r])
                        /\ normalize_name (raw_Squadra r0) = k).
  { intros v H. rewrite dict_set_keys in H.
    destruct (existsb _ _); [now apply Hold|].
    apply in_app_or in H. destruct H as [H|[<-|[]]]; [now apply Hold|].
    exists r. split; [apply in_or_app; right; now left | reflexivity]. }
  destruct (dict_get _ kr) as [old|]; [destruct (score_gtb _ _)|].
  - apply Hset.
  - exact Hold.
  - apply Hset.
Qed.

(** X19. Every key of the snapshot is the normalized name of a row
    read, and is left as it is by [normalize_name]: the keys that
    [apply_target_filter] and [update_storico] compare are normalized
    names. *)
Theorem snapshot_keys_normalized (all_rows : list raw_row) (k : string) :
  In k (map fst (collect_current_scores all_rows)) ->
  normalize_name k = k
  /\ exists r, In r all_rows /\ normalize_name (raw_Squadra r) = k.
Proof.
  intros H. destruct (collect_keys _ _ H) as (r & Hr & Hk).
  split; [|now exists r]. rewrite <- Hk. apply normalize_name_twice.
Qed.

End Further.

Lemma fetch_loop_bounds (session : nat -> get_outcome) (attempts : nat) :
  forall (calls : nat) (last_exc : option fetch_exc),
    let run := fetch_loop session attempts calls last_exc in
    (calls <= sleeps run)%nat
    /\ (gets run <= calls + attempts)%nat
    /\ match outcome run with
       | Returned text =>
           gets run = S (sleeps run) /\ text <> EmptyString
           /\ session (sleeps run) = Response 200 text
       | RaisedLast _ =>
           gets run = sleeps run /\ gets run = (calls + attempts)%nat
       | RaisedNone =>
           gets run = sleeps run /\ attempts = 0%nat /\ last_exc = None
       end.
Proof.
  induction attempts as [|n IH]; intros calls last_exc; cbv zeta.
  - simpl. destruct last_exc; simpl; repeat split; lia.
  - cbn [fetch_loop].
    assert (Hstep : forall e,
               let run := fetch_loop session n (S calls) (Some e) in
               (calls <= sleeps run)%nat
               /\ (gets run <= calls + S n)%nat
               /\ match outcome run with
                  | Returned text =>
                      gets run = S (sleeps run) /\ text <> EmptyString
                      /\ session (sleeps run) = Response 200 text
                  | RaisedLast _ =>
                      gets run = sleeps run /\ gets run = (calls + S n)%nat
                  | RaisedNone =>
                      gets run = sleeps run /\ S n = 0%nat /\ last_exc = None
                  end).
    { intros e. cbv zeta. specialize (IH (S calls) (Some e)). cbv zeta in IH.
      destruct IH as (H1 & H2 & H3). split; [lia|]. split; [lia|].
      destruct (outcome (fetch_loop session n (S calls) (Some e))).
      - exact H3.
      - destruct H3. split; lia.
      - destruct H3 as (_ & _ & H3). discriminate. }
    destruct (session calls) as [status_code text|exc] eqn:E.
    + destruct (response_ok status_code text) eqn:Eok; [|apply Hstep].
      simpl. unfold response_ok in Eok. apply andb_true_iff in Eok.
      destruct Eok as [E1 E2]. apply Z.eqb_eq in E1. subst status_code.
      repeat split; try lia; [|exact E].
      intros ->. discriminate.
    + apply Hstep.
Qed.

(** X20. Whatever the site does, [fetch_html] makes at most [retries]
    calls, and sleeps once after each call that fails.  It returns only
    a body that is not empty, that of the last call made, answered
    with status 200; it raises [None] only when [retries] gives no
    turn. *)
Theorem fetch_html_bounded (session : nat -> get_outcome) (retries : Z) :
  let run := fetch_html session retries in
  (gets run <= Z.to_nat retries)%nat
  /\ match outcome run with
     | Returned text =>
         gets run = S (sleeps run) /\ text <> EmptyString
         /\ session (sleeps run) = Response 200 text
     | RaisedLast _ =>
         gets run = sleeps run /\ gets run = Z.to_nat retries
     | RaisedNone => gets run = 0%nat /\ sleeps run = 0%nat /\ retries <= 0
     end.
Proof.
  cbv zeta. unfold fetch_html.
  destruct (fetch_loop_bounds session (Z.to_nat retries) 0 None)
    as (_ & H2 & H3).
  split; [exact H2|].
  destruct (outcome (fetch_loop session (Z.to_nat retries) 0 None)).
  - exact H3.
  - exact H3.
  - destruct H3 as (H3 & H4 & _). repeat split; lia.
Qed.

(** ** The standings after a run *)

Section StandingsAfterRun.

Context {Sc : Score}.

Lemma in_number_rows (rows : ledger) (r : row) :
  In r rows ->
  exists pos,
    In (mkStanding pos (Squadra r) (punteggio_totale r) (giornata r)
                   (data_download r))
       (number_rows rows).
Proof.
  unfold number_rows. generalize 1%nat as start.
  induction rows as [|x rows IH]; intros start; [intros []|].
  intros [->|Hr].
  - exists start. simpl. now left.
  - destruct (IH (S start) Hr) as [pos Hpos]. exists pos. simpl. now right.
Qed.

(** The latest entry of a team is shown in the standings. *)
Lemma standing_of_latest (argsort : list score -> list nat) (df : ledger)
    (k : string) (r : row) :
  argsort_ok argsort ->
  last_opt (team_entries df k) = Some r ->
  exists pos,
    In (mkStanding pos (Squadra r) (punteggio_totale r) (giornata r)
                   (data_download r))
       (build_ultima_classifica argsort df).
Proof.
  intros Hok Hlast.
  assert (Hne : df <> []).
  { intros ->. discriminate. }
  assert (HL : In r (groupby_tail1 (sort_norm_giornata df))).
  { rewrite <- filter_sort_norm_giornata, <- find_groupby_tail1 in Hlast.
    now apply find_some in Hlast. }
  set (L := groupby_tail1 (sort_norm_giornata df)) in *.
  assert (Hout : build_ultima_classifica argsort df
                 = number_rows
                     (take L (nargsort_desc argsort (map punteggio_totale L)))).
  { destruct df; [congruence | reflexivity]. }
  rewrite Hout. apply in_number_rows.
  eapply Permutation_in; [|exact HL]. symmetry. apply take_perm.
  rewrite <- (length_map punteggio_totale L).
  now apply nargsort_desc_perm.
Qed.

Lemma last_entry_after_run (df df' : ledger) (cs : snapshot) (run_dt : Z)
    (new_round : option Z) (st : stats) (k : string) (obj : team_obj) :
  dict_wf cs ->
  update_storico df cs run_dt = Some (df', new_round, st) ->
  In (k, obj) cs ->
  match latest_score df k with
  | Some p => score_changed (obj_Punti obj) p = true
  | None => True
  end ->
  exists r,
    last_opt (team_entries df' k) = Some r
    /\ Squadra r = obj_Squadra obj /\ punteggio_totale r = obj_Punti obj.
Proof.
  intros Hwf Hrun Hin Hcond.
  assert (Hget : dict_get cs k = Some obj) by now apply dict_get_of_in.
  destruct df as [|r0 df0] eqn:Edf.
  - cbn in Hrun. injection Hrun as <- _ _. unfold team_entries.
    rewrite (first_rows_flat_map run_dt Hwf), filter_rows_for by exact Hwf.
    assert (E : existsb (String.eqb k) (map fst cs) = true).
    { apply existsb_exists. exists k. split; [|apply String.eqb_refl].
      change k with (fst (k, obj)). now apply in_map. }
    rewrite E, (@row_for_some _ cs 1 run_dt k obj Hget).
    eexists. split; [reflexivity|]. split; reflexivity.
  - assert (Hne : df <> []) by (subst; discriminate). rewrite <- Edf in *.
    clear Edf.
    destruct (giornata_max_spec Hne) as (m & _ & Hmax).
    destruct (@added_rows_of_team _ df df' cs run_dt m new_round st
                Hwf Hmax Hrun) as (added & -> & Hteam & _).
    specialize (Hteam k obj Hin). unfold team_entries.
    rewrite filter_app, Hteam.
    destruct (latest_score df k) as [p|] eqn:El.
    + rewrite Hcond. eexists. split.
      * apply stable_sort_snoc_last.
        intros y Hy. apply filter_In in Hy. destruct Hy as [Hy _].
        destruct Hmax as [Hall _]. rewrite Forall_forall in Hall.
        specialize (Hall y Hy). unfold le_giornata. simpl.
        apply Z.leb_le. lia.
      * split; reflexivity.
    + rewrite (latest_score_none_filter _ _ El).
      eexists. split; [reflexivity|]. split; reflexivity.
Qed.

(** X21. After a run the standings show every team of the snapshot that
    was new or whose score had changed with the name and the score of
    the snapshot. *)
Theorem standings_show_snapshot (argsort : list score -> list nat)
    (df df' : ledger) (cs : snapshot) (run_dt : Z) (new_round : option Z)
    (st : stats) (k : string) (obj : team_obj) :
  argsort_ok argsort ->
  dict_wf cs ->
  update_storico df cs run_dt = Some (df', new_round, st) ->
  In (k, obj) cs ->
  match latest_score df k with
  | Some p => score_changed (obj_Punti obj) p = true
  | None => True
  end ->
  exists s,
    In s (build_ultima_classifica argsort df')
    /\ s_Squadra s = obj_Squadra obj
    /\ s_punteggio_totale s = obj_Punti obj.
Proof.
  intros Hok Hwf Hrun Hin Hcond.
  destruct (@last_entry_after_run df df' cs run_dt new_round st k obj
              Hwf Hrun Hin Hcond)
    as (r & Hlast & Hname & Htot).
  destruct (@standing_of_latest argsort df' k r Hok Hlast) as [pos Hpos].
  eexists. split; [exact Hpos|]. split; simpl; assumption.
Qed.

End StandingsAfterRun.

(** ** The further properties on the sample data *)

#[export] Instance ZScoreEps : ScoreEps ZScore.
Proof. split. intros a. simpl. now rewrite Z.sub_diag. Qed.

Lemma collect_keeps_best_witness :
  let scores := collect_current_scores
                  [Samples.seen_upper; Samples.seen_other; Samples.seen_lower] in
  dict_wf scores
  /\ (forall r,
        In r [Samples.seen_upper; Samples.seen_other; Samples.seen_lower] ->
        exists o, dict_get scores (normalize_name (raw_Squadra r)) = Some o
                  /\ score_gtb (raw_Punti r) (obj_Punti o) = false)
  /\ (forall k o, dict_get scores k = Some o ->
        exists r,
          In r [Samples.seen_upper; Samples.seen_other; Samples.seen_lower]
          /\ normalize_name (raw_Squadra r) = k
          /\ raw_Squadra r = obj_Squadra o
          /\ raw_Punti r = obj_Punti o).
Proof.
  exact (@collect_keeps_best ZScore ZScoreOrder
           [Samples.seen_upper; Samples.seen_other; Samples.seen_lower]).
Defined.

Lemma main_skips_iff_unchanged_witness :
  main_skips (Some 2) (mkStats 1 1 1 0) = true
  <-> Samples.round1_after = Samples.round1.
Proof.
  apply (@main_skips_iff_unchanged ZScore Samples.round1 Samples.round1_after
           Samples.snap_abc 200 (Some 2) (mkStats 1 1 1 0)).
  - discriminate.
  - reflexivity.
Defined.

Lemma max_round_after_run_witness : is_max_round Samples.round1_after (1 + 1).
Proof.
  apply (@max_round_after_run ZScore Samples.round1 Samples.round1_after
           Samples.snap_abc 200 1 (Some 2) (mkStats 1 1 1 0)).
  - split; [repeat constructor; simpl; lia | constructor; reflexivity].
  - reflexivity.
Defined.

Lemma rows_added_per_team_witness :
  exists added,
    Samples.round1_after = Samples.round1 ++ added
    /\ (forall k obj, In (k, obj) Samples.snap_abc ->
          filter (same_norm k) added
          = match latest_score Samples.round1 k with
            | None =>
                [mkRow 1 (Some (compute_prev_giornata_date Samples.round1 1 200))
                       (obj_Squadra obj) k (obj_Punti obj)]
            | Some p =>
                if score_changed (obj_Punti obj) p
                then [mkRow (1 + 1) (Some 200) (obj_Squadra obj) k
                            (obj_Punti obj)]
                else []
            end)
    /\ (forall r, In r added -> In (squadra_norm r) (map fst Samples.snap_abc)).
Proof.
  apply (@rows_added_per_team ZScore Samples.round1 Samples.round1_after
           Samples.snap_abc 200 1 (Some 2) (mkStats 1 1 1 0)).
  - unfold dict_wf, Samples.snap_abc. simpl. nodup_by_cases.
  - split; [repeat constructor; simpl; lia | constructor; reflexivity].
  - reflexivity.
Defined.

Lemma ledger_follows_snapshot_witness :
  latest_score Samples.round1_after "b" = Some (25 : @score ZScore).
Proof.
  apply (@ledger_follows_snapshot ZScore Samples.round1 Samples.round1_after
           Samples.snap_abc 200 (Some 2) (mkStats 1 1 1 0) "b"
           (mkObj "B" (25 : @score ZScore))).
  - unfold dict_wf, Samples.snap_abc. simpl. nodup_by_cases.
  - reflexivity.
  - simpl. tauto.
Defined.

Lemma round_opens_iff_changed_witness :
  Some 2 <> None
  <-> exists k obj p,
        In (k, obj) Samples.snap_abc
        /\ latest_score Samples.round1 k = Some p
        /\ score_changed (obj_Punti obj) p = true.
Proof.
  apply (@round_opens_iff_changed ZScore Samples.round1 Samples.round1_after
           Samples.snap_abc 200 (Some 2) (mkStats 1 1 1 0)).
  - discriminate.
  - reflexivity.
Defined.

Lemma second_run_changes_nothing_witness :
  update_storico Samples.round1_after Samples.snap_abc 300
  = Some (Samples.round1_after, None,
          mkStats 0 0 (List.length Samples.snap_abc) 1).
Proof.
  apply (@second_run_changes_nothing ZScore ZScoreEps Samples.round1
           Samples.round1_after Samples.snap_abc 200 300 (Some 2)
           (mkStats 1 1 1 0)).
  - unfold dict_wf, Samples.snap_abc. simpl. nodup_by_cases.
  - discriminate.
  - reflexivity.
Defined.

Lemma deltas_row_count_witness :
  Forall (fun r => score_isnan (punteggio_totale r) = false)
         Samples.three_rounds
  /\ (List.length (build_punteggi_giornata Samples.three_rounds)
      + List.length (distinct_norms Samples.three_rounds))%nat
     = List.length Samples.three_rounds.
Proof.
  assert (H : Forall (fun r => score_isnan (punteggio_totale r) = false)
                     Samples.three_rounds)
    by (repeat constructor).
  split; [exact H|].
  exact (proj2 (@deltas_row_count ZScore Samples.three_rounds) H).
Defined.

Lemma save_excel_views_witness :
  NoDup (map row_key Samples.three_rounds)
  /\ snd (fst (save_excel argsort_stable Samples.three_rounds))
     = build_punteggi_giornata Samples.three_rounds
  /\ snd (save_excel argsort_stable Samples.three_rounds)
     = build_ultima_classifica argsort_stable Samples.three_rounds.
Proof.
  assert (H : NoDup (map row_key Samples.three_rounds))
    by (unfold Samples.three_rounds; simpl; nodup_by_cases).
  split; [exact H|].
  exact (proj2 (@save_excel_views ZScore argsort_stable
                  Samples.three_rounds) H).
Defined.

Lemma snapshot_keys_normalized_witness :
  normalize_name "real forward" = "real forward"
  /\ exists r,
       In r [Samples.seen_upper; Samples.seen_other]
       /\ normalize_name (raw_Squadra r) = "real forward".
Proof.
  apply (@snapshot_keys_normalized ZScore
           [Samples.seen_upper; Samples.seen_other] "real forward").
  simpl. tauto.
Defined.

Lemma standings_show_snapshot_witness :
  exists s,
    In s (build_ultima_classifica argsort_stable Samples.round1_after)
    /\ s_Squadra s = "C"
    /\ s_punteggio_totale s = (5 : @score ZScore).
Proof.
  apply (@standings_show_snapshot ZScore argsort_stable Samples.round1
           Samples.round1_after Samples.snap_abc 200 (Some 2)
           (mkStats 1 1 1 0) "c" (mkObj "C" (5 : @score ZScore))).
  - apply argsort_stable_ok.
  - unfold dict_wf, Samples.snap_abc. simpl. nodup_by_cases.
  - reflexivity.
  - simpl. tauto.
  - exact I.
Defined.

(** With two rows of one team in one round the sort of [save_excel]
    does change the view of the deltas. *)
Example presort_matters_with_duplicates :
  build_punteggi_giornata
    (stable_sort le_giornata_punteggio
       [mkRow 1 (Some 100) "A" "a" (10 : @score ZScore);
        mkRow 1 (Some 100) "A" "a" (12 : @score ZScore)])
  <> build_punteggi_giornata
       [mkRow 1 (Some 100) "A" "a" (10 : @score ZScore);
        mkRow 1 (Some 100) "A" "a" (12 : @score ZScore)].
Proof. vm_compute. discriminate. Qed.
